(** * pyGAM: a logistic generalized additive model

    A shallow embedding of [pygam.py]: knot generation, the De Boor
    recursion for the B-spline basis, the P-spline penalty, the PIRLS
    loop with its diagnostics, and prediction.

    Numbers.  The program computes with binary64 floats.  The embedding
    is generic in the number type: the class [Scalar] lists the
    arithmetic and comparisons the program uses, [Transcendental] the
    library functions [exp], [log] and [sqrt].  Three instances of
    [Scalar] are given: canonical rationals [Qc] (every finite float is
    one; results are exact and the definitions evaluate), the reals [R]
    (exact real arithmetic, with the real exponential, logarithm and
    root), and binary64 floats themselves.  Statements that do not
    depend on the laws of arithmetic are proved for every instance;
    statements about exact values are proved over [Qc] or [R].

    Exceptions.  A function that can raise returns a [result]; a method
    runs in the monad [M], which threads the object and keeps the state
    the call left also when it raised.

    Output.  What the program prints and the warnings numpy issues (on
    a division of a float64 by zero, which returns inf or nan) are not
    part of the state; an exception is.

    [get_params], [set_params] and [__repr__] are not part of the
    embedding. *)

From Stdlib Require Import List Bool Arith ZArith Lia.
From Stdlib Require String.
Import String.StringSyntax.
From Stdlib Require Import QArith Qcanon Field.
From Stdlib Require Import Reals Lra.
From Stdlib Require Import Sorted Permutation.
From Stdlib Require Floats Uint63.
From Stdlib Require Lqa.
Import ListNotations.

Set Implicit Arguments.
Close Scope R_scope.
Close Scope Qc_scope.
Close Scope Q_scope.
Open Scope nat_scope.
Open Scope list_scope.

(** ** Numbers *)

Class Scalar (F : Type) : Type := {
  fzero : F;
  fone : F;
  fadd : F -> F -> F;
  fsub : F -> F -> F;
  fmul : F -> F -> F;
  fdiv : F -> F -> F;
  fneg : F -> F;
  feqb : F -> F -> bool;   (* x == y *)
  fltb : F -> F -> bool;   (* x < y  *)
  fleb : F -> F -> bool;   (* x <= y *)
  of_Z : Z -> F;           (* an integer used as a number *)
  lit : Q -> F             (* a decimal literal of the source *)
}.

Class Transcendental (F : Type) : Type := {
  fexp : F -> F;    (* np.exp *)
  flog : F -> F;    (* np.log *)
  fsqrt : F -> F    (* np.sqrt, x ** 0.5 *)
}.

Definition Qc_ltb (x y : Qc) : bool :=
  match (x ?= y)%Qc with Lt => true | _ => false end.

Definition Qc_leb (x y : Qc) : bool :=
  match (x ?= y)%Qc with Gt => false | _ => true end.

#[export] Instance Scalar_Qc : Scalar Qc := {
  fzero := 0%Qc;
  fone := 1%Qc;
  fadd := Qcplus;
  fsub := Qcminus;
  fmul := Qcmult;
  fdiv := Qcdiv;
  fneg := Qcopp;
  feqb := Qc_eq_bool;
  fltb := Qc_ltb;
  fleb := Qc_leb;
  of_Z := fun z => Q2Qc (inject_Z z);
  lit := Q2Qc
}.

Definition R_eqb (x y : R) : bool := if Req_dec_T x y then true else false.
Definition R_ltb (x y : R) : bool := if Rlt_dec x y then true else false.
Definition R_leb (x y : R) : bool := if Rle_dec x y then true else false.

#[export] Instance Scalar_R : Scalar R := {
  fzero := 0%R;
  fone := 1%R;
  fadd := Rplus;
  fsub := Rminus;
  fmul := Rmult;
  fdiv := Rdiv;
  fneg := Ropp;
  feqb := R_eqb;
  fltb := R_ltb;
  fleb := R_leb;
  of_Z := IZR;
  lit := Q2R
}.

#[export] Instance Transcendental_R : Transcendental R := {
  fexp := exp;
  flog := ln;
  fsqrt := sqrt
}.

(** Binary64 floats, the numbers of the program itself; an integer is
    converted through a 63-bit integer, which is exact below 2^53. *)
Definition float_of_Z (z : Z) : PrimFloat.float :=
  match z with
  | Z0 => PrimFloat.zero
  | Zpos p => PrimFloat.of_uint63 (Uint63.of_Z (Zpos p))
  | Zneg p => PrimFloat.opp (PrimFloat.of_uint63 (Uint63.of_Z (Zpos p)))
  end.

Definition float_of_Q (q : Q) : PrimFloat.float :=
  PrimFloat.div (float_of_Z (Qnum q)) (float_of_Z (Zpos (Qden q))).

#[export] Instance Scalar_float : Scalar PrimFloat.float := {
  fzero := PrimFloat.zero;
  fone := PrimFloat.one;
  fadd := PrimFloat.add;
  fsub := PrimFloat.sub;
  fmul := PrimFloat.mul;
  fdiv := PrimFloat.div;
  fneg := PrimFloat.opp;
  feqb := PrimFloat.eqb;
  fltb := PrimFloat.ltb;
  fleb := PrimFloat.leb;
  of_Z := float_of_Z;
  lit := float_of_Q
}.

(** ** Python errors and results *)

Inductive pyexc : Type :=
| AssertionError (msg : String.string)
| ValueError
| IndexError
| TypeError
| ZeroDivisionError
| LinAlgError.

Inductive result (A : Type) : Type :=
| Ok (a : A)
| Raise (e : pyexc).
Arguments Ok {A} a.
Arguments Raise {A} e.

Definition rbind {A B} (r : result A) (k : A -> result B) : result B :=
  match r with
  | Ok a => k a
  | Raise e => Raise e
  end.

Fixpoint rmap {A B} (f : A -> result B) (l : list A) : result (list B) :=
  match l with
  | [] => Ok []
  | a :: l' =>
      rbind (f a) (fun b => rbind (rmap f l') (fun bs => Ok (b :: bs)))
  end.

(** ** Arrays *)

(** [l[i:j]] for [0 <= i]; Python clamps both ends. *)
Definition slice {A} (i j : nat) (l : list A) : list A :=
  firstn (j - i) (skipn i l).

Fixpoint zipWith {A B C} (f : A -> B -> C) (la : list A) (lb : list B)
  : list C :=
  match la, lb with
  | a :: la', b :: lb' => f a b :: zipWith f la' lb'
  | _, _ => []
  end.

Fixpoint zipWith3 {A B C D} (f : A -> B -> C -> D)
  (la : list A) (lb : list B) (lc : list C) : list D :=
  match la, lb, lc with
  | a :: la', b :: lb', c :: lc' => f a b c :: zipWith3 f la' lb' lc'
  | _, _, _ => []
  end.

(** [l[i] = v] for [i] in range; the list is returned as it is otherwise
    (callers check the range first). *)
Fixpoint set_nth {A} (i : nat) (v : A) (l : list A) : list A :=
  match l, i with
  | [], _ => []
  | _ :: l', O => v :: l'
  | a :: l', S i' => a :: set_nth i' v l'
  end.

(** A 2-D array: its shape and its rows. *)
Record mat (F : Type) : Type := Mat {
  nrows : nat;
  ncols : nat;
  rows : list (list F)
}.
Arguments Mat {F} nrows ncols rows.

Section Arrays.
Context {F : Type} `{Scalar F}.

Definition vsum (v : list F) : F := fold_left fadd v fzero.

Fixpoint insert_sorted (a : F) (l : list F) : list F :=
  match l with
  | [] => [a]
  | b :: l' => if fleb a b then a :: l else b :: insert_sorted a l'
  end.

(** [np.sort] *)
Definition np_sort (l : list F) : list F :=
  fold_right insert_sorted [] l.

Definition fmin (a b : F) : F := if fltb b a then b else a.
Definition fmax (a b : F) : F := if fltb a b then b else a.

(** [a.min()] and [a.max()]; numpy raises ValueError on an empty array. *)
Definition np_min (l : list F) : result F :=
  match l with
  | [] => Raise ValueError
  | a :: l' => Ok (fold_left fmin l' a)
  end.

Definition np_max (l : list F) : result F :=
  match l with
  | [] => Raise ValueError
  | a :: l' => Ok (fold_left fmax l' a)
  end.

Definition b2f (b : bool) : F := if b then fone else fzero.
End Arrays.

(** ** The spline basis *)

Section Spline.
Context {F : Type} `{Scalar F}.

(** [np.r_[min * ones(order-1), sort(knots), max * ones(order-1)]];
    multiplying by the ones leaves the value as it is. *)
Definition aug_knots_of (boundary_knots : list F) (order : nat)
  : result (list F) :=
  rbind (np_min boundary_knots) (fun mn =>
  rbind (np_max boundary_knots) (fun mx =>
  Ok (repeat mn (order - 1) ++ np_sort boundary_knots
        ++ repeat mx (order - 1)))).

(** One row of
    [(x >= aug_knots[:-1]).astype(int) * (x < aug_knots[1:]).astype(int)]. *)
Definition haar_row (aug : list F) (x : F) : list F :=
  zipWith (fun lo hi => fmul (b2f (fleb lo x)) (b2f (fltb x hi)))
          (removelast aug) (tl aug).

(** [aug_knots[-1]]; the caller has a non-empty [aug]. *)
Definition last_knot (aug : list F) : F := last aug fzero.
Definition first_knot (aug : list F) : F := hd fzero aug.

(** The two boundary assignments on one row:
    [bases[(x >= aug_knots[-1])[:,0], -order] = 1] then
    [bases[(x < aug_knots[0])[:,0], order] = 1]. *)
Definition extend_row (aug : list F) (order : nat) (x : F)
  (row : list F) : list F :=
  let row1 :=
    if fleb (last_knot aug) x
    then set_nth (length row - order) fone row else row in
  if fltb x (first_knot aug) then set_nth order fone row1 else row1.

(** One pass of the loop body on one row, with [maxi] already
    decremented. *)
Definition blend (x lo hi c : F) (num : F) : F :=
  if feqb hi lo then fzero else fmul (fdiv num (fsub hi lo)) c.

Definition recursion_row (aug : list F) (x : F) (m maxi : nat)
  (bases : list F) : list F :=
  let left :=
    zipWith3 (fun lo hi c => blend x lo hi c (fsub x lo))
      (slice 0 maxi aug) (slice (m - 1) (maxi + m - 1) aug)
      (slice 0 maxi bases) in
  let right :=
    zipWith3 (fun hi lo c => blend x lo hi c (fsub hi x))
      (slice m (maxi + m) aug) (slice 1 (maxi + 1) aug)
      (slice 1 (maxi + 1) bases) in
  zipWith fadd left right.

(** [for m in range(2, order + 1)]: [count] passes starting at [m],
    [maxi] being the value before the pass. *)
Fixpoint recursion_loop (aug : list F) (x : F) (count m maxi : nat)
  (bases : list F) : list F :=
  match count with
  | O => bases
  | S count' =>
      recursion_loop aug x count' (S m) (maxi - 1)
        (recursion_row aug x m (maxi - 1) bases)
  end.

(** The order-1 (indicator) initialization of one row. *)
Definition indicator_row (aug : list F) (order : nat) (x : F) : list F :=
  extend_row aug order x (haar_row aug x).

Definition basis_row (aug : list F) (order : nat) (x : F) : list F :=
  recursion_loop aug x (order - 1) 2 (length aug - 1)
    (indicator_row aug order x).

(** [b_spline_basis(x, boundary_knots, order)].  Every row of the
    result depends on its own sample only, so the array operations are
    written row by row.  The two index assignments name a column,
    [-order] and then [order], of an array that has one column per
    interval of [aug_knots]; numpy checks that the column exists whatever
    rows the mask selects, and raises IndexError when it does not.  The
    [sparse] flag changes the storage of the result, not its entries. *)
Definition b_spline_basis (x : list F) (boundary_knots : list F)
  (order : Z) : result (mat F) :=
  if (order <? 1)%Z then Raise ValueError else
  let k := Z.to_nat order in
  rbind (aug_knots_of boundary_knots k) (fun aug =>
  let width1 := length aug - 1 in
  if width1 <? k then Raise IndexError          (* column [-order] *)
  else if width1 <=? k then Raise IndexError    (* column [order] *)
  else Ok (Mat (length x) (length aug - k)
             (map (basis_row aug k) x))).
End Spline.

(** ** Knots *)

Section Knots.
Context {F : Type} `{Scalar F}.

(** [np.percentile(data, np.linspace(0, 100, k))] with numpy's default
    linear interpolation, in exact arithmetic: the [i]-th of [k]
    percentiles sits at position [i * (n - 1) / (k - 1)] of the sorted
    data, and the value there is interpolated between its two
    neighbours.  Empty data raises. *)
Definition percentile_at (sorted : list F) (i k : nat) : F :=
  let n := length sorted in
  let num := i * (n - 1) in
  let den := k - 1 in
  let lo := if den =? 0 then 0 else num / den in
  let frac :=
    if den =? 0 then fzero
    else fdiv (of_Z (Z.of_nat (num mod den))) (of_Z (Z.of_nat den)) in
  let hi := Nat.min (lo + 1) (n - 1) in
  fadd (fmul (fsub fone frac) (nth lo sorted fzero))
       (fmul frac (nth hi sorted fzero)).

Definition np_percentile_linspace (data : list F) (k : nat)
  : result (list F) :=
  match data with
  | [] => Raise IndexError
  | _ => Ok (map (fun i => percentile_at (np_sort data) i k) (seq 0 k))
  end.

(** [gen_knots(data, n_knots, add_boundaries)] *)
Definition gen_knots (data : list F) (n_knots : Z) (add_boundaries : bool)
  : result (list F) :=
  if (n_knots + 2 <? 0)%Z then Raise ValueError else
  rbind (np_percentile_linspace data (Z.to_nat (n_knots + 2)))
    (fun knots =>
       if add_boundaries then Ok knots
       else Ok (removelast (tl knots))).
End Knots.

(** ** Matrices *)

Section Matrices.
Context {F : Type} `{Scalar F}.

Definition vdot (u v : list F) : F := vsum (zipWith fmul u v).

(** Column [j] of a list of rows. *)
Definition column (j : nat) (rs : list (list F)) : list F :=
  map (fun r => nth j r fzero) rs.

(** [X.T] as the list of its rows, one per column of [X]. *)
Definition columns (X : mat F) : list (list F) :=
  map (fun j => column j (rows X)) (seq 0 (ncols X)).

Definition transpose (A : mat F) : mat F :=
  Mat (ncols A) (nrows A) (columns A).

(** [A.dot(B)] for 2-D [A] and [B] of matching inner dimension. *)
Definition matmul (A B : mat F) : mat F :=
  Mat (nrows A) (ncols B)
      (map (fun r => map (fun c => vdot r c) (columns B)) (rows A)).

(** [A.dot(v)] for a 1-D [v]. *)
Definition matvec (A : mat F) (v : list F) : list F :=
  map (fun r => vdot r v) (rows A).

Definition madd (A B : mat F) : mat F :=
  Mat (nrows A) (ncols A) (zipWith (zipWith fadd) (rows A) (rows B)).

(** [A.multiply(c)] for a sparse [A] built from a dense array and a
    number [c]: a sparse matrix stores the entries that are not zero,
    and these are the ones the product scales. *)
Definition scale_stored (a c : F) : F :=
  if feqb a fzero then fzero else fmul a c.

Definition multiply (A : mat F) (c : F) : mat F :=
  Mat (nrows A) (ncols A) (map (map (fun a => scale_stored a c)) (rows A)).

(** [np.eye(n)] *)
Definition eye_row (n i : nat) : list F :=
  map (fun j => if i =? j then fone else fzero) (seq 0 n).

Definition np_eye (n : nat) : mat F :=
  Mat n n (map (eye_row n) (seq 0 n)).

(** [sp.sparse.diags(d)] *)
Definition diag_row (d : list F) (i : nat) : list F :=
  map (fun j => if i =? j then nth i d fzero else fzero)
      (seq 0 (length d)).

Definition diags (d : list F) : mat F :=
  Mat (length d) (length d) (map (diag_row d) (seq 0 (length d))).

(** [A.diagonal()] *)
Definition diagonal (A : mat F) : list F :=
  map (fun i => nth i (nth i (rows A) []) fzero)
      (seq 0 (Nat.min (nrows A) (ncols A))).

(** [np.ones((n, 1))] *)
Definition ones_column (n : nat) : mat F := Mat n 1 (repeat [fone] n).

(** [sp.sparse.hstack(blocks)]: the blocks side by side.  The blocks
    built by the program have one row per sample. *)
Definition hstack2 (A B : mat F) : mat F :=
  Mat (nrows A) (ncols A + ncols B)
      (zipWith (@app F) (rows A) (rows B)).

Definition hstack (first : mat F) (others : list (mat F)) : mat F :=
  fold_left hstack2 others first.

(** [sp.sparse.block_diag(blocks)]; it raises ValueError when there is
    no block. *)
Fixpoint block_diag_rows (blocks : list (mat F)) (before total : nat)
  : list (list F) :=
  match blocks with
  | [] => []
  | B :: rest =>
      map (fun r => repeat fzero before ++ r
                      ++ repeat fzero (total - before - ncols B))
          (rows B)
      ++ block_diag_rows rest (before + ncols B) total
  end.

Definition block_diag (blocks : list (mat F)) : result (mat F) :=
  match blocks with
  | [] => Raise ValueError     (* no block to stack *)
  | _ =>
      let total_r := list_sum (map (@nrows F) blocks) in
      let total_c := list_sum (map (@ncols F) blocks) in
      Ok (Mat total_r total_c (block_diag_rows blocks 0 total_c))
  end.

(** One pass of [np.diff] along a row: [r[1:] - r[:-1]]. *)
Definition diff1 (r : list F) : list F :=
  zipWith fsub (tl r) (removelast r).

(** [np.diff(a, n=d)] along the last axis; a negative order raises. *)
Definition np_diff (A : mat F) (d : Z) : result (mat F) :=
  if (d <? 0)%Z then Raise ValueError else
  let k := Z.to_nat d in
  Ok (Mat (nrows A) (ncols A - k)
          (map (fun r => Nat.iter k diff1 r) (rows A))).
End Matrices.

(** ** The model *)

(** The coefficient array takes two shapes in the program:
    [np.zeros((m, 1))], a column, at the first fit, and the 1-D result
    of a sparse product with a 1-D array after every update. *)
Inductive coef (F : Type) : Type :=
| Column (v : list F)    (* shape (m, 1) *)
| Flat (v : list F).     (* shape (m,)   *)
Arguments Column {F} v.
Arguments Flat {F} v.

Definition coef_values {F} (b : coef F) : list F :=
  match b with Column v => v | Flat v => v end.

(** A dense array of one or two dimensions. *)
Inductive ndarray (F : Type) : Type :=
| Arr1 (v : list F)
| Arr2 (m : list (list F)).
Arguments Arr1 {F} v.
Arguments Arr2 {F} m.

(** A number the object holds is one of Python's own (an attribute set
    by hand) or one of numpy's, a float64 (what the array operations of
    a fit return).  The two divide by zero differently: Python raises
    ZeroDivisionError, numpy returns inf or nan. *)
Inductive number (F : Type) : Type :=
| PyNumber (v : F)
| Float64 (v : F).
Arguments PyNumber {F} v.
Arguments Float64 {F} v.

Definition number_value {F} (x : number F) : F :=
  match x with PyNumber v => v | Float64 v => v end.

Record LogisticGAM (F : Type) : Type := Model {
  n_iter : Z;
  lam : F;
  tol : F;
  n_knots : Z;
  diff_order : Z;
  spline_order : Z;
  b_ : option (coef F);
  knots_ : option (list (list F));
  n_bases_ : list nat;
  edof_ : option (number F);
  rse_ : option F;          (* the attribute exists once it is assigned *)
  se_ : option (list F);
  aic_ : option F;
  aicc_ : option F;
  acc : list F;
  nll : list F;
  diffs : list F
}.

Section Setters.
Context {F : Type}.
Definition set_b_ (v : option (coef F)) (s : LogisticGAM F) :=
  Model (n_iter s) (lam s) (tol s) (n_knots s) (diff_order s)
    (spline_order s) v (knots_ s) (n_bases_ s) (edof_ s) (rse_ s)
    (se_ s) (aic_ s) (aicc_ s) (acc s) (nll s) (diffs s).
Definition set_knots_ (v : option (list (list F))) (s : LogisticGAM F) :=
  Model (n_iter s) (lam s) (tol s) (n_knots s) (diff_order s)
    (spline_order s) (b_ s) v (n_bases_ s) (edof_ s) (rse_ s)
    (se_ s) (aic_ s) (aicc_ s) (acc s) (nll s) (diffs s).
Definition set_n_bases_ (v : list nat) (s : LogisticGAM F) :=
  Model (n_iter s) (lam s) (tol s) (n_knots s) (diff_order s)
    (spline_order s) (b_ s) (knots_ s) v (edof_ s) (rse_ s)
    (se_ s) (aic_ s) (aicc_ s) (acc s) (nll s) (diffs s).
Definition set_edof_ (v : option (number F)) (s : LogisticGAM F) :=
  Model (n_iter s) (lam s) (tol s) (n_knots s) (diff_order s)
    (spline_order s) (b_ s) (knots_ s) (n_bases_ s) v (rse_ s)
    (se_ s) (aic_ s) (aicc_ s) (acc s) (nll s) (diffs s).
Definition set_rse_ (v : option F) (s : LogisticGAM F) :=
  Model (n_iter s) (lam s) (tol s) (n_knots s) (diff_order s)
    (spline_order s) (b_ s) (knots_ s) (n_bases_ s) (edof_ s) v
    (se_ s) (aic_ s) (aicc_ s) (acc s) (nll s) (diffs s).
Definition set_se_ (v : option (list F)) (s : LogisticGAM F) :=
  Model (n_iter s) (lam s) (tol s) (n_knots s) (diff_order s)
    (spline_order s) (b_ s) (knots_ s) (n_bases_ s) (edof_ s) (rse_ s)
    v (aic_ s) (aicc_ s) (acc s) (nll s) (diffs s).
Definition set_aic_ (v : option F) (s : LogisticGAM F) :=
  Model (n_iter s) (lam s) (tol s) (n_knots s) (diff_order s)
    (spline_order s) (b_ s) (knots_ s) (n_bases_ s) (edof_ s) (rse_ s)
    (se_ s) v (aicc_ s) (acc s) (nll s) (diffs s).
Definition set_aicc_ (v : option F) (s : LogisticGAM F) :=
  Model (n_iter s) (lam s) (tol s) (n_knots s) (diff_order s)
    (spline_order s) (b_ s) (knots_ s) (n_bases_ s) (edof_ s) (rse_ s)
    (se_ s) (aic_ s) v (acc s) (nll s) (diffs s).
Definition set_acc (v : list F) (s : LogisticGAM F) :=
  Model (n_iter s) (lam s) (tol s) (n_knots s) (diff_order s)
    (spline_order s) (b_ s) (knots_ s) (n_bases_ s) (edof_ s) (rse_ s)
    (se_ s) (aic_ s) (aicc_ s) v (nll s) (diffs s).
Definition set_nll (v : list F) (s : LogisticGAM F) :=
  Model (n_iter s) (lam s) (tol s) (n_knots s) (diff_order s)
    (spline_order s) (b_ s) (knots_ s) (n_bases_ s) (edof_ s) (rse_ s)
    (se_ s) (aic_ s) (aicc_ s) (acc s) v (diffs s).
Definition set_diffs (v : list F) (s : LogisticGAM F) :=
  Model (n_iter s) (lam s) (tol s) (n_knots s) (diff_order s)
    (spline_order s) (b_ s) (knots_ s) (n_bases_ s) (edof_ s) (rse_ s)
    (se_ s) (aic_ s) (aicc_ s) (acc s) (nll s) v.
End Setters.

(** Methods run on the object and may raise: a computation takes the
    object and returns a result together with the object as the call
    left it, also when it raised. *)
Definition M (F A : Type) : Type :=
  LogisticGAM F -> result A * LogisticGAM F.

Section Monad.
Context {F : Type}.
Definition ret {A} (a : A) : M F A := fun s => (Ok a, s).
Definition raise {A} (e : pyexc) : M F A := fun s => (Raise e, s).
Definition bind {A B} (c : M F A) (k : A -> M F B) : M F B :=
  fun s =>
    match c s with
    | (Ok a, s') => k a s'
    | (Raise e, s') => (Raise e, s')
    end.
Definition lift {A} (r : result A) : M F A := fun s => (r, s).
Definition get : M F (LogisticGAM F) := fun s => (Ok s, s).
Definition modify (f : LogisticGAM F -> LogisticGAM F) : M F unit :=
  fun s => (Ok tt, f s).
(** An attribute that must not be [None] where it is used. *)
Definition need {A} (o : option A) : M F A :=
  match o with Some a => ret a | None => raise TypeError end.
End Monad.

Declare Scope gam_scope.
Delimit Scope gam_scope with gam.
Notation "x <- c ;; k" := (bind c (fun x => k))
  (at level 61, c at next level, right associativity) : gam_scope.
Notation "c ;;; k" := (bind c (fun _ => k))
  (at level 61, right associativity) : gam_scope.

(** ** Construction *)

(** The values a caller may pass for a hyperparameter (Python 2). *)
Inductive pyval : Type :=
| PyInt (z : Z)
| PyLong (z : Z)
| PyFloat (q : Q)
| PyBool (b : bool)
| PyNone
| PyStr (s : String.string).

(** [v >= k] for an int [k], as Python 2 orders values: numbers by
    value, [None] below every number, a string above every number. *)
Definition py_ge (v : pyval) (k : Z) : bool :=
  match v with
  | PyInt z | PyLong z => (k <=? z)%Z
  | PyFloat q => Qle_bool (inject_Z k) q
  | PyBool b => (k <=? (if b then 1 else 0))%Z
  | PyNone => false
  | PyStr _ => true
  end.

(** [type(v) is int] *)
Definition type_is_int (v : pyval) : bool :=
  match v with PyInt _ => true | _ => false end.

Definition int_value (v : pyval) : Z :=
  match v with PyInt z => z | _ => 0%Z end.

Section Init.
Context {F : Type}.
Local Open Scope string_scope.

(** [LogisticGAM.__init__]: the three assertions, then the fields. *)
Definition init (lam : F) (n_iter : pyval) (tol : F) (n_knots : pyval)
  (diff_order : Z) (spline_order : pyval) : result (LogisticGAM F) :=
  if negb (py_ge n_iter 1 && type_is_int n_iter)
  then Raise (AssertionError "n_iter must be int >= 1")
  else if negb (py_ge n_knots 0 && type_is_int n_knots)
  then Raise (AssertionError "n_knots must be int >= 0")
  else if negb (py_ge spline_order 1 && type_is_int spline_order)
  then Raise (AssertionError "spline_order must be int >= 1")
  else Ok (Model (int_value n_iter) lam tol (int_value n_knots)
             diff_order (int_value spline_order)
             None None [] None None None None None [] [] []).
End Init.

(** ** Methods *)

(** How [pirls_] left its loop: by the [return] of the convergence test,
    by the [break] of the saturation test (which prints
    'increase regularization' and then 'did not converge'), or by running
    out of iterations (which prints 'did not converge'). *)
Inductive pirls_exit : Type := Converged | Saturated | Exhausted.

Section Methods.
Context {F : Type} `{Scalar F} `{Transcendental F}.

(** [sp.sparse.linalg.inv]; it raises on a singular matrix. *)
Variable sparse_inv : mat F -> result (mat F).
(** [np.random.shuffle] on [range(size)]: some permutation. *)
Variable shuffle : list nat -> list nat.

Local Open Scope gam_scope.

(** [np.ones(len(self.n_bases_)) * self.lam] *)
Definition lambdas (s : LogisticGAM F) : list F :=
  repeat (lam s) (length (n_bases_ s)).

(** [1./(1. + np.exp(-log_odds))] *)
Definition logistic (v : F) : F :=
  fdiv fone (fadd fone (fexp (fneg v))).

Definition proba_ (log_odds : list F) : list F := map logistic log_odds.

(** The loop of [bases_]: one block per pair of [zip(X.T, self.knots_)],
    its width appended to [n_bases_] as soon as it is built. *)
Fixpoint bases_loop (pairs : list (list F * list F))
  (blocks : list (mat F)) : M F (list (mat F)) :=
  match pairs with
  | [] => ret blocks
  | (x, knots) :: rest =>
      s <- get ;;
      B <- lift (b_spline_basis x knots (spline_order s)) ;;
      modify (fun s => set_n_bases_ (n_bases_ s ++ [ncols B]) s) ;;;
      bases_loop rest (blocks ++ [B])
  end.

Definition bases_ (X : mat F) : M F (mat F) :=
  modify (set_n_bases_ [1]) ;;;
  s <- get ;;
  knots <- need (knots_ s) ;;
  blocks <- bases_loop (combine (columns X) knots) [] ;;
  ret (hstack (ones_column (nrows X)) blocks).

(** [bases.dot(b_).squeeze()]; the product raises on a dimension
    mismatch.  Both shapes of the coefficients give a 1-D result. *)
Definition dot_coef (bases : mat F) (b : coef F) : result (list F) :=
  if ncols bases =? length (coef_values b)
  then Ok (matvec bases (coef_values b))
  else Raise ValueError.

Definition log_odds_ (X : mat F) (bases : option (mat F))
  (b : option (coef F)) : M F (list F) :=
  B <- match bases with Some B => ret B | None => bases_ X end ;;
  s <- get ;;
  c <- match b with Some c => ret c | None => need (b_ s) end ;;
  lift (dot_coef B c).

Definition predict_proba (X : mat F) : M F (list F) :=
  lo <- log_odds_ X None None ;;
  ret (proba_ lo).

Definition predict (X : mat F) : M F (list bool) :=
  p <- predict_proba X ;;
  ret (map (fun v => fltb (lit (1 # 2)) v) p).

(** [((proba > 0.5).astype(int) == y).mean()]; [y] has one label per
    sample, another length raises. *)
Definition accuracy_ (y proba : list F) : result F :=
  if length y =? length proba then
    let hits :=
      zipWith (fun p yi =>
                 feqb (if fltb (lit (1 # 2)) p then fone else fzero) yi)
              proba y in
    Ok (fdiv (of_Z (Z.of_nat (length (filter (fun b => b) hits))))
             (of_Z (Z.of_nat (length hits))))
  else Raise ValueError.

(** [np.sum(y * np.log(proba) + (1-y) * np.log(1-proba))] *)
Definition loglik (y proba : list F) : F :=
  vsum (zipWith (fun yi p =>
                   fadd (fmul yi (flog p))
                        (fmul (fsub fone yi) (flog (fsub fone p))))
                y proba).

Definition loglikelihood_ (X : option (mat F)) (y : list F)
  (proba : option (list F)) : M F F :=
  p <- match proba with
       | Some p => ret p
       | None => X' <- need X ;; predict_proba X'
       end ;;
  ret (loglik y p).

(** [proto_P_(n)] *)
Definition proto_P_ (s : LogisticGAM F) (n : nat) : result (mat F) :=
  if n =? 1 then Ok (Mat 1 1 [[fzero]])
  else rbind (np_diff (np_eye n) (diff_order s))
         (fun D => Ok (matmul D (transpose D))).

(** [P_()]; the sum of the block-diagonal matrix and the ridge raises
    when their shapes differ. *)
Definition P_ (s : LogisticGAM F) : result (mat F) :=
  rbind (rmap (proto_P_ s) (n_bases_ s)) (fun Ps =>
  rbind (block_diag (zipWith (fun l P => multiply P l) (lambdas s) Ps))
    (fun P_matrix =>
  match b_ s with
  | None => Raise TypeError
  | Some b =>
      let ridge := diags (repeat (lit (1 # 10000000))
                                 (length (coef_values b))) in
      if (nrows P_matrix =? nrows ridge) && (ncols P_matrix =? ncols ridge)
      then Ok (madd P_matrix ridge)
      else Raise ValueError
  end)).

(** [log_odds + (y - proba)/(proba*(1-proba))] *)
Definition pseudo_data_ (y log_odds proba : list F) : list F :=
  zipWith3 (fun yi lo p =>
              fadd lo (fdiv (fsub yi p) (fmul p (fsub fone p))))
           y log_odds proba.

Definition working_weights (proba : list F) : list F :=
  map (fun p => fmul p (fsub fone p)) proba.

Definition weights_ (proba : list F) : mat F :=
  diags (working_weights proba).

(** [np.linalg.norm]: the root of the sum of the squares of all
    entries, for a 1-D and for a 2-D array alike. *)
Definition np_linalg_norm (a : ndarray F) : F :=
  let entries := match a with Arr1 v => v | Arr2 m => concat m end in
  fsqrt (vsum (map (fun e => fmul e e) entries)).

(** [self.b_ - b_new] with [b_new] 1-D.  A column of shape (m, 1) and
    a 1-D array of length k broadcast to an (m, k) array; two 1-D
    arrays are subtracted entry by entry. *)
Definition np_sub (b : coef F) (b_new : list F) : result (ndarray F) :=
  match b with
  | Column v =>
      Ok (Arr2 (map (fun bi => map (fun nj => fsub bi nj) b_new) v))
  | Flat v =>
      if length v =? length b_new
      then Ok (Arr1 (zipWith fsub v b_new))
      else Raise ValueError
  end.

(** [estimate_edof_]: the trace over a random sample of at most 5000
    rows, scaled up. *)
Definition estimate_edof_ (bases inner BW : mat F) : F :=
  let size := nrows bases in
  let max_ := Nat.min 5000 size in
  let scale := fdiv (of_Z (Z.of_nat size)) (of_Z (Z.of_nat max_)) in
  let idxs := firstn max_ (shuffle (seq 0 size)) in
  let BI := matmul bases inner in
  let picked_rows :=
    Mat (length idxs) (ncols BI)
        (map (fun i => nth i (rows BI) []) idxs) in
  let picked_cols :=
    Mat (nrows BW) (length idxs)
        (map (fun r => map (fun i => nth i r fzero) idxs) (rows BW)) in
  fmul scale (vsum (diagonal (matmul picked_rows picked_cols))).

(** [estimate_rse_]; the square root of the sparse weight matrix acts
    on its diagonal. *)
Definition estimate_rse_ (y proba : list F) (W : mat F)
  : M F F :=
  s <- get ;;
  edof <- need (edof_ s) ;;
  let v := matvec (diags (map fsqrt (diagonal W)))
                  (zipWith fsub y proba) in
  let nrm := np_linalg_norm (Arr1 v) in
  ret (fdiv (fmul nrm nrm)
            (fsub (of_Z (Z.of_nat (length y))) (number_value edof))).

(** [estimate_se_] *)
Definition estimate_se_ (bases inner BW : mat F) : M F (list F) :=
  s <- get ;;
  rse <- need (rse_ s) ;;
  ret (map (fun d => fsqrt (fmul d rse))
           (diagonal (matmul (matmul (matmul inner BW) bases) inner))).

(** [estimate_AIC_] *)
Definition estimate_AIC_ (X : option (mat F)) (y : list F)
  (proba : option (list F)) : M F F :=
  ll <- loglikelihood_ X y proba ;;
  s <- get ;;
  edof <- need (edof_ s) ;;
  ret (fadd (fmul (fneg (of_Z 2)) ll)
            (fmul (of_Z 2) (number_value edof))).

(** The quotient [num / den] of two numbers computed from [edof_]:
    they are of its kind.  Python's division raises at a zero divisor;
    numpy's returns inf or nan there (and issues a RuntimeWarning,
    which is not part of the state). *)
Definition divide_as (kind : number F) (num den : F) : result F :=
  match kind with
  | PyNumber _ =>
      if feqb den fzero then Raise ZeroDivisionError
      else Ok (fdiv num den)
  | Float64 _ => Ok (fdiv num den)
  end.

(** [estimate_AICc_]: nothing tests the denominator before the
    division. *)
Definition estimate_AICc_ (X : option (mat F)) (y : list F)
  (proba : option (list F)) : M F F :=
  s <- get ;;
  (match aic_ s with
   | None =>
       a <- estimate_AIC_ X y proba ;;
       modify (set_aic_ (Some a))
   | Some _ => ret tt
   end) ;;;
  s <- get ;;
  aic <- need (aic_ s) ;;
  edof <- need (edof_ s) ;;
  let e := number_value edof in
  q <- lift (divide_as edof
               (fmul (fmul (of_Z 2) (fadd e (of_Z 1))) (fadd e (of_Z 2)))
               (fsub (fsub (of_Z (Z.of_nat (length y))) e) (of_Z 2))) ;;
  ret (fadd aic q).

Definition saturated (proba : list F) : bool :=
  existsb (fun p => feqb p fzero) proba
  || existsb (fun p => feqb p fone) proba.

(** The five assignments of the convergence branch. *)
Definition diagnostics (X : mat F) (y proba : list F)
  (bases inner BW weights : mat F) : M F unit :=
  modify (set_edof_ (Some (Float64 (estimate_edof_ bases inner BW)))) ;;;
  rse <- estimate_rse_ y proba weights ;;
  modify (set_rse_ (Some rse)) ;;;
  se <- estimate_se_ bases inner BW ;;
  modify (set_se_ (Some se)) ;;;
  aic <- estimate_AIC_ (Some X) y (Some proba) ;;
  modify (set_aic_ (Some aic)) ;;;
  aicc <- estimate_AICc_ (Some X) y (Some proba) ;;
  modify (set_aicc_ (Some aicc)).

(** The new coefficients of one iteration and what it keeps for the
    diagnostics. *)
Definition pirls_update (bases P : mat F) (y log_odds proba : list F)
  : result (list F * mat F * mat F * mat F) :=
  let weights := weights_ proba in
  let pseudo_data := pseudo_data_ y log_odds proba in
  let BW := matmul (transpose bases) weights in
  rbind (sparse_inv (madd (matmul BW bases) P)) (fun inner =>
  Ok (matvec (matmul inner BW) pseudo_data, inner, BW, weights)).

(** [for _ in range(self.n_iter)] with [fuel] iterations left. *)
Fixpoint pirls_loop (fuel : nat) (bases P : mat F) (X : mat F)
  (y : list F) : M F pirls_exit :=
  match fuel with
  | O => ret Exhausted
  | S fuel' =>
      log_odds <- log_odds_ X (Some bases) None ;;
      let proba := proba_ log_odds in
      a <- lift (accuracy_ y proba) ;;
      modify (fun s => set_acc (acc s ++ [a]) s) ;;;
      modify (fun s => set_nll (nll s ++ [fneg (loglik y proba)]) s) ;;;
      if saturated proba then ret Saturated
      else
        u <- lift (pirls_update bases P y log_odds proba) ;;
        let '(b_new, inner, BW, weights) := u in
        s <- get ;;
        b_old <- need (b_ s) ;;
        d <- lift (np_sub b_old b_new) ;;
        let diff := fdiv (np_linalg_norm d)
                         (np_linalg_norm (Arr1 b_new)) in
        modify (fun s => set_diffs (diffs s ++ [diff]) s) ;;;
        modify (set_b_ (Some (Flat b_new))) ;;;
        s <- get ;;
        if fltb diff (tol s)
        then diagnostics X y proba bases inner BW weights ;;;
             ret Converged
        else pirls_loop fuel' bases P X y
  end.

(** [pirls_(X, y)] *)
Definition pirls_ (X : mat F) (y : list F) : M F pirls_exit :=
  bases <- bases_ X ;;
  s <- get ;;
  (match b_ s with
   | None => modify (set_b_ (Some (Column (repeat fzero (ncols bases)))))
   | Some _ => ret tt
   end) ;;;
  s <- get ;;
  P <- lift (P_ s) ;;
  pirls_loop (Z.to_nat (n_iter s)) bases P X y.

(** [fit(X, y)] *)
Definition fit (X : mat F) (y : list F) : M F pirls_exit :=
  s <- get ;;
  knots <- lift (rmap (fun feat => gen_knots feat (n_knots s) true)
                      (columns X)) ;;
  modify (set_knots_ (Some knots)) ;;;
  pirls_ X y.
End Methods.

(** ** Definitions used by the statements *)

(** A hyperparameter that is an [int] (not a [long], a [bool] or a
    float) of value at least [k]. *)
Definition int_at_least (k : Z) (v : pyval) : Prop :=
  exists z, v = PyInt z /\ (k <= z)%Z.

(** A model whose diagnostics hold an effective degree of freedom of 2
    and an AIC of 0, and three labels. *)
Definition small_sample_model : LogisticGAM R :=
  Model 100 (Q2R (3 # 5)) (Q2R (1 # 100000)) 20 1 4
    None None [] (Some (PyNumber 2%R)) None None (Some 0%R) None [] [] [].

Definition three_labels : list R := [1%R; 0%R; 1%R].

(** The formula of the corrected AIC. *)
Definition AICc_formula {F} `{Scalar F} (aic edof : F) (n : nat) : F :=
  fadd aic
    (fdiv (fmul (fmul (of_Z 2) (fadd edof (of_Z 1))) (fadd edof (of_Z 2)))
          (fsub (fsub (of_Z (Z.of_nat n)) edof) (of_Z 2))).

(** Its denominator, [n - edof - 2]. *)
Definition AICc_denominator {F} `{Scalar F} (edof : F) (n : nat) : F :=
  fsub (fsub (of_Z (Z.of_nat n)) edof) (of_Z 2).

(** Entry [(i, j)] of a matrix. *)
Definition entry {F} `{Scalar F} (A : mat F) (i j : nat) : F :=
  nth j (nth i (rows A) []) fzero.

(** A matrix whose rows agree with its shape. *)
Definition well_shaped {F} (A : mat F) : Prop :=
  length (rows A) = nrows A
  /\ Forall (fun r => length r = ncols A) (rows A).

(** The finite-difference operator of a sequence: one forward
    difference, and [d] of them. *)
Definition forward_difference {F} `{Scalar F} (f : nat -> F) : nat -> F :=
  fun j => fsub (f (S j)) (f j).

Definition finite_difference {F} `{Scalar F} (d : nat) (f : nat -> F)
  : nat -> F :=
  Nat.iter d forward_difference f.

Definition identity_entry {F} `{Scalar F} (i j : nat) : F :=
  if i =? j then fone else fzero.

(** The [d]-th finite-difference operator applied to the rows of the
    [n] by [n] identity. *)
Definition difference_operator {F} `{Scalar F} (d n : nat) : mat F :=
  Mat n (n - d)
      (map (fun i => map (finite_difference d (identity_entry i))
                         (seq 0 (n - d)))
           (seq 0 n)).



(** A model with an intercept block and one block of three bases. *)
Definition two_block_model : LogisticGAM Qc :=
  Model 100 (Q2Qc (3 # 5)) (Q2Qc (1 # 100000)) 1 1 2
    (Some (Flat (repeat (Q2Qc 0) 4))) None [1; 3]
    None None None None None [] [] [].

(** The width of the basis of one feature: it depends on the knots and
    the order, not on the samples. *)
Definition basis_width {F} (order : Z) (knots : list F) : nat :=
  (Z.to_nat order - 1) + (length knots + (Z.to_nat order - 1))
  - Z.to_nat order.

(** A computation that leaves the part [p] of the object as it was,
    however it ends. *)
Definition preserves {F A T} (p : LogisticGAM F -> T) (c : M F A) : Prop :=
  forall s, p (snd (c s)) = p s.

(** The five diagnostics of the object. *)
Definition diagnostics_of {F} (s : LogisticGAM F) :=
  (edof_ s, rse_ s, se_ s, aic_ s, aicc_ s).

Definition diagnostics_unset {F} (s : LogisticGAM F) : Prop :=
  diagnostics_of s = (None, None, None, None, None).

Definition diagnostics_set {F} (s : LogisticGAM F) : Prop :=
  edof_ s <> None /\ rse_ s <> None /\ se_ s <> None
  /\ aic_ s <> None /\ aicc_ s <> None.

Section Iterates.
Context {F : Type} `{Scalar F} `{Transcendental F}.
Variable sparse_inv : mat F -> result (mat F).

(** The coefficients one iteration computes from the current ones. *)
Definition coef_step (bases P : mat F) (y : list F) (b : coef F)
  : result (coef F) :=
  rbind (dot_coef bases b) (fun log_odds =>
  rbind (pirls_update sparse_inv bases P y log_odds (proba_ log_odds))
    (fun u => Ok (Flat (fst (fst (fst u)))))).

(** The coefficients after [k] iterations. *)
Fixpoint coef_after (bases P : mat F) (y : list F) (k : nat) (b : coef F)
  : result (coef F) :=
  match k with
  | O => Ok b
  | S k' => rbind (coef_step bases P y b) (coef_after bases P y k')
  end.

(** The probabilities the loop tests for saturation at coefficients
    [b]. *)
Definition proba_at (bases : mat F) (b : coef F) : result (list F) :=
  rbind (dot_coef bases b) (fun log_odds => Ok (proba_ log_odds)).
End Iterates.

Section IterationStates.
Context {F : Type} `{Scalar F} `{Transcendental F}.

(** The state after the two log entries of an iteration. *)
Definition logged (s : LogisticGAM F) (y proba : list F) (a : F)
  : LogisticGAM F :=
  set_nll (nll s ++ [fneg (loglik y proba)]) (set_acc (acc s ++ [a]) s).

(** The relative change an iteration records. *)
Definition recorded_change (d : ndarray F) (b_new : list F) : F :=
  fdiv (np_linalg_norm d) (np_linalg_norm (Arr1 b_new)).

(** The state after the update of an iteration. *)
Definition updated (s : LogisticGAM F) (diff : F) (b_new : list F)
  : LogisticGAM F :=
  set_b_ (Some (Flat b_new)) (set_diffs (diffs s ++ [diff]) s).

End IterationStates.

(** Every relative change of a list is at least the tolerance. *)
Definition none_below {F} `{Scalar F} (t : F) (ds : list F) : Prop :=
  Forall (fun d => fltb d t = false) ds.

(** Knots on which the basis of the given order has its two boundary
    columns: at least one knot, and more than three counting the order. *)
Definition usable_knots {F} (order : Z) (knots : list F) : Prop :=
  knots <> [] /\ 3 < length knots + Z.to_nat order.

(** The model [LogisticGAM()] builds from its defaults, over the reals,
    two samples of one feature with their labels, and the same model
    holding three knots for the feature. *)
Definition fresh_model : LogisticGAM R :=
  Model 100 (Q2R (3 # 5)) (Q2R (1 # 100000)) 20 1 4
    None None [] None None None None None [] [] [].

Definition two_samples : mat R := Mat 2 1 [[0%R]; [1%R]].

Definition two_labels : list R := [0%R; 1%R].

Definition fresh_model_with_knots : LogisticGAM R :=
  set_knots_ (Some [[0%R; (1 / 2)%R; 1%R]]) fresh_model.

(** A stand-in for the matrix inverse, to run the examples: it returns
    a matrix of the right shape. *)
Definition some_inverse (A : mat R) : result (mat R) :=
  Ok (np_eye (nrows A)).

Definition no_shuffle (l : list nat) : list nat := l.

Section LoggedChanges.
Context {F : Type} `{Scalar F} `{Transcendental F}.
Variable sparse_inv : mat F -> result (mat F).

(** The relative changes [k] iterations record, starting from
    coefficients [b]: each one compares the coefficients before the
    update, in the shape they have then, with the new ones. *)
Fixpoint changes_after (bases P : mat F) (y : list F) (k : nat)
  (b : coef F) : result (list F) :=
  match k with
  | O => Ok []
  | S k' =>
      rbind (coef_step sparse_inv bases P y b) (fun b1 =>
      rbind (np_sub b (coef_values b1)) (fun d =>
      rbind (changes_after bases P y k' b1) (fun ds =>
      Ok (recorded_change d (coef_values b1) :: ds))))
  end.
End LoggedChanges.

(** The sum of the squares of the entries, the square of the norm. *)
Definition sum_of_squares (v : list R) : R :=
  vsum (map (fun e => fmul e e) v).

(** The relative change of the coefficients from the 1-D array [b_old]
    to [b_new]: [||b_old - b_new|| / ||b_new||]. *)
Definition relative_change (b_old b_new : list R) : R :=
  (sqrt (sum_of_squares (zipWith Rminus b_old b_new))
   / sqrt (sum_of_squares b_new))%R.

(** [LogisticGAM(n_iter=1, tol=1.5, n_knots=0, spline_order=2)] over the
    reals, holding the two knots of a feature, and two labels. *)
Definition hasty_model : LogisticGAM R :=
  Model 1 (Q2R (3 # 5)) (3 / 2)%R 0 1 2
    None (Some [[0%R; 1%R]]) [] None None None None None [] [] [].

Definition two_ones : list R := [1%R; 1%R].

(** The sum of the nonzero entries of a row. *)
Definition sum_nonzero {F} `{Scalar F} (row : list F) : F :=
  vsum (filter (fun v => negb (feqb v fzero)) row).

(** The row with a one at index [a] and zeros elsewhere. *)
Definition one_hot {F} `{Scalar F} (a len : nat) : list F :=
  map (fun j => if j =? a then fone else fzero) (seq 0 len).

(** [f 0 + ... + f (n - 1)] *)
Fixpoint sum_upto (f : nat -> Qc) (n : nat) : Qc :=
  match n with
  | O => 0%Qc
  | S n' => (sum_upto f n' + f n')%Qc
  end.

(** Rational numbers for the examples. *)
Definition qc (n : Z) (d : positive) : Qc := Q2Qc (n # d).

(** A row of the recursion at order [l], for the knots [t] and a sample
    whose knot interval is the one at index [a]: it has one entry per
    basis of that order, an entry is nonzero only if the support of its
    basis contains the interval, and the entries sum to one. *)
Definition supported (a l : nat) (c : list Qc) : Prop :=
  forall j, nth j c 0%Qc <> 0%Qc -> j <= a /\ a < j + l.

Definition level (t : list Qc) (a l : nat) (c : list Qc) : Prop :=
  length c = length t - l /\ supported a l c /\ vsum c = 1%Qc.

(** A sample the sorted knots cover at order [k]: inside their range,
    or at or beyond the largest knot when that knot is not repeated or
    the order is 1. *)
Definition covered (k : nat) (knots : list Qc) (x : Qc) : Prop :=
  (hd 0%Qc knots <= x /\ x < last knots 0%Qc)%Qc
  \/ ((last knots 0%Qc <= x)%Qc
      /\ ((nth (length knots - 2) knots 0%Qc < last knots 0%Qc)%Qc
          \/ k = 1)).

(** The augmented sequence of sorted knots: the first knot repeated, the
    knots, the last knot repeated. *)
Definition augmented (knots : list Qc) (k : nat) : list Qc :=
  repeat (hd 0%Qc knots) (k - 1) ++ knots
    ++ repeat (last knots 0%Qc) (k - 1).

Section AfterBases.
Context {F : Type} `{Scalar F} `{Transcendental F}.
Variable sparse_inv : mat F -> result (mat F).
Variable shuffle : list nat -> list nat.
Local Open Scope gam_scope.

(** What [pirls_] does once the basis matrix is built. *)
Definition pirls_tail (X : mat F) (y : list F) (bases : mat F)
  : M F pirls_exit :=
  s <- get ;;
  (match b_ s with
   | None => modify (set_b_ (Some (Column (repeat fzero (ncols bases)))))
   | Some _ => ret tt
   end) ;;;
  s <- get ;;
  P <- lift (P_ s) ;;
  pirls_loop sparse_inv shuffle (Z.to_nat (n_iter s)) bases P X y.
End AfterBases.


(** ** Definitions used by the further properties *)

(** [X[:, :p]]: the first [p] columns of a matrix. *)
Definition leading_columns {F} (p : nat) (X : mat F) : mat F :=
  Mat (nrows X) p (map (firstn p) (rows X)).

(** A model over the rationals that holds three knots for one feature
    and the coefficients of its three bases (order 2), and two samples
    of one feature. *)
Definition knotted_model : LogisticGAM Qc :=
  set_knots_ (Some [[qc 0 1; qc 1 1; qc 2 1]]) two_block_model.

Definition two_rows : mat Qc := Mat 2 1 [[qc 1 2]; [qc 3 2]].

(** Two samples of two features, over the reals. *)
Definition two_wide_samples : mat R :=
  Mat 2 2 [[0%R; 5%R]; [1%R; 7%R]].

(** The default model over the reals holding three knots for one
    feature and six coefficients (an intercept and the five bases of
    order 4), and two samples without any feature. *)
Definition model_with_coefficients : LogisticGAM R :=
  set_b_ (Some (Flat (repeat 0%R 6))) fresh_model_with_knots.

Definition featureless_samples : mat R := Mat 2 0 [[]; []].

(** The three logs of [s'] are those of [s] with entries appended: as
    many accuracies as likelihoods, at most [n] of them, and as many
    relative changes or one fewer. *)
Definition logs_extended {F} (n : nat) (s s' : LogisticGAM F) : Prop :=
  exists a l d,
    acc s' = acc s ++ a /\ nll s' = nll s ++ l /\ diffs s' = diffs s ++ d
    /\ length l = length a
    /\ length d <= length a /\ length a <= length d + 1
    /\ length a <= n.

(** The default model with [diff_order=-1], which the constructor
    accepts. *)
Definition negative_order_model : LogisticGAM R :=
  Model 100 (Q2R (3 # 5)) (Q2R (1 # 100000)) 20 (-1) 4
    None None [] None None None None None [] [] [].

(** [LogisticGAM(tol=0)] over the reals: a tolerance the constructor
    accepts. *)
Definition zero_tolerance_model : LogisticGAM R :=
  Model 100 (Q2R (3 # 5)) 0%R 20 1 4
    None None [] None None None None None [] [] [].

(** ** Partial dependence *)

Section PartialDependence.
Context {F : Type} `{Scalar F}.

(** [self.b_[lo:hi]]: a slice of the coefficients has their shape. *)
Definition coef_slice (lo hi : nat) (b : coef F) : coef F :=
  match b with
  | Column v => Column (slice lo hi v)
  | Flat v => Flat (slice lo hi v)
  end.

(** The loop of [partial_dependence] over
    [zip(X.T, self.knots_, self.n_bases_[1:])]: the basis of the
    feature, the coefficients of its block, and their product, which
    [log_odds_] computes from the basis and the coefficients it is
    given. *)
Fixpoint partial_dependence_loop (s : LogisticGAM F)
  (triples : list (list F * list F * nat)) (total : nat)
  (p_deps : list (list F)) : result (list (list F)) :=
  match triples with
  | [] => Ok p_deps
  | (x, knots, n_bases) :: rest =>
      rbind (b_spline_basis x knots (spline_order s)) (fun B =>
      match b_ s with
      | None => Raise TypeError
      | Some b =>
          rbind (dot_coef B (coef_slice total (total + n_bases) b))
            (fun p =>
          partial_dependence_loop s rest (total + n_bases)
            (p_deps ++ [p]))
      end)
  end.

(** [np.vstack(p_deps).T] for arrays of length [n]; numpy raises
    ValueError when there is nothing to stack. *)
Definition vstack_T (n : nat) (p_deps : list (list F)) : result (mat F) :=
  match p_deps with
  | [] => Raise ValueError
  | _ => Ok (transpose (Mat (length p_deps) n p_deps))
  end.

(** [partial_dependence(X)]; the call reads the model and leaves it as
    it is. *)
Definition partial_dependence (X : mat F) (s : LogisticGAM F)
  : result (mat F) :=
  match knots_ s with
  | None => Raise TypeError
  | Some knots =>
      rbind (partial_dependence_loop s
               (combine (combine (columns X) knots) (tl (n_bases_ s)))
               1 [])
            (vstack_T (nrows X))
  end.

(** The products the loop computes for the blocks of a basis matrix,
    one per block: the block times its slice of the coefficients. *)
Fixpoint block_products (blocks : list (mat F)) (total : nat)
  (b : list F) : list (list F) :=
  match blocks with
  | [] => []
  | B :: rest =>
      matvec B (slice total (total + ncols B) b)
      :: block_products rest (total + ncols B) b
  end.
End PartialDependence.

(** A model over the rationals that holds three knots for one feature,
    the widths of its blocks and four coefficients that are not all
    zero. *)
Definition dependent_model : LogisticGAM Qc :=
  set_b_ (Some (Flat [qc 1 1; qc 2 1; qc 3 1; qc 5 1])) knotted_model.
Unset Implicit Arguments.

(** ** Construction: which hyperparameters are checked *)

Lemma int_check_iff (v : pyval) (k : Z) :
  py_ge v k && type_is_int v = true <-> int_at_least k v.
Proof.
  unfold int_at_least; split.
  - destruct v; simpl; rewrite ?andb_false_r; try discriminate.
    rewrite andb_true_r; intros Hz; exists z; split; [reflexivity|].
    now apply Z.leb_le.
  - intros [z [-> Hz]]; simpl. rewrite andb_true_r. now apply Z.leb_le.
Qed.

Lemma int_check_false (v : pyval) (k : Z) :
  ~ int_at_least k v -> py_ge v k && type_is_int v = false.
Proof.
  intros Hn. destruct (py_ge v k && type_is_int v) eqn:E; [|reflexivity].
  exfalso; apply Hn; now apply int_check_iff.
Qed.

Lemma int_value_of (v : pyval) (k : Z) :
  int_at_least k v -> PyInt (int_value v) = v.
Proof. intros [z [-> _]]; reflexivity. Qed.

(** C2 (as amended).  Construction checks [n_iter], [n_knots] and
    [spline_order], and nothing else: when one of the three is not an
    int in its range the constructor raises an assertion error and no
    model exists; when the three are, the model is built with [lam],
    [tol] and [diff_order] stored as they were given, whatever their
    values. *)
Theorem init_checks_three_integers
  (F : Type) (l t : F) (ni nk so : pyval) (d : Z) :
  (int_at_least 1 ni /\ int_at_least 0 nk /\ int_at_least 1 so ->
   exists m, init l ni t nk d so = Ok m
             /\ lam m = l /\ tol m = t /\ diff_order m = d
             /\ PyInt (n_iter m) = ni /\ PyInt (n_knots m) = nk
             /\ PyInt (spline_order m) = so)
  /\ (~ (int_at_least 1 ni /\ int_at_least 0 nk /\ int_at_least 1 so) ->
      exists msg, init l ni t nk d so = Raise (AssertionError msg)).
Proof.
  split.
  - intros (Hi & Hk & Hs). unfold init.
    rewrite (proj2 (int_check_iff ni 1) Hi),
            (proj2 (int_check_iff nk 0) Hk),
            (proj2 (int_check_iff so 1) Hs). simpl.
    eexists; split; [reflexivity|]; simpl.
    rewrite (int_value_of _ _ Hi), (int_value_of _ _ Hk), (int_value_of _ _ Hs).
    repeat split.
  - intros Hn. unfold init.
    destruct (py_ge ni 1 && type_is_int ni) eqn:Ei; simpl;
      [|eexists; reflexivity].
    destruct (py_ge nk 0 && type_is_int nk) eqn:Ek; simpl;
      [|eexists; reflexivity].
    destruct (py_ge so 1 && type_is_int so) eqn:Es; simpl;
      [|eexists; reflexivity].
    exfalso; apply Hn; repeat split; now apply int_check_iff.
Qed.

Lemma init_checks_three_integers_witness :
  (exists m, init (Q2Qc (3 # 5)) (PyInt 100) (Q2Qc (1 # 100000))
                  (PyInt 20) 1 (PyInt 4) = Ok m
             /\ lam m = Q2Qc (3 # 5) /\ tol m = Q2Qc (1 # 100000)
             /\ diff_order m = 1%Z
             /\ PyInt (n_iter m) = PyInt 100 /\ PyInt (n_knots m) = PyInt 20
             /\ PyInt (spline_order m) = PyInt 4)
  /\ (exists msg, init (Q2Qc (3 # 5)) (PyFloat 2.5) (Q2Qc (1 # 100000))
                       (PyInt 20) 1 (PyInt 4) = Raise (AssertionError msg)).
Proof.
  split.
  - apply (proj1 (init_checks_three_integers Qc
                    (Q2Qc (3 # 5)) (Q2Qc (1 # 100000))
                    (PyInt 100) (PyInt 20) (PyInt 4) 1)).
    repeat split; eexists; (split; [reflexivity | lia]).
  - apply (proj2 (init_checks_three_integers Qc
                    (Q2Qc (3 # 5)) (Q2Qc (1 # 100000))
                    (PyFloat 2.5) (PyInt 20) (PyInt 4) 1)).
    intros [[z [Hz _]] _]; discriminate.
Defined.

(** C2 (as stated) fails: a negative [lam], a zero [tol] and a zero
    [diff_order] are accepted, and the model is created with them. *)
Lemma init_accepts_negative_lam :
  exists m, init (Q2Qc (-1)) (PyInt 100) (Q2Qc 0) (PyInt 20) 0 (PyInt 4)
            = Ok m
            /\ lam m = Q2Qc (-1) /\ tol m = Q2Qc 0 /\ diff_order m = 0%Z
            /\ fltb fzero (lam m) = false
            /\ fltb fzero (tol m) = false
            /\ (1 <=? diff_order m)%Z = false.
Proof. eexists; split; [reflexivity|]; repeat split. Qed.

(** ** The corrected AIC *)

(** C1 (as amended).  With the AIC and the effective degrees of freedom
    set, [estimate_AICc_] divides by [n - edof - 2] without a test of
    it.  For every denominator that is not zero, the negative ones
    included, it returns [AIC + 2(edof+1)(edof+2)/(n-edof-2)] and leaves
    the model as it was.  At a zero denominator the outcome is that of
    the division itself: ZeroDivisionError when [edof_] is a number of
    Python, the value of the formula (inf or nan in binary64, where
    numpy also issues a RuntimeWarning) when it is a float64, as a fit
    assigns it. *)
Theorem estimate_AICc_divides_unguarded
  (F : Type) (SF : Scalar F) (TF : Transcendental F)
  (X : option (mat F)) (y : list F) (proba : option (list F))
  (s : LogisticGAM F) (a : F) (e : number F) :
  aic_ s = Some a -> edof_ s = Some e ->
  (feqb (AICc_denominator (number_value e) (length y)) fzero = false ->
   estimate_AICc_ X y proba s
   = (Ok (AICc_formula a (number_value e) (length y)), s))
  /\ (feqb (AICc_denominator (number_value e) (length y)) fzero = true ->
      estimate_AICc_ X y proba s
      = match e with
        | PyNumber _ => (Raise ZeroDivisionError, s)
        | Float64 _ =>
            (Ok (AICc_formula a (number_value e) (length y)), s)
        end).
Proof.
  intros Ha He.
  assert (E : estimate_AICc_ X y proba s
              = match divide_as e
                        (fmul (fmul (of_Z 2)
                                 (fadd (number_value e) (of_Z 1)))
                              (fadd (number_value e) (of_Z 2)))
                        (AICc_denominator (number_value e) (length y))
                with
                | Ok q => (Ok (fadd a q), s)
                | Raise err => (Raise err, s)
                end).
  { unfold estimate_AICc_, bind, get, need, ret, lift.
    rewrite Ha. cbn [aic_ edof_]. rewrite Ha, He.
    unfold AICc_denominator. destruct (divide_as _ _ _); reflexivity. }
  rewrite E. unfold divide_as, AICc_formula, AICc_denominator.
  split; intros Hden; rewrite ?Hden; destruct e; rewrite ?Hden; reflexivity.
Qed.

Lemma estimate_AICc_divides_unguarded_witness :
  estimate_AICc_ None three_labels None small_sample_model
  = (Ok (AICc_formula 0%R 2%R (length three_labels)), small_sample_model).
Proof.
  apply (estimate_AICc_divides_unguarded R _ _ None three_labels None
           small_sample_model 0%R (PyNumber 2%R) eq_refl eq_refl).
  unfold AICc_denominator. cbn [number_value length feqb Scalar_R].
  unfold R_eqb. destruct (Req_dec_T _ _) as [E|_]; [|reflexivity].
  exfalso. simpl in E. lra.
Defined.

(** C1 (as stated) fails: with three samples and an effective degree of
    freedom of 2 the denominator is -1, and the call returns the plain
    number -24 like any other value.  At a zero denominator (three
    samples, an effective degree of freedom of 1) the same call raises
    the ZeroDivisionError of the division when [edof_] is a number of
    Python; in binary64, with four samples and an effective degree of
    freedom of 2, the division of a float64 gives infinity. *)
Lemma estimate_AICc_negative_denominator :
  (AICc_denominator 2%R (length three_labels) <= 0)%R
  /\ estimate_AICc_ None three_labels None small_sample_model
     = (Ok (-24)%R, small_sample_model)
  /\ estimate_AICc_ None three_labels None
       (set_edof_ (Some (PyNumber 1%R)) small_sample_model)
     = (Raise ZeroDivisionError,
        set_edof_ (Some (PyNumber 1%R)) small_sample_model)
  /\ AICc_denominator (float_of_Z 2) 4 = PrimFloat.zero
  /\ divide_as (Float64 (float_of_Z 2)) (float_of_Z 24)
       (AICc_denominator (float_of_Z 2) 4)
     = Ok PrimFloat.infinity
  /\ divide_as (PyNumber (float_of_Z 2)) (float_of_Z 24)
       (AICc_denominator (float_of_Z 2) 4)
     = Raise ZeroDivisionError
  /\ AICc_formula (float_of_Z 0) (float_of_Z 2) 4 = PrimFloat.infinity.
Proof.
  split; [|split; [|split; [|repeat split]]].
  - unfold AICc_denominator. simpl. lra.
  - unfold estimate_AICc_, bind, get, need, ret, lift. simpl.
    unfold R_eqb. destruct (Req_dec_T _ _) as [E|_]; [exfalso; lra|].
    f_equal. f_equal. field.
  - unfold estimate_AICc_, bind, get, need, ret, lift. simpl.
    unfold R_eqb. destruct (Req_dec_T _ _) as [_|E]; [reflexivity|].
    exfalso. apply E. lra.
Qed.

(** ** Prediction *)

(** C8.  [predict(X)] is [predict_proba(X) > 0.5] entry by entry: the
    two calls leave the model in the same state, raise together, and
    when they return, every label is the test [0.5 < p] of the
    probability at its place. *)
Theorem predict_thresholds_predict_proba
  (F : Type) (SF : Scalar F) (TF : Transcendental F)
  (X : mat F) (s : LogisticGAM F) :
  predict X s =
  match predict_proba X s with
  | (Ok p, s') => (Ok (map (fun v => fltb (lit (1 # 2)) v) p), s')
  | (Raise e, s') => (Raise e, s')
  end.
Proof.
  unfold predict, bind, ret.
  destruct (predict_proba X s) as [[p | e] s']; reflexivity.
Qed.

(** ** The logistic transform under real arithmetic *)

Lemma logistic_open (x : R) : (0 < logistic x < 1)%R.
Proof.
  unfold logistic; simpl.
  pose proof (exp_pos (- x)) as Hp.
  split.
  - apply Rdiv_lt_0_compat; lra.
  - apply (Rmult_lt_reg_r (1 + exp (- x))); [lra|].
    unfold Rdiv. rewrite Rmult_assoc, Rinv_l by lra. lra.
Qed.

Lemma R_eqb_false (x y : R) : x <> y -> R_eqb x y = false.
Proof. intros Hn; unfold R_eqb; destruct (Req_dec_T x y); tauto. Qed.

Lemma never_saturated (log_odds : list R) :
  saturated (proba_ log_odds) = false.
Proof.
  unfold saturated, proba_. apply orb_false_iff; split;
    induction log_odds as [|x l IH]; cbn [existsb map]; try reflexivity;
    rewrite IH, orb_false_r; apply R_eqb_false; intro Heq;
    pose proof (logistic_open x) as Hx; rewrite Heq in Hx; simpl in Hx; lra.
Qed.

Lemma bind_never {F A B} (c : M F A) (k : A -> M F B) (v : B)
  (s : LogisticGAM F) :
  (forall a s1, fst (k a s1) <> Ok v) -> fst (bind c k s) <> Ok v.
Proof.
  intros Hk. unfold bind. destruct (c s) as [[a | e] s1].
  - apply Hk.
  - simpl; discriminate.
Qed.

Lemma pirls_loop_never_saturated
  (inv : mat R -> result (mat R)) (sh : list nat -> list nat)
  (fuel : nat) (bases P X : mat R) (y : list R) (s : LogisticGAM R) :
  fst (pirls_loop inv sh fuel bases P X y s) <> Ok Saturated.
Proof.
  revert s. induction fuel as [|fuel IH]; intros s; simpl.
  - discriminate.
  - repeat (apply bind_never; intros).
    rewrite never_saturated.
    apply bind_never; intros [[[b_new inner] BW] weights] s4.
    repeat (apply bind_never; intros).
    match goal with |- context [if ?c then _ else _] => destruct c end.
    + apply bind_never; intros; simpl; discriminate.
    + apply IH.
Qed.

(** C9.  Under real arithmetic the logistic transform of any log-odds
    lies strictly between 0 and 1; the saturation test of the loop is
    therefore never true, so that [pirls_] never leaves by its
    saturation branch, and the divisor [p(1-p)] of the pseudo-data is
    never zero. *)
Theorem logistic_strictly_inside_unit_interval
  (inv : mat R -> result (mat R)) (sh : list nat -> list nat)
  (X : mat R) (y : list R) (s : LogisticGAM R) :
  (forall x : R, (0 < logistic x < 1)%R)
  /\ (forall log_odds : list R, saturated (proba_ log_odds) = false)
  /\ fst (pirls_ inv sh X y s) <> Ok Saturated
  /\ fst (fit inv sh X y s) <> Ok Saturated
  /\ (forall x : R, fmul (logistic x) (fsub fone (logistic x)) <> 0%R).
Proof.
  split; [exact logistic_open|].
  split; [exact never_saturated|].
  assert (Hp : forall s0, fst (pirls_ inv sh X y s0) <> Ok Saturated).
  { intros s0. unfold pirls_. repeat (apply bind_never; intros).
    apply pirls_loop_never_saturated. }
  split; [apply Hp|].
  split.
  - unfold fit. do 3 (apply bind_never; intros). apply Hp.
  - intros x. pose proof (logistic_open x) as Hx.
    cbn [fmul fsub fone Scalar_R].
    apply Rmult_integral_contrapositive_currified; lra.
Qed.

(** ** List lemmas *)

Lemma zipWith_length {A B C} (f : A -> B -> C) (la : list A) (lb : list B) :
  length (zipWith f la lb) = Nat.min (length la) (length lb).
Proof.
  revert lb; induction la as [|a la IH]; intros [|b lb]; simpl; auto.
Qed.

Lemma zipWith_nth {A B C} (f : A -> B -> C) (la : list A) (lb : list B)
  (i : nat) (da : A) (db : B) (dc : C) :
  i < length la -> i < length lb ->
  nth i (zipWith f la lb) dc = f (nth i la da) (nth i lb db).
Proof.
  revert lb i; induction la as [|a la IH]; intros [|b lb] [|i] Ha Hb;
    simpl in *; try lia; auto.
  apply IH; lia.
Qed.

Lemma zipWith_repeat_l {A B C} (f : A -> B -> C) (a : A) (lb : list B) :
  zipWith f (repeat a (length lb)) lb = map (f a) lb.
Proof. induction lb as [|b lb IH]; simpl; [|rewrite IH]; reflexivity. Qed.

Lemma rmap_length {A B} (f : A -> result B) (l : list A) (bs : list B) :
  rmap f l = Ok bs -> length bs = length l.
Proof.
  revert bs; induction l as [|a l IH]; intros bs; simpl.
  - intros E; injection E as <-; reflexivity.
  - destruct (f a) as [b|e]; simpl; [|discriminate].
    destruct (rmap f l) as [bs'|e]; simpl; [|discriminate].
    intros E; injection E as <-; simpl; f_equal; now apply IH.
Qed.

Lemma rmap_Forall2 {A B} (f : A -> result B) (l : list A) (bs : list B) :
  rmap f l = Ok bs -> Forall2 (fun a b => f a = Ok b) l bs.
Proof.
  revert bs; induction l as [|a l IH]; intros bs; simpl.
  - intros E; injection E as <-; constructor.
  - destruct (f a) as [b|e] eqn:Ea; simpl; [|discriminate].
    destruct (rmap f l) as [bs'|e]; simpl; [|discriminate].
    intros E; injection E as <-; constructor; auto.
Qed.

Lemma rmap_total {A B} (f : A -> result B) (l : list A) :
  (forall a, In a l -> exists b, f a = Ok b) -> exists bs, rmap f l = Ok bs.
Proof.
  induction l as [|a l IH]; intros Hf; simpl.
  - eexists; reflexivity.
  - destruct (Hf a (or_introl eq_refl)) as [b ->]; simpl.
    destruct IH as [bs ->]; [intros; apply Hf; now right|].
    eexists; reflexivity.
Qed.

(** ** The penalty *)

Section Penalty.
Context {F : Type} `{Scalar F}.

Lemma diff1_map_seq (g : nat -> F) (a k : nat) :
  diff1 (map g (seq a k)) = map (forward_difference g) (seq a (k - 1)).
Proof.
  revert a; induction k as [|k IH]; intros a; [reflexivity|].
  destruct k as [|k]; [reflexivity|].
  specialize (IH (S a)).
  replace (S (S k) - 1) with (S k) by lia.
  replace (S k - 1) with k in IH by lia.
  unfold diff1 in *.
  change (seq a (S (S k))) with (a :: seq (S a) (S k)).
  cbn [map tl]. 
  change (seq a (S k)) with (a :: seq (S a) k). cbn [map].
  destruct (map g (seq (S a) (S k))) as [|x l] eqn:El.
  - simpl in El. discriminate.
  - cbn [removelast zipWith]. 
    simpl in El. injection El as <- <-.
    unfold forward_difference at 1. f_equal.
    destruct k as [|k]; [reflexivity|].
    cbn [tl] in IH. rewrite <- IH.
    cbn [seq map]. reflexivity.
Qed.

Lemma iter_diff1 (d : nat) (r : list F) :
  Nat.iter d diff1 r
  = map (finite_difference d (fun c => nth c r fzero))
        (seq 0 (length r - d)).
Proof.
  induction d as [|d IH].
  - simpl. rewrite Nat.sub_0_r. unfold finite_difference; simpl.
    symmetry. clear. 
    assert (G : forall a l, map (fun c => nth c (a ++ l) fzero)
                              (seq (length a) (length l)) = l).
    { intros a l; revert a; induction l as [|x l IH]; intros a;
        [reflexivity|].
      simpl. rewrite app_nth2, Nat.sub_diag by lia. simpl. f_equal.
      specialize (IH (a ++ [x])).
      rewrite <- app_assoc, length_app in IH. simpl in IH.
      rewrite Nat.add_1_r in IH. exact IH. }
    exact (G [] r).
  - rewrite Nat.iter_succ, IH, diff1_map_seq.
    replace (length r - d - 1) with (length r - S d) by lia.
    reflexivity.
Qed.

Lemma finite_difference_ext (d : nat) (f g : nat -> F) :
  (forall c, f c = g c) ->
  forall j, finite_difference d f j = finite_difference d g j.
Proof.
  intros Hfg. induction d as [|d IH]; intros j; [apply Hfg|].
  unfold finite_difference in *; rewrite !Nat.iter_succ.
  unfold forward_difference at 1 3. now rewrite !IH.
Qed.

Lemma eye_row_nth (n i c : nat) :
  i < n -> nth c (eye_row n i) fzero = identity_entry i c.
Proof.
  intros Hi. unfold eye_row, identity_entry.
  destruct (Nat.lt_ge_cases c n) as [Hc|Hc].
  - rewrite (nth_indep _ fzero (if i =? 0 then fone else fzero))
      by (rewrite length_map, length_seq; exact Hc).
    rewrite (map_nth (fun j => if i =? j then fone else fzero)).
    rewrite seq_nth by exact Hc. reflexivity.
  - rewrite nth_overflow by (rewrite length_map, length_seq; exact Hc).
    destruct (Nat.eqb_spec i c); [lia|reflexivity].
Qed.

Lemma np_diff_eye (n : nat) (d : Z) :
  (0 <= d)%Z ->
  np_diff (np_eye n) d = Ok (difference_operator (Z.to_nat d) n).
Proof.
  intros Hd. unfold np_diff. 
  destruct (Z.ltb_spec d 0) as [Hl|_]; [lia|].
  unfold difference_operator, np_eye; cbn [nrows ncols rows].
  f_equal. f_equal. rewrite map_map. apply map_ext_in.
  intros i Hi. apply in_seq in Hi. rewrite iter_diff1.
  unfold eye_row at 2. rewrite length_map, length_seq.
  apply map_ext. intros j. apply finite_difference_ext.
  intros c. apply eye_row_nth. lia.
Qed.
End Penalty.

Section PenaltyAssembly.
Context {F : Type} `{Scalar F}.

Lemma proto_P_shape (s : LogisticGAM F) (n : nat) (B : mat F) :
  proto_P_ s n = Ok B -> well_shaped B /\ nrows B = n /\ ncols B = n.
Proof.
  unfold proto_P_. destruct (Nat.eqb_spec n 1) as [->|Hn].
  - intros E; injection E as <-. repeat split; simpl; auto.
  - unfold np_diff. destruct (diff_order s <? 0)%Z; simpl; [discriminate|].
    intros E; injection E as <-.
    unfold well_shaped, matmul, transpose, np_eye;
      cbn [nrows ncols rows].
    rewrite !length_map, length_seq. repeat split.
    apply Forall_forall. intros r Hr. apply in_map_iff in Hr.
    destruct Hr as [r0 [<- _]].
    unfold columns; cbn [nrows ncols rows].
    now rewrite !length_map, length_seq.
Qed.

Lemma proto_P_total (s : LogisticGAM F) (n : nat) :
  (0 <= diff_order s)%Z -> exists B, proto_P_ s n = Ok B.
Proof.
  intros Hd. unfold proto_P_. destruct (n =? 1); [eexists; reflexivity|].
  rewrite np_diff_eye by exact Hd. eexists; reflexivity.
Qed.







End PenaltyAssembly.

Section PenaltyTheorem.
Context {F : Type} `{Scalar F}.

Lemma proto_blocks_shapes (s : LogisticGAM F) (ns : list nat)
  (blocks : list (mat F)) :
  Forall2 (fun n B => proto_P_ s n = Ok B) ns blocks ->
  Forall well_shaped blocks
  /\ map (@nrows F) blocks = ns /\ map (@ncols F) blocks = ns.
Proof.
  induction 1 as [|n B ns blocks HB _ IH]; [repeat split; constructor|].
  destruct IH as (Hw & Hr & Hc).
  destruct (proto_P_shape _ _ _ HB) as (HwB & HrB & HcB).
  repeat split; simpl; [constructor; assumption| |]; congruence.
Qed.

Lemma scaled_blocks_shapes (l : F) (blocks : list (mat F)) :
  Forall well_shaped blocks ->
  Forall well_shaped (map (fun B => multiply B l) blocks)
  /\ map (@nrows F) (map (fun B => multiply B l) blocks)
     = map (@nrows F) blocks
  /\ map (@ncols F) (map (fun B => multiply B l) blocks)
     = map (@ncols F) blocks.
Proof.
  intros Hw. repeat split.
  - apply Forall_map. eapply Forall_impl; [|exact Hw].
    intros B [Hr Hc]. unfold well_shaped, multiply; cbn [nrows ncols rows].
    split; [now rewrite length_map|].
    apply Forall_map. eapply Forall_impl; [|exact Hc].
    intros r Hlen. now rewrite length_map.
  - rewrite map_map. reflexivity.
  - rewrite map_map. reflexivity.
Qed.

Lemma P_value (s : LogisticGAM F) (b : coef F) (blocks : list (mat F)) :
  n_bases_ s <> [] ->
  b_ s = Some b ->
  list_sum (n_bases_ s) = length (coef_values b) ->
  rmap (proto_P_ s) (n_bases_ s) = Ok blocks ->
  P_ s = Ok (madd (Mat (list_sum (n_bases_ s)) (list_sum (n_bases_ s))
                       (block_diag_rows
                          (map (fun B => multiply B (lam s)) blocks)
                          0 (list_sum (n_bases_ s))))
               (diags (repeat (lit (1 # 10000000))
                              (list_sum (n_bases_ s))))).
Proof.
  intros Hne Hb Hlen Hbl.
  pose proof (rmap_Forall2 _ _ _ Hbl) as H2.
  pose proof (rmap_length _ _ _ Hbl) as Hl.
  destruct (proto_blocks_shapes s _ _ H2) as (Hw & Hr & Hc).
  destruct (scaled_blocks_shapes (lam s) _ Hw) as (Hws & Hrs & Hcs).
  unfold P_. rewrite Hbl. cbn [rbind].
  unfold lambdas. rewrite <- Hl, zipWith_repeat_l.
  assert (E : block_diag (map (fun B => multiply B (lam s)) blocks)
              = Ok (Mat (list_sum (n_bases_ s)) (list_sum (n_bases_ s))
                      (block_diag_rows
                         (map (fun B => multiply B (lam s)) blocks)
                         0 (list_sum (n_bases_ s))))).
  { unfold block_diag. rewrite Hrs, Hcs, Hr, Hc.
    destruct blocks as [|B0 rest]; [|reflexivity].
    destruct (n_bases_ s); [contradiction|discriminate]. }
  rewrite E. cbn [rbind]. rewrite Hb.
  rewrite <- Hlen.
  unfold diags; cbn [nrows ncols].
  rewrite repeat_length.
  now rewrite !Nat.eqb_refl.
Qed.

Lemma P_returns (s : LogisticGAM F) (b : coef F) :
  (0 <= diff_order s)%Z -> n_bases_ s <> [] -> b_ s = Some b ->
  list_sum (n_bases_ s) = length (coef_values b) ->
  exists P, P_ s = Ok P.
Proof.
  intros Hd Hne Hb Hlen.
  destruct (rmap_total (proto_P_ s) (n_bases_ s)) as [blocks Hbl].
  { intros n _. now apply proto_P_total. }
  rewrite (P_value s b blocks Hne Hb Hlen Hbl). eexists; reflexivity.
Qed.

End PenaltyTheorem.


(** ** What a call leaves unchanged *)

Section Frames.
Context {F : Type} {T : Type} (p : LogisticGAM F -> T).

Lemma preserves_ret {A} (a : A) : preserves p (ret a).
Proof. intros s; reflexivity. Qed.

Lemma preserves_raise {A} (e : pyexc) : preserves p (@raise F A e).
Proof. intros s; reflexivity. Qed.

Lemma preserves_lift {A} (r : result A) : preserves p (lift r).
Proof. intros s; reflexivity. Qed.

Lemma preserves_get : preserves p get.
Proof. intros s; reflexivity. Qed.

Lemma preserves_need {A} (o : option A) : preserves p (need o).
Proof. intros s; destruct o; reflexivity. Qed.

Lemma preserves_modify (f : LogisticGAM F -> LogisticGAM F) :
  (forall s, p (f s) = p s) -> preserves p (modify f).
Proof. intros Hf s; apply Hf. Qed.

Lemma preserves_bind {A B} (c : M F A) (k : A -> M F B) :
  preserves p c -> (forall a, preserves p (k a)) ->
  preserves p (bind c k).
Proof.
  intros Hc Hk s. unfold bind. specialize (Hc s).
  destruct (c s) as [[a | e] s1]; simpl in *.
  - now rewrite Hk.
  - exact Hc.
Qed.
End Frames.

Lemma bind_Ok {F A B} (c : M F A) (k : A -> M F B) (s s' : LogisticGAM F)
  (b : B) :
  bind c k s = (Ok b, s') ->
  exists a s1, c s = (Ok a, s1) /\ k a s1 = (Ok b, s').
Proof.
  unfold bind. destruct (c s) as [[a | e] s1]; intros E.
  - exists a, s1; auto.
  - discriminate.
Qed.

Lemma preserves_at {F A T} (p : LogisticGAM F -> T) (c : M F A)
  (s s' : LogisticGAM F) (r : result A) :
  preserves p c -> c s = (r, s') -> p s' = p s.
Proof. intros Hp E. specialize (Hp s). now rewrite E in Hp. Qed.

Ltac frame_step :=
  first
    [ assumption
    | apply preserves_ret
    | apply preserves_raise
    | apply preserves_lift
    | apply preserves_get
    | apply preserves_need
    | apply preserves_modify; intros; reflexivity
    | match goal with
      | |- preserves _ (match ?x with _ => _ end) => destruct x
      end
    | apply preserves_bind; [|intros] ].

Ltac frame := repeat frame_step.

Section MethodFrames.
Context {F : Type} `{Scalar F} `{Transcendental F}.
Variable sparse_inv : mat F -> result (mat F).
Variable shuffle : list nat -> list nat.
Context {T : Type} (p : LogisticGAM F -> T).

(** A part of the object that [n_bases_] assignments do not touch. *)
Hypothesis p_n_bases : forall v s, p (set_n_bases_ v s) = p s.

Lemma bases_loop_preserves (pairs : list (list F * list F))
  (blocks : list (mat F)) :
  preserves p (bases_loop pairs blocks).
Proof.
  revert blocks; induction pairs as [|[x knots] rest IH]; intros blocks;
    cbn [bases_loop].
  - apply preserves_ret.
  - apply preserves_bind; [apply preserves_get|intros s0].
    apply preserves_bind; [apply preserves_lift|intros B].
    apply preserves_bind; [|intros; apply IH].
    apply preserves_modify. intros; apply p_n_bases.
Qed.

Lemma bases_preserves (X : mat F) : preserves p (bases_ X).
Proof.
  unfold bases_.
  apply preserves_bind; [apply preserves_modify; intros; apply p_n_bases|].
  intros _. apply preserves_bind; [apply preserves_get|intros s0].
  apply preserves_bind; [apply preserves_need|intros knots].
  apply preserves_bind; [apply bases_loop_preserves|intros].
  apply preserves_ret.
Qed.

Lemma predict_proba_preserves (X : mat F) : preserves p (predict_proba X).
Proof.
  unfold predict_proba, log_odds_.
  apply preserves_bind; [|intros; apply preserves_ret].
  apply preserves_bind; [apply bases_preserves|intros B].
  apply preserves_bind; [apply preserves_get|intros s0].
  apply preserves_bind; [apply preserves_need|intros c].
  apply preserves_lift.
Qed.

Lemma predict_preserves (X : mat F) : preserves p (predict X).
Proof.
  unfold predict. apply preserves_bind; [apply predict_proba_preserves|].
  intros; apply preserves_ret.
Qed.
End MethodFrames.

Section LoopFrames.
Context {F : Type} `{Scalar F} `{Transcendental F}.
Variable sparse_inv : mat F -> result (mat F).
Variable shuffle : list nat -> list nat.
Context {T : Type} (p : LogisticGAM F -> T).

(** A part of the object that the loop never assigns. *)
Hypothesis p_b : forall v s, p (set_b_ v s) = p s.
Hypothesis p_acc : forall v s, p (set_acc v s) = p s.
Hypothesis p_nll : forall v s, p (set_nll v s) = p s.
Hypothesis p_diffs : forall v s, p (set_diffs v s) = p s.
Hypothesis p_edof : forall v s, p (set_edof_ v s) = p s.
Hypothesis p_rse : forall v s, p (set_rse_ v s) = p s.
Hypothesis p_se : forall v s, p (set_se_ v s) = p s.
Hypothesis p_aic : forall v s, p (set_aic_ v s) = p s.
Hypothesis p_aicc : forall v s, p (set_aicc_ v s) = p s.

Ltac loop_frame :=
  repeat first
    [ assumption
    | apply preserves_ret
    | apply preserves_raise
    | apply preserves_lift
    | apply preserves_get
    | apply preserves_need
    | apply preserves_modify; intros;
      first [apply p_b | apply p_acc | apply p_nll | apply p_diffs
            | apply p_edof | apply p_rse | apply p_se | apply p_aic
            | apply p_aicc]
    | match goal with
      | |- preserves _ (match ?x with _ => _ end) => destruct x
      end
    | apply preserves_bind; [|intros] ].

Lemma diagnostics_preserves (X : mat F) (y proba : list F)
  (bases inner BW weights : mat F) :
  preserves p (diagnostics shuffle X y proba bases inner BW weights).
Proof.
  unfold diagnostics, estimate_rse_, estimate_se_, estimate_AIC_,
    estimate_AICc_, estimate_AIC_, loglikelihood_.
  loop_frame.
Qed.

Lemma pirls_loop_preserves (fuel : nat) (bases P X : mat F) (y : list F) :
  preserves p (pirls_loop sparse_inv shuffle fuel bases P X y).
Proof.
  induction fuel as [|fuel IH]; cbn [pirls_loop].
  - apply preserves_ret.
  - unfold log_odds_.
    pose proof diagnostics_preserves as Hd.
    loop_frame.
Qed.
End LoopFrames.

(** ** Block widths *)

Section Widths.
Context {F : Type} `{Scalar F}.

Lemma insert_sorted_length (a : F) (l : list F) :
  length (insert_sorted a l) = S (length l).
Proof.
  induction l as [|b l IH]; simpl; [reflexivity|].
  destruct (fleb a b); simpl; [reflexivity|now rewrite IH].
Qed.

Lemma np_sort_length (l : list F) : length (np_sort l) = length l.
Proof.
  induction l as [|a l IH]; simpl; [reflexivity|].
  now rewrite insert_sorted_length, IH.
Qed.

Lemma aug_knots_length (knots aug : list F) (k : nat) :
  aug_knots_of knots k = Ok aug ->
  length aug = (k - 1) + (length knots + (k - 1)).
Proof.
  unfold aug_knots_of. destruct knots as [|a knots]; [discriminate|].
  cbn [np_min np_max rbind]. intros E; injection E as <-.
  rewrite !length_app, !repeat_length.
  now rewrite insert_sorted_length, np_sort_length.
Qed.

Lemma b_spline_basis_shape (x knots : list F) (order : Z) (B : mat F) :
  b_spline_basis x knots order = Ok B ->
  nrows B = length x /\ ncols B = basis_width order knots
  /\ length (rows B) = length x.
Proof.
  unfold b_spline_basis. destruct (order <? 1)%Z; [discriminate|].
  destruct (aug_knots_of knots (Z.to_nat order)) as [aug|e] eqn:Ea;
    cbn [rbind]; [|discriminate].
  apply aug_knots_length in Ea.
  destruct (_ <? _); [discriminate|].
  destruct (_ <=? _); [discriminate|].
  intros E; injection E as <-. cbn [nrows ncols rows].
  rewrite length_map, Ea. unfold basis_width. auto.
Qed.
End Widths.

Lemma map_snd_combine {A B} (la : list A) (lb : list B) :
  map snd (combine la lb) = firstn (length la) lb.
Proof.
  revert lb; induction la as [|a la IH]; intros [|b lb]; simpl; auto.
  now rewrite IH.
Qed.

Section BasesState.
Context {F : Type} `{Scalar F}.

Lemma bases_loop_widths (pairs : list (list F * list F))
  (blocks blocks' : list (mat F)) (s s' : LogisticGAM F) :
  bases_loop pairs blocks s = (Ok blocks', s') ->
  n_bases_ s'
  = n_bases_ s ++ map (basis_width (spline_order s)) (map snd pairs).
Proof.
  revert blocks s; induction pairs as [|[x knots] rest IH];
    intros blocks s; cbn [bases_loop].
  - intros E; injection E as _ <-. simpl. now rewrite app_nil_r.
  - unfold bind at 1, get. unfold bind at 1, lift.
    destruct (b_spline_basis x knots (spline_order s)) as [B|e] eqn:EB;
      [|discriminate].
    unfold bind at 1, modify. intros E. apply IH in E.
    rewrite E. cbn [n_bases_ spline_order set_n_bases_ map snd].
    apply b_spline_basis_shape in EB. destruct EB as (_ & -> & _).
    now rewrite <- app_assoc.
Qed.

Lemma bases_widths (X B : mat F) (s s' : LogisticGAM F)
  (ks : list (list F)) :
  knots_ s = Some ks ->
  bases_ X s = (Ok B, s') ->
  n_bases_ s'
  = 1 :: map (basis_width (spline_order s)) (firstn (ncols X) ks).
Proof.
  intros Hk. unfold bases_.
  unfold bind at 1, modify. unfold bind at 1, get.
  cbn [knots_ set_n_bases_]. rewrite Hk.
  unfold bind at 1, need, ret.
  match goal with
  | |- context [bind (bases_loop ?a ?b) _ ?c] =>
      unfold bind at 1;
      destruct (bases_loop a b c) as [[blocks|e] s1] eqn:El;
      [|discriminate]
  end.
  intros E; injection E as _ <-.
  apply bases_loop_widths in El. rewrite El.
  cbn [n_bases_ spline_order set_n_bases_ app].
  rewrite map_snd_combine. unfold columns.
  now rewrite length_map, length_seq.
Qed.
End BasesState.

Section FitState.
Context {F : Type} `{Scalar F} `{Transcendental F}.
Variable sparse_inv : mat F -> result (mat F).
Variable shuffle : list nat -> list nat.

Local Open Scope gam_scope.

Lemma pirls_unfold (X : mat F) (y : list F) :
  pirls_ sparse_inv shuffle X y
  = (bases <- bases_ X ;; pirls_tail sparse_inv shuffle X y bases).
Proof. reflexivity. Qed.

Lemma pirls_tail_preserves {T} (p : LogisticGAM F -> T)
  (X : mat F) (y : list F) (bases : mat F) :
  (forall v s, p (set_b_ v s) = p s) ->
  (forall v s, p (set_acc v s) = p s) ->
  (forall v s, p (set_nll v s) = p s) ->
  (forall v s, p (set_diffs v s) = p s) ->
  (forall v s, p (set_edof_ v s) = p s) ->
  (forall v s, p (set_rse_ v s) = p s) ->
  (forall v s, p (set_se_ v s) = p s) ->
  (forall v s, p (set_aic_ v s) = p s) ->
  (forall v s, p (set_aicc_ v s) = p s) ->
  preserves p (pirls_tail sparse_inv shuffle X y bases).
Proof.
  intros Hb Ha Hn Hd He Hr Hs Hi Hc. unfold pirls_tail.
  apply preserves_bind; [apply preserves_get|intros s0].
  apply preserves_bind.
  { destruct (b_ s0); [apply preserves_ret|].
    apply preserves_modify; intros; apply Hb. }
  intros _. apply preserves_bind; [apply preserves_get|intros s1].
  apply preserves_bind; [apply preserves_lift|intros P].
  now apply pirls_loop_preserves.
Qed.

Lemma pirls_preserves {T} (p : LogisticGAM F -> T)
  (X : mat F) (y : list F) :
  (forall v s, p (set_n_bases_ v s) = p s) ->
  (forall v s, p (set_b_ v s) = p s) ->
  (forall v s, p (set_acc v s) = p s) ->
  (forall v s, p (set_nll v s) = p s) ->
  (forall v s, p (set_diffs v s) = p s) ->
  (forall v s, p (set_edof_ v s) = p s) ->
  (forall v s, p (set_rse_ v s) = p s) ->
  (forall v s, p (set_se_ v s) = p s) ->
  (forall v s, p (set_aic_ v s) = p s) ->
  (forall v s, p (set_aicc_ v s) = p s) ->
  preserves p (pirls_ sparse_inv shuffle X y).
Proof.
  intros. rewrite pirls_unfold.
  apply preserves_bind; [now apply bases_preserves|intros B].
  now apply pirls_tail_preserves.
Qed.

(** After a fit that returned, the object holds one knot sequence per
    feature column of the fitting data, and [n_bases_] lists 1 for
    the intercept followed by the width of the basis of each
    feature. *)
Lemma fit_state (X : mat F) (y : list F) (s0 s1 : LogisticGAM F)
  (e : pirls_exit) :
  fit sparse_inv shuffle X y s0 = (Ok e, s1) ->
  exists ks,
    knots_ s1 = Some ks /\ length ks = ncols X
    /\ n_bases_ s1 = 1 :: map (basis_width (spline_order s1)) ks.
Proof.
  unfold fit. unfold bind at 1, get. unfold bind at 1, lift.
  destruct (rmap _ (columns X)) as [ks|err] eqn:Ek; [|discriminate].
  unfold bind at 1, modify.
  set (sA := set_knots_ (Some ks) s0).
  rewrite pirls_unfold. intros E.
  apply bind_Ok in E. destruct E as (B & sB & EB & Et).
  exists ks.
  assert (Hlen : length ks = ncols X).
  { apply rmap_length in Ek. rewrite Ek. unfold columns.
    now rewrite length_map, length_seq. }
  pose proof (bases_widths X B sA sB ks eq_refl EB) as Hw.
  rewrite <- Hlen, firstn_all in Hw.
  assert (HkB : knots_ sB = Some ks).
  { rewrite (preserves_at (@knots_ F) _ _ _ _
               (bases_preserves (@knots_ F) (fun _ _ => eq_refl) X) EB).
    reflexivity. }
  assert (HoB : spline_order sB = spline_order sA).
  { apply (preserves_at (@spline_order F) _ _ _ _
             (bases_preserves (@spline_order F) (fun _ _ => eq_refl) X)
             EB). }
  split; [|split; [exact Hlen|]].
  - rewrite (preserves_at (@knots_ F) _ _ _ _
               (pirls_tail_preserves (@knots_ F) X y B
                  (fun _ _ => eq_refl) (fun _ _ => eq_refl)
                  (fun _ _ => eq_refl) (fun _ _ => eq_refl)
                  (fun _ _ => eq_refl) (fun _ _ => eq_refl)
                  (fun _ _ => eq_refl) (fun _ _ => eq_refl)
                  (fun _ _ => eq_refl)) Et).
    exact HkB.
  - rewrite (preserves_at (@n_bases_ F) _ _ _ _
               (pirls_tail_preserves (@n_bases_ F) X y B
                  (fun _ _ => eq_refl) (fun _ _ => eq_refl)
                  (fun _ _ => eq_refl) (fun _ _ => eq_refl)
                  (fun _ _ => eq_refl) (fun _ _ => eq_refl)
                  (fun _ _ => eq_refl) (fun _ _ => eq_refl)
                  (fun _ _ => eq_refl)) Et).
    rewrite (preserves_at (@spline_order F) _ _ _ _
               (pirls_tail_preserves (@spline_order F) X y B
                  (fun _ _ => eq_refl) (fun _ _ => eq_refl)
                  (fun _ _ => eq_refl) (fun _ _ => eq_refl)
                  (fun _ _ => eq_refl) (fun _ _ => eq_refl)
                  (fun _ _ => eq_refl) (fun _ _ => eq_refl)
                  (fun _ _ => eq_refl)) Et).
    rewrite HoB. exact Hw.
Qed.

(** C10.  A call of [predict_proba] or [predict] leaves the
    coefficients [b_] and the knots [knots_] as they were, however the
    call ends; and on a model left by a fit that returned, a call that
    returns on an [X] with as many feature columns as the fitting data
    reassigns [n_bases_] to the value it had. *)
Theorem predict_leaves_fit_state
  (Xfit X : mat F) (y : list F) (s0 s1 : LogisticGAM F) (e : pirls_exit) :
  fit sparse_inv shuffle Xfit y s0 = (Ok e, s1) ->
  (b_ (snd (predict_proba X s1)) = b_ s1
   /\ knots_ (snd (predict_proba X s1)) = knots_ s1
   /\ b_ (snd (predict X s1)) = b_ s1
   /\ knots_ (snd (predict X s1)) = knots_ s1)
  /\ (ncols X = ncols Xfit ->
      (forall pr s2, predict_proba X s1 = (Ok pr, s2) ->
                     n_bases_ s2 = n_bases_ s1)
      /\ (forall labels s2, predict X s1 = (Ok labels, s2) ->
                            n_bases_ s2 = n_bases_ s1)).
Proof.
  intros Hfit. split.
  - repeat split.
    + apply (predict_proba_preserves (@b_ F) (fun _ _ => eq_refl)).
    + apply (predict_proba_preserves (@knots_ F) (fun _ _ => eq_refl)).
    + apply (predict_preserves (@b_ F) (fun _ _ => eq_refl)).
    + apply (predict_preserves (@knots_ F) (fun _ _ => eq_refl)).
  - intros Hcols.
    destruct (fit_state _ _ _ _ _ Hfit) as (ks & Hk & Hlen & Hn).
    assert (Hpp : forall pr s2, predict_proba X s1 = (Ok pr, s2) ->
                                n_bases_ s2 = n_bases_ s1).
    { intros pr s2. unfold predict_proba, log_odds_.
      intros E. apply bind_Ok in E. destruct E as (lo & sa & E & Er).
      injection Er as _ <-.
      apply bind_Ok in E. destruct E as (B & sb & EB & E).
      apply bind_Ok in E. destruct E as (sc & sd & Eg & E).
      injection Eg as <- <-.
      apply bind_Ok in E. destruct E as (c & se & En & E).
      assert (se = sb) by (destruct (b_ sb); now inversion En). subst se.
      injection E as _ <-.
      rewrite (bases_widths X B s1 sb ks Hk EB), Hcols, <- Hlen, firstn_all.
      now rewrite Hn. }
    split; [exact Hpp|].
    intros labels s2. unfold predict, bind, ret.
    destruct (predict_proba X s1) as [[pr|err] s3] eqn:E; [|discriminate].
    intros E2; injection E2 as _ <-. now apply (Hpp pr).
Qed.
End FitState.

(** ** One iteration of the loop *)

Section LoopStep.
Context {F : Type} `{Scalar F} `{Transcendental F}.
Variable sparse_inv : mat F -> result (mat F).
Variable shuffle : list nat -> list nat.

Lemma log_odds_given (X B : mat F) (s : LogisticGAM F) :
  log_odds_ X (Some B) None s
  = (match b_ s with
     | Some b => dot_coef B b
     | None => Raise TypeError
     end, s).
Proof.
  unfold log_odds_, bind, ret, get, need, lift, raise.
  destruct (b_ s); reflexivity.
Qed.

(** The diagnostics never raise: the five fields are assigned one
    after the other, each from values already there. *)
Lemma diagnostics_runs (X : mat F) (y proba : list F)
  (bases inner BW weights : mat F) (s : LogisticGAM F) :
  exists edof rse se aic aicc,
    diagnostics shuffle X y proba bases inner BW weights s
    = (Ok tt,
       set_aicc_ (Some aicc)
         (set_aic_ (Some aic)
            (set_se_ (Some se)
               (set_rse_ (Some rse) (set_edof_ (Some edof) s))))).
Proof.
  do 5 eexists.
  unfold diagnostics, estimate_rse_, estimate_se_, estimate_AIC_,
    estimate_AICc_, loglikelihood_, bind, ret, get, need, modify.
  cbn. reflexivity.
Qed.

(** One iteration, step by step. *)
Lemma pirls_loop_step (fuel : nat) (bases P X : mat F) (y : list F)
  (s : LogisticGAM F) :
  pirls_loop sparse_inv shuffle (S fuel) bases P X y s
  = match b_ s with
    | None => (Raise TypeError, s)
    | Some b =>
        match dot_coef bases b with
        | Raise e => (Raise e, s)
        | Ok log_odds =>
            let proba := proba_ log_odds in
            match accuracy_ y proba with
            | Raise e => (Raise e, s)
            | Ok a =>
                let s2 := logged s y proba a in
                if saturated proba then (Ok Saturated, s2)
                else
                  match pirls_update sparse_inv bases P y log_odds proba
                  with
                  | Raise e => (Raise e, s2)
                  | Ok (b_new, inner, BW, weights) =>
                      match np_sub b b_new with
                      | Raise e => (Raise e, s2)
                      | Ok d =>
                          let diff := recorded_change d b_new in
                          let s3 := updated s2 diff b_new in
                          if fltb diff (tol s)
                          then
                            match diagnostics shuffle X y proba bases
                                    inner BW weights s3 with
                            | (Ok _, s4) => (Ok Converged, s4)
                            | (Raise e, s4) => (Raise e, s4)
                            end
                          else pirls_loop sparse_inv shuffle fuel
                                 bases P X y s3
                      end
                  end
            end
        end
    end.
Proof.
  cbn [pirls_loop]. unfold bind at 1. rewrite log_odds_given.
  destruct (b_ s) as [b|] eqn:Hb; [|reflexivity].
  destruct (dot_coef bases b) as [lo|e]; [|reflexivity].
  unfold bind at 1, lift.
  destruct (accuracy_ y (proba_ lo)) as [a|e]; [|reflexivity].
  unfold bind at 1, modify. unfold bind at 1.
  cbv zeta.
  destruct (saturated (proba_ lo)); [reflexivity|].
  unfold bind at 1.
  destruct (pirls_update sparse_inv bases P y lo (proba_ lo))
    as [[[[b_new inner] BW] weights]|e]; [|reflexivity].
  unfold bind at 1, get. unfold bind at 1, need.
  cbn [b_ set_nll set_acc]. rewrite Hb.
  unfold ret. unfold bind at 1.
  destruct (np_sub b b_new) as [d|e]; [|reflexivity].
  unfold bind at 1. unfold bind at 1. unfold bind at 1.
  cbn [modify fst snd]. unfold recorded_change, updated, logged.
  cbv zeta.
  match goal with
  | |- context [fltb ?x (tol ?t)] =>
      change (tol t) with (tol s); destruct (fltb x (tol s))
  end; [|reflexivity].
  unfold bind at 1.
  destruct (diagnostics _ _ _ _ _ _ _ _ _) as [[u|e] s4]; reflexivity.
Qed.
End LoopStep.

(** ** The loop as a whole *)

Section LoopSpec.
Context {F : Type} `{Scalar F} `{Transcendental F}.
Variable sparse_inv : mat F -> result (mat F).
Variable shuffle : list nat -> list nat.

Lemma diagnostics_effect (X : mat F) (y proba : list F)
  (bases inner BW weights : mat F) (s s' : LogisticGAM F)
  (r : result unit) :
  diagnostics shuffle X y proba bases inner BW weights s = (r, s') ->
  r = Ok tt /\ diagnostics_set s'
  /\ b_ s' = b_ s /\ diffs s' = diffs s /\ tol s' = tol s.
Proof.
  destruct (diagnostics_runs shuffle X y proba bases inner BW weights s)
    as (edof & rse & se & aic & aicc & E).
  rewrite E. intros E2; injection E2 as <- <-.
  unfold diagnostics_set; cbn. repeat split; discriminate.
Qed.

(** How the loop ends, from a state with coefficients [b0]: after [k]
    updates the coefficients are the [k]-th iterate and [k] relative
    changes have been logged.  On convergence the last change is the
    only one below the tolerance and all diagnostics are assigned; on
    saturation or exhaustion no change is below the tolerance and the
    diagnostics are untouched. *)
Lemma pirls_loop_exits (fuel : nat) (bases P X : mat F) (y : list F) :
  forall (s s' : LogisticGAM F) (e : pirls_exit) (b0 : coef F),
    b_ s = Some b0 ->
    pirls_loop sparse_inv shuffle fuel bases P X y s = (Ok e, s') ->
    exists k b' ds,
      k <= fuel
      /\ coef_after sparse_inv bases P y k b0 = Ok b'
      /\ changes_after sparse_inv bases P y k b0 = Ok ds
      /\ b_ s' = Some b'
      /\ diffs s' = diffs s ++ ds /\ length ds = k
      /\ tol s' = tol s
      /\ match e with
         | Converged =>
             diagnostics_set s'
             /\ exists ds0 d, ds = ds0 ++ [d]
                              /\ none_below (tol s) ds0
                              /\ fltb d (tol s) = true
         | Saturated =>
             diagnostics_of s' = diagnostics_of s
             /\ none_below (tol s) ds
             /\ exists pr, proba_at bases b' = Ok pr
                           /\ saturated pr = true
         | Exhausted =>
             diagnostics_of s' = diagnostics_of s
             /\ none_below (tol s) ds
             /\ k = fuel
         end.
Proof.
  induction fuel as [|fuel IH]; intros s s' e b0 Hb.
  - cbn [pirls_loop]. intros E; injection E as <- <-.
    exists 0, b0, []. rewrite app_nil_r.
    repeat split; auto. constructor.
  - rewrite pirls_loop_step, Hb.
    destruct (dot_coef bases b0) as [lo|err] eqn:Edot; [|discriminate].
    cbv zeta.
    destruct (accuracy_ y (proba_ lo)) as [a|err]; [|discriminate].
    destruct (saturated (proba_ lo)) eqn:Esat.
    { intros E; injection E as <- <-.
      exists 0, b0, []. rewrite app_nil_r.
      repeat split; auto using le_0_n; try constructor.
      exists (proba_ lo). unfold proba_at. rewrite Edot. auto. }
    destruct (pirls_update sparse_inv bases P y lo (proba_ lo))
      as [[[[b_new inner] BW] weights]|err] eqn:Eup; [|discriminate].
    destruct (np_sub b0 b_new) as [d|err] eqn:Esub; [|discriminate].
    assert (Hstep : coef_step sparse_inv bases P y b0 = Ok (Flat b_new)).
    { unfold coef_step. rewrite Edot. cbn [rbind]. now rewrite Eup. }
    destruct (fltb (recorded_change d b_new) (tol s)) eqn:Etol.
    + destruct (diagnostics _ _ _ _ _ _ _ _ _) as [r s4] eqn:Ed.
      apply diagnostics_effect in Ed.
      destruct Ed as (-> & Hset & Hb4 & Hd4 & Ht4).
      intros E; injection E as <- <-.
      exists 1, (Flat b_new), [recorded_change d b_new].
      split; [lia|]. split.
      { cbn [coef_after]. rewrite Hstep. reflexivity. }
      split.
      { cbn [changes_after]. rewrite Hstep. cbn [rbind coef_values].
        rewrite Esub. reflexivity. }
      split; [exact Hb4|]. split; [exact Hd4|].
      split; [reflexivity|]. split; [exact Ht4|].
      split; [exact Hset|].
      exists [], (recorded_change d b_new).
      repeat split; auto. constructor.
    + intros E.
      eapply IH in E; [|reflexivity].
      destruct E as (k & b' & ds & Hk & Hco & Hch & Hb' & Hds & Hlen & Ht
                     & He).
      cbn [diffs tol updated logged set_b_ set_diffs set_nll set_acc]
        in Hds, Ht, He.
      exists (S k), b', (recorded_change d b_new :: ds).
      split; [lia|]. split.
      { cbn [coef_after]. rewrite Hstep. exact Hco. }
      split.
      { cbn [changes_after]. rewrite Hstep. cbn [rbind coef_values].
        rewrite Esub. cbn [rbind]. rewrite Hch. reflexivity. }
      split; [exact Hb'|]. split.
      { rewrite Hds, <- app_assoc. reflexivity. }
      split; [simpl; now rewrite Hlen|]. split; [exact Ht|].
      destruct e.
      * destruct He as (Hset & ds0 & d0 & -> & Hnb & Hlt).
        split; [exact Hset|].
        exists (recorded_change d b_new :: ds0), d0.
        repeat split; auto. constructor; assumption.
      * destruct He as (Hdg & Hnb & Hpr).
        repeat split; auto. constructor; assumption.
      * destruct He as (Hdg & Hnb & ->).
        repeat split; auto. constructor; assumption.
Qed.
End LoopSpec.

Section PirlsExits.
Context {F : Type} `{Scalar F} `{Transcendental F}.
Variable sparse_inv : mat F -> result (mat F).
Variable shuffle : list nat -> list nat.

Lemma P_same_inputs (s t : LogisticGAM F) :
  n_bases_ s = n_bases_ t -> lam s = lam t ->
  diff_order s = diff_order t -> b_ s = b_ t ->
  P_ s = P_ t.
Proof.
  intros Hn Hl Hd Hb. unfold P_, lambdas, proto_P_.
  rewrite Hn, Hl, Hd, Hb. reflexivity.
Qed.

(** The call builds the bases and the penalty, starts from the
    coefficients of the model or from a column of zeros, and runs the
    loop; nothing before the loop touches the tolerance, the iteration
    budget, the logs or the diagnostics. *)
Lemma pirls_decompose
  (X : mat F) (y : list F) (s s' : LogisticGAM F) (e : pirls_exit) :
  pirls_ sparse_inv shuffle X y s = (Ok e, s') ->
  exists bases P b0 sC,
    fst (bases_ X s) = Ok bases
    /\ b0 = match b_ s with
            | Some b => b
            | None => Column (repeat fzero (ncols bases))
            end
    /\ P_ (set_b_ (Some b0) (snd (bases_ X s))) = Ok P
    /\ b_ sC = Some b0
    /\ tol sC = tol s /\ n_iter sC = n_iter s
    /\ diffs sC = diffs s /\ diagnostics_of sC = diagnostics_of s
    /\ pirls_loop sparse_inv shuffle (Z.to_nat (n_iter s)) bases P X y sC
       = (Ok e, s').
Proof.
  unfold pirls_. intros E.
  apply bind_Ok in E. destruct E as (B & sB & EB & E).
  apply bind_Ok in E. destruct E as (sB' & sB'' & Eg & E).
  injection Eg as <- <-.
  set (b0 := match b_ s with
             | Some b => b
             | None => Column (repeat fzero (ncols B))
             end).
  assert (HbB : b_ sB = b_ s).
  { exact (preserves_at (@b_ F) _ _ _ _
             (bases_preserves (@b_ F) (fun _ _ => eq_refl) X) EB). }
  assert (Hfr : forall {T} (p : LogisticGAM F -> T),
             (forall v t, p (set_n_bases_ v t) = p t) -> p sB = p s).
  { intros T p Hp.
    exact (preserves_at p _ _ _ _ (bases_preserves p Hp X) EB). }
  apply bind_Ok in E. destruct E as (u & sC & Einit & E).
  assert (HC : b_ sC = Some b0
               /\ forall {T} (p : LogisticGAM F -> T),
                    (forall v t, p (set_b_ v t) = p t) -> p sC = p sB).
  { unfold b0. rewrite <- HbB. destruct (b_ sB) as [b|] eqn:Hb.
    - injection Einit as _ <-. split; [exact Hb|reflexivity].
    - injection Einit as _ <-. split; [reflexivity|].
      intros T p Hp. apply Hp. }
  destruct HC as [HbC HfC].
  apply bind_Ok in E. destruct E as (sC' & sC'' & Eg & E).
  injection Eg as <- <-.
  apply bind_Ok in E. destruct E as (P & sD & EP & E).
  unfold lift in EP. injection EP as EP <-.
  assert (Hni : n_iter sC = n_iter s).
  { rewrite (HfC _ (@n_iter F) (fun _ _ => eq_refl)).
    apply (Hfr _ (@n_iter F)). reflexivity. }
  exists B, P, b0, sC.
  rewrite EB. cbn [fst snd].
  split; [reflexivity|]. split; [reflexivity|]. split.
  { rewrite <- EP. apply P_same_inputs; cbn [n_bases_ lam diff_order b_
                                              set_b_].
    - symmetry. apply (HfC _ (@n_bases_ F)). reflexivity.
    - symmetry. apply (HfC _ (@lam F)). reflexivity.
    - symmetry. apply (HfC _ (@diff_order F)). reflexivity.
    - symmetry. exact HbC. }
  split; [exact HbC|]. split.
  { rewrite (HfC _ (@tol F) (fun _ _ => eq_refl)).
    apply (Hfr _ (@tol F)). reflexivity. }
  split; [exact Hni|]. split.
  { rewrite (HfC _ (@diffs F) (fun _ _ => eq_refl)).
    apply (Hfr _ (@diffs F)). reflexivity. }
  split.
  { rewrite (HfC _ (@diagnostics_of F) (fun _ _ => eq_refl)).
    apply (Hfr _ (@diagnostics_of F)). reflexivity. }
  rewrite <- Hni. exact E.
Qed.

(** How [pirls_] ends.  When it returns, the loop has run [k] updates
    from the coefficients it started with (those of the model, or a
    column of zeros at a first fit); the coefficients of the model are
    the [k]-th iterate and the [k] changes of these updates were
    logged.  The diagnostics are assigned on the exit by convergence,
    where the last logged change is below the tolerance and no earlier
    one is.  On the exit by saturation or by exhaustion of the [n_iter]
    iterations no logged change is below the tolerance and the five
    diagnostics are what they were before the call: unset at a first
    fit, those of the earlier fit at a later one. *)
Lemma pirls_exit_summary
  (X : mat F) (y : list F) (s s' : LogisticGAM F) (e : pirls_exit) :
  pirls_ sparse_inv shuffle X y s = (Ok e, s') ->
  exists bases P b0 k b' ds,
    fst (bases_ X s) = Ok bases
    /\ b0 = match b_ s with
            | Some b => b
            | None => Column (repeat fzero (ncols bases))
            end
    /\ P_ (set_b_ (Some b0) (snd (bases_ X s))) = Ok P
    /\ k <= Z.to_nat (n_iter s)
    /\ coef_after sparse_inv bases P y k b0 = Ok b'
    /\ changes_after sparse_inv bases P y k b0 = Ok ds
    /\ b_ s' = Some b'
    /\ diffs s' = diffs s ++ ds /\ length ds = k
    /\ match e with
       | Converged =>
           diagnostics_set s'
           /\ exists ds0 d, ds = ds0 ++ [d]
                            /\ none_below (tol s) ds0
                            /\ fltb d (tol s) = true
       | Saturated =>
           diagnostics_of s' = diagnostics_of s
           /\ (diagnostics_unset s -> diagnostics_unset s')
           /\ none_below (tol s) ds
           /\ exists pr, proba_at bases b' = Ok pr
                         /\ saturated pr = true
       | Exhausted =>
           diagnostics_of s' = diagnostics_of s
           /\ (diagnostics_unset s -> diagnostics_unset s')
           /\ none_below (tol s) ds
           /\ k = Z.to_nat (n_iter s)
       end.
Proof.
  intros E.
  destruct (pirls_decompose X y s s' e E)
    as (bases & P & b0 & sC & HB & Hb0 & HP & HbC & Htol & Hni & Hdf & Hdg
        & Eloop).
  apply (pirls_loop_exits sparse_inv shuffle _ _ _ _ _ _ _ _ b0 HbC)
    in Eloop.
  destruct Eloop as (k & b' & ds & Hk & Hco & Hch & Hb' & Hds & Hlen & Ht
                     & He).
  exists bases, P, b0, k, b', ds.
  rewrite Hdf in Hds. rewrite Htol, Hdg in He.
  repeat (split; [assumption|]).
  destruct e.
  - exact He.
  - destruct He as (Hd1 & Hnb & Hpr). repeat split; auto.
    unfold diagnostics_unset. now rewrite Hd1.
  - destruct He as (Hd1 & Hnb & Hkk). repeat split; auto.
    unfold diagnostics_unset. now rewrite Hd1.
Qed.
End PirlsExits.

(** ** The calls return *)

Section Progress.
Context {F : Type} `{Scalar F} `{Transcendental F}.
Variable sparse_inv : mat F -> result (mat F).
Variable shuffle : list nat -> list nat.

(** The inverse exists and has as many rows as its argument. *)
Hypothesis inv_total :
  forall A, exists A', sparse_inv A = Ok A' /\ length (rows A') = nrows A.

Lemma b_spline_basis_returns (x knots : list F) (order : Z) :
  (1 <= order)%Z -> knots <> [] ->
  3 < length knots + Z.to_nat order ->
  exists B, b_spline_basis x knots order = Ok B.
Proof.
  intros Ho Hk Hw. unfold b_spline_basis.
  destruct (Z.ltb_spec order 1) as [Hlt|_]; [lia|].
  destruct (aug_knots_of knots (Z.to_nat order)) as [aug|e] eqn:Ea.
  - pose proof (aug_knots_length _ _ _ Ea) as Hlen. cbn [rbind].
    replace (length aug - 1 <? Z.to_nat order) with false
      by (symmetry; apply Nat.ltb_ge; lia).
    replace (length aug - 1 <=? Z.to_nat order) with false
      by (symmetry; apply Nat.leb_gt; lia).
    eexists; reflexivity.
  - destruct knots; [contradiction|discriminate].
Qed.

Lemma bases_loop_returns (n : nat) (pairs : list (list F * list F)) :
  forall (blocks : list (mat F)) (s : LogisticGAM F),
    (1 <= spline_order s)%Z ->
    Forall (fun pr => usable_knots (spline_order s) (snd pr)
                      /\ length (fst pr) = n) pairs ->
    Forall (fun B => length (rows B) = n) blocks ->
    exists blocks' s',
      bases_loop pairs blocks s = (Ok blocks', s')
      /\ Forall (fun B => length (rows B) = n) blocks'
      /\ list_sum (n_bases_ s') + list_sum (map (@ncols F) blocks)
         = list_sum (n_bases_ s) + list_sum (map (@ncols F) blocks').
Proof.
  induction pairs as [|[x knots] rest IH]; intros blocks s Ho Hp Hb.
  - exists blocks, s. cbn [bases_loop]. repeat split; auto.
  - inversion_clear Hp as [|? ? [[Hk Hw] Hx] Hrest].
    cbn [fst snd] in *.
    destruct (b_spline_basis_returns x knots _ Ho Hk Hw) as [B EB].
    pose proof (b_spline_basis_shape _ _ _ _ EB) as (_ & _ & HB).
    destruct (IH (blocks ++ [B])
                 (set_n_bases_ (n_bases_ s ++ [ncols B]) s))
      as (blocks' & s' & E & Hb' & Hsum).
    + exact Ho.
    + exact Hrest.
    + apply Forall_app; split; [exact Hb|]. constructor; [|constructor].
      now rewrite HB.
    + exists blocks', s'. cbn [bases_loop].
      unfold bind at 1, get. unfold bind at 1, lift. rewrite EB.
      unfold bind at 1, modify. rewrite E.
      split; [reflexivity|]. split; [exact Hb'|].
      cbn [n_bases_ set_n_bases_] in Hsum.
      rewrite map_app, !list_sum_app in Hsum. simpl in Hsum. lia.
Qed.

Lemma hstack_shape (n : nat) (others : list (mat F)) :
  forall A0 : mat F,
    length (rows A0) = n ->
    Forall (fun B => length (rows B) = n) others ->
    length (rows (hstack A0 others)) = n
    /\ ncols (hstack A0 others)
       = ncols A0 + list_sum (map (@ncols F) others)
    /\ nrows (hstack A0 others) = nrows A0.
Proof.
  unfold hstack.
  induction others as [|B rest IH]; intros A0 Hf Ho; cbn [fold_left].
  - simpl. repeat split; auto.
  - inversion_clear Ho as [|? ? HB Hrest].
    destruct (IH (hstack2 A0 B)) as (Hr & Hc & Hn).
    + unfold hstack2; cbn [rows]. rewrite zipWith_length, Hf, HB.
      apply Nat.min_id.
    + exact Hrest.
    + split; [exact Hr|]. split; [|exact Hn].
      rewrite Hc. unfold hstack2; cbn [ncols]. simpl. lia.
Qed.

Lemma columns_lengths (X : mat F) :
  Forall (fun c => length c = length (rows X)) (columns X).
Proof.
  apply Forall_forall. intros c Hc. unfold columns in Hc.
  apply in_map_iff in Hc. destruct Hc as [j [<- _]].
  unfold column. now rewrite length_map.
Qed.

Lemma bases_returns (X : mat F) (s : LogisticGAM F)
  (ks : list (list F)) :
  knots_ s = Some ks -> (1 <= spline_order s)%Z ->
  Forall (usable_knots (spline_order s)) ks ->
  length (rows X) = nrows X ->
  exists B s',
    bases_ X s = (Ok B, s')
    /\ length (rows B) = nrows X
    /\ ncols B = list_sum (n_bases_ s')
    /\ nrows B = nrows X.
Proof.
  intros Hk Ho Hu HX.
  destruct (bases_loop_returns (nrows X) (combine (columns X) ks) []
              (set_n_bases_ [1] s))
    as (blocks & s' & E & Hb & Hsum).
  - exact Ho.
  - apply Forall_forall. intros [c k] Hin. cbn [fst snd].
    split.
    + rewrite Forall_forall in Hu. apply Hu.
      eapply in_combine_r; eassumption.
    + pose proof (columns_lengths X) as Hc.
      rewrite Forall_forall in Hc. rewrite <- HX. apply Hc.
      eapply in_combine_l; eassumption.
  - constructor.
  - destruct (hstack_shape (nrows X) blocks (ones_column (nrows X)))
      as (Hr & Hc & Hn).
    + unfold ones_column; cbn [rows]. apply repeat_length.
    + exact Hb.
    + exists (hstack (ones_column (nrows X)) blocks), s'.
      unfold bases_. unfold bind at 1, modify. unfold bind at 1, get.
      cbn [knots_ set_n_bases_]. rewrite Hk.
      unfold bind at 1, need, ret. unfold bind at 1. rewrite E.
      split; [reflexivity|]. split; [exact Hr|]. split; [|exact Hn].
      rewrite Hc. cbn [n_bases_ set_n_bases_ map list_sum] in Hsum.
      unfold ones_column; cbn [ncols]. simpl in Hsum. lia.
Qed.

Lemma bases_loop_keeps_blocks (pairs : list (list F * list F)) :
  forall (blocks : list (mat F)) (s : LogisticGAM F) r s',
    bases_loop pairs blocks s = (r, s') ->
    n_bases_ s <> [] -> n_bases_ s' <> [].
Proof.
  induction pairs as [|[x knots] rest IH]; intros blocks s r s' E Hs.
  - cbn [bases_loop] in E. unfold ret in E. now injection E as _ <-.
  - cbn [bases_loop] in E. unfold bind at 1, get in E.
    unfold bind at 1, lift in E.
    destruct (b_spline_basis x knots (spline_order s)) as [B|e].
    + unfold bind at 1, modify in E.
      apply IH in E; [exact E|].
      cbn [n_bases_ set_n_bases_]. intros E0.
      apply app_eq_nil in E0. destruct E0 as [_ E0]. discriminate.
    + now injection E as _ <-.
Qed.

(** After [bases_], however it ends, [n_bases_] holds the intercept
    block at least. *)
Lemma bases_sets_blocks (X : mat F) (s : LogisticGAM F) r s' :
  bases_ X s = (r, s') -> n_bases_ s' <> [].
Proof.
  unfold bases_. unfold bind at 1, modify. unfold bind at 1, get.
  cbn [knots_ set_n_bases_].
  destruct (knots_ s) as [ks|].
  - unfold bind at 1, need, ret. unfold bind at 1.
    destruct (bases_loop _ _ _) as [[blocks|e] s1] eqn:E; intros E1;
      injection E1 as _ <-;
      apply (bases_loop_keeps_blocks _ _ _ _ _ E); discriminate.
  - unfold bind at 1, need, raise. intros E; injection E as _ <-.
    discriminate.
Qed.

Lemma pirls_loop_returns (fuel : nat) (bases P X : mat F) (y : list F) :
  length y = length (rows bases) ->
  forall (s : LogisticGAM F) (b : coef F),
    b_ s = Some b -> length (coef_values b) = ncols bases ->
    exists e s',
      pirls_loop sparse_inv shuffle fuel bases P X y s = (Ok e, s').
Proof.
  intros Hy. induction fuel as [|fuel IH]; intros s b Hb Hlen.
  - exists Exhausted, s. reflexivity.
  - rewrite pirls_loop_step, Hb. unfold dot_coef at 1.
    rewrite Hlen, Nat.eqb_refl. cbv zeta.
    set (lo := matvec bases (coef_values b)).
    assert (Hlo : length (proba_ lo) = length (rows bases)).
    { unfold proba_, lo, matvec. now rewrite !length_map. }
    unfold accuracy_ at 1. rewrite Hy, Hlo, Nat.eqb_refl.
    destruct (saturated (proba_ lo));
      [eexists; eexists; reflexivity|].
    unfold pirls_update.
    match goal with
    | |- context [sparse_inv ?A] =>
        destruct (inv_total A) as (inner & -> & Hin)
    end.
    cbn [rbind nrows madd matmul transpose] in Hin |- *.
    match goal with
    | |- context [np_sub b ?v] =>
        assert (Hnew : length v = ncols bases)
          by (unfold matvec, matmul; cbn [rows];
              rewrite !length_map; exact Hin);
        assert (Hsub : exists d, np_sub b v = Ok d)
    end.
    { unfold np_sub. destruct b as [v|v]; [eexists; reflexivity|].
      cbn [coef_values] in Hlen.
      rewrite Hlen, Hnew, Nat.eqb_refl. eexists; reflexivity. }
    destruct Hsub as [d ->].
    match goal with
    | |- context [if ?c then _ else _] => destruct c
    end.
    + match goal with
      | |- context [diagnostics shuffle ?X ?y ?p ?B ?i ?bw ?w ?st] =>
          destruct (diagnostics_runs shuffle X y p B i bw w st)
            as (? & ? & ? & ? & ? & ->)
      end.
      eexists; eexists; reflexivity.
    + eapply IH; [reflexivity|]. cbn [coef_values]. exact Hnew.
Qed.
End Progress.

Section ProgressOfFit.
Context {F : Type} `{Scalar F} `{Transcendental F}.
Variable sparse_inv : mat F -> result (mat F).
Variable shuffle : list nat -> list nat.

Hypothesis inv_total :
  forall A, exists A', sparse_inv A = Ok A' /\ length (rows A') = nrows A.

(** [pirls_] returns on a first fit: with knots on which the bases
    exist, one label per sample and a penalty order that is not
    negative, no step of the call raises. *)
Lemma pirls_returns (X : mat F) (y : list F) (s : LogisticGAM F)
  (ks : list (list F)) :
  knots_ s = Some ks -> b_ s = None ->
  (1 <= spline_order s)%Z -> Forall (usable_knots (spline_order s)) ks ->
  (0 <= diff_order s)%Z ->
  length (rows X) = nrows X -> length y = nrows X ->
  exists e s', pirls_ sparse_inv shuffle X y s = (Ok e, s').
Proof.
  intros Hk Hb Ho Hu Hd HX Hy.
  destruct (bases_returns X s ks Hk Ho Hu HX)
    as (B & sB & EB & Hr & Hc & Hn).
  assert (HbB : b_ sB = None).
  { rewrite <- Hb.
    exact (preserves_at (@b_ F) _ _ _ _
             (bases_preserves (@b_ F) (fun _ _ => eq_refl) X) EB). }
  assert (HdB : diff_order sB = diff_order s).
  { exact (preserves_at (@diff_order F) _ _ _ _
             (bases_preserves (@diff_order F) (fun _ _ => eq_refl) X)
             EB). }
  set (b0 := Column (repeat (@fzero F _) (ncols B))).
  set (sC := set_b_ (Some b0) sB).
  destruct (P_returns sC b0) as [P EP].
  - cbn [diff_order sC set_b_]. now rewrite HdB.
  - cbn [n_bases_ sC set_b_]. exact (bases_sets_blocks _ _ _ _ EB).
  - reflexivity.
  - cbn [n_bases_ sC set_b_ coef_values b0].
    now rewrite repeat_length, Hc.
  - destruct (pirls_loop_returns sparse_inv shuffle inv_total
                (Z.to_nat (n_iter sC)) B P X y) with (s := sC) (b := b0)
      as (e & s' & E).
    + now rewrite Hy, Hr.
    + reflexivity.
    + cbn [coef_values b0]. apply repeat_length.
    + exists e, s'. unfold pirls_.
      unfold bind at 1. rewrite EB.
      unfold bind at 1, get. unfold bind at 1. rewrite HbB.
      unfold modify. fold b0. fold sC.
      unfold bind at 1. unfold bind at 1, lift. rewrite EP.
      exact E.
Qed.

Lemma gen_knots_returns (data : list F) (n : Z) :
  data <> [] -> (0 <= n)%Z ->
  exists knots, gen_knots data n true = Ok knots
                /\ length knots = Z.to_nat (n + 2).
Proof.
  intros Hd Hn. unfold gen_knots.
  destruct (Z.ltb_spec (n + 2) 0) as [Hl|_]; [lia|].
  unfold np_percentile_linspace.
  destruct data as [|a data]; [contradiction|]. cbn [rbind].
  eexists; split; [reflexivity|].
  now rewrite length_map, length_seq.
Qed.

Lemma rmap_returns {A B} (f : A -> result B) (Q : B -> Prop)
  (l : list A) :
  (forall a, In a l -> exists b, f a = Ok b /\ Q b) ->
  exists bs, rmap f l = Ok bs /\ Forall Q bs.
Proof.
  induction l as [|a l IH]; intros Hf; simpl.
  - eexists; split; [reflexivity|constructor].
  - destruct (Hf a (or_introl eq_refl)) as (b & -> & Hb); simpl.
    destruct IH as (bs & -> & Hbs); [intros; apply Hf; now right|].
    eexists; split; [reflexivity|]. now constructor.
Qed.

(** [fit] returns on a fresh model: with at least one sample, one
    label per sample, [n_knots >= 0], [spline_order >= 1] with
    [n_knots + spline_order >= 2], and [diff_order >= 0]. *)
Lemma fit_returns (X : mat F) (y : list F) (s : LogisticGAM F) :
  b_ s = None ->
  (0 <= n_knots s)%Z -> (1 <= spline_order s)%Z ->
  (2 <= n_knots s + spline_order s)%Z -> (0 <= diff_order s)%Z ->
  0 < nrows X -> length (rows X) = nrows X -> length y = nrows X ->
  exists e s', fit sparse_inv shuffle X y s = (Ok e, s').
Proof.
  intros Hb Hnk Ho Hsum Hd Hpos HX Hy.
  destruct (rmap_returns
              (fun feat => gen_knots feat (n_knots s) true)
              (usable_knots (spline_order s)) (columns X))
    as (ks & Eks & Hu).
  { intros c Hc.
    pose proof (columns_lengths X) as Hl. rewrite Forall_forall in Hl.
    specialize (Hl c Hc).
    destruct (gen_knots_returns c (n_knots s)) as (knots & E & Hlen).
    - intros ->. simpl in Hl. lia.
    - exact Hnk.
    - exists knots. split; [exact E|]. unfold usable_knots. split.
      + intros ->. simpl in Hlen. lia.
      + rewrite Hlen. lia. }
  destruct (pirls_returns X y (set_knots_ (Some ks) s) ks)
    as (e & s' & E); auto.
  exists e, s'. unfold fit.
  unfold bind at 1, get. unfold bind at 1, lift. rewrite Eks.
  unfold bind at 1, modify. exact E.
Qed.
End ProgressOfFit.

(** ** The examples run *)

Lemma some_inverse_total (A : mat R) :
  exists A', some_inverse A = Ok A' /\ length (rows A') = nrows A.
Proof.
  eexists; split; [reflexivity|].
  unfold np_eye; cbn [rows]. now rewrite length_map, length_seq.
Qed.

Lemma fresh_fit_returns :
  exists e s1,
    fit some_inverse no_shuffle two_samples two_labels fresh_model
    = (Ok e, s1).
Proof.
  apply (fit_returns some_inverse no_shuffle some_inverse_total);
    simpl; try reflexivity; lia.
Qed.

Lemma fresh_pirls_returns :
  exists e s1,
    pirls_ some_inverse no_shuffle two_samples two_labels
      fresh_model_with_knots = (Ok e, s1).
Proof.
  apply (pirls_returns some_inverse no_shuffle some_inverse_total
           two_samples two_labels fresh_model_with_knots
           [[0%R; (1 / 2)%R; 1%R]]); simpl; try reflexivity; try lia.
  constructor; [|constructor]. split; [discriminate|simpl; lia].
Qed.

Lemma predict_leaves_fit_state_witness :
  exists e s1,
    fit some_inverse no_shuffle two_samples two_labels fresh_model
    = (Ok e, s1)
    /\ b_ (snd (predict_proba two_samples s1)) = b_ s1
    /\ knots_ (snd (predict two_samples s1)) = knots_ s1
    /\ forall pr s2, predict_proba two_samples s1 = (Ok pr, s2) ->
                     n_bases_ s2 = n_bases_ s1.
Proof.
  destruct fresh_fit_returns as (e & s1 & E).
  exists e, s1. split; [exact E|].
  destruct (predict_leaves_fit_state some_inverse no_shuffle
              two_samples two_samples two_labels fresh_model s1 e E)
    as ((Hb & _ & _ & Hk) & Hn).
  split; [exact Hb|]. split; [exact Hk|].
  exact (proj1 (Hn eq_refl)).
Defined.

(** ** The first relative change of a fresh fit *)

Lemma fold_left_Rplus (l : list R) (a : R) :
  fold_left Rplus l a = (a + fold_left Rplus l 0)%R.
Proof.
  revert a; induction l as [|x l IH]; intros a; simpl.
  - lra.
  - rewrite (IH (a + x)%R), (IH (0 + x)%R). lra.
Qed.

Lemma vsum_R_cons (x : R) (l : list R) : vsum (x :: l) = (x + vsum l)%R.
Proof.
  unfold vsum; simpl. rewrite fold_left_Rplus.
  replace (0 + x)%R with x by lra. reflexivity.
Qed.

Lemma vsum_R_app (l1 l2 : list R) :
  vsum (l1 ++ l2) = (vsum l1 + vsum l2)%R.
Proof.
  induction l1 as [|x l1 IH]; simpl.
  - unfold vsum at 2; simpl. lra.
  - rewrite !vsum_R_cons, IH. lra.
Qed.

Lemma sum_of_squares_nonneg (v : list R) : (0 <= sum_of_squares v)%R.
Proof.
  unfold sum_of_squares. induction v as [|x v IH]; cbn [map].
  - unfold vsum; simpl. lra.
  - rewrite vsum_R_cons. pose proof (Rle_0_sqr x) as Hx.
    unfold Rsqr in Hx. change (fmul x x) with (x * x)%R. lra.
Qed.

Lemma sum_of_squares_negated (v : list R) :
  sum_of_squares (map (fun nj => fsub fzero nj) v) = sum_of_squares v.
Proof.
  unfold sum_of_squares. induction v as [|x v IH]; [reflexivity|].
  cbn [map]. rewrite !vsum_R_cons, IH. cbn [fmul fsub fzero Scalar_R]. lra.
Qed.

(** A column of [m] zeros minus a 1-D array: the [m] by [k] array that
    numpy broadcasts to holds the negated array [m] times over. *)
Lemma sum_of_squares_broadcast (m : nat) (b_new : list R) :
  sum_of_squares
    (concat (map (fun bi => map (fun nj => fsub bi nj) b_new)
                 (repeat fzero m)))
  = (INR m * sum_of_squares b_new)%R.
Proof.
  induction m as [|m IH].
  - simpl. unfold sum_of_squares, vsum; simpl. lra.
  - rewrite S_INR. cbn [repeat map concat].
    unfold sum_of_squares in *. rewrite map_app, vsum_R_app, IH.
    pose proof (sum_of_squares_negated b_new) as Hn.
    unfold sum_of_squares in Hn. rewrite Hn. lra.
Qed.

Lemma recorded_change_of_zero_column (m : nat) (b_new : list R) :
  exists d,
    np_sub (Column (repeat fzero m)) b_new = Ok d
    /\ recorded_change d b_new
       = (sqrt (INR m)
          * (np_linalg_norm (Arr1 b_new) / np_linalg_norm (Arr1 b_new)))%R.
Proof.
  eexists; split; [reflexivity|].
  unfold recorded_change, np_linalg_norm.
  change (vsum (map (fun e => fmul e e)
            (concat (map (fun bi => map (fun nj => fsub bi nj) b_new)
                         (repeat fzero m)))))
    with (sum_of_squares
            (concat (map (fun bi => map (fun nj => fsub bi nj) b_new)
                         (repeat fzero m)))).
  rewrite sum_of_squares_broadcast.
  change (vsum (map (fun e => fmul e e) b_new)) with (sum_of_squares b_new).
  cbn [fsqrt fdiv Transcendental_R Scalar_R].
  rewrite sqrt_mult by (auto using pos_INR, sum_of_squares_nonneg).
  unfold Rdiv. ring.
Qed.

Lemma coef_step_flat {F} `{Scalar F} `{Transcendental F}
  (inv : mat F -> result (mat F)) (bases P : mat F) (y : list F)
  (b c : coef F) :
  coef_step inv bases P y b = Ok c -> c = Flat (coef_values c).
Proof.
  unfold coef_step. destruct (dot_coef bases b); cbn [rbind]; [|discriminate].
  destruct (pirls_update _ _ _ _ _ _); cbn [rbind]; [|discriminate].
  intros E; injection E as <-. reflexivity.
Qed.

(** C6, the first iteration of a first fit.  The coefficients start as
    the column [np.zeros((m, 1))] and the new ones are 1-D, so their
    difference is the [m] by [m] array numpy broadcasts to, and the
    change that is logged is the root of [m] times the relative change
    of the coefficients. *)
Theorem fresh_fit_logs_scaled_change
  (inv : mat R -> result (mat R)) (sh : list nat -> list nat)
  (X : mat R) (y : list R) (s s' : LogisticGAM R) (e : pirls_exit) :
  b_ s = None -> (1 <= n_iter s)%Z ->
  pirls_ inv sh X y s = (Ok e, s') ->
  exists bases P b1 rest,
    fst (bases_ X s) = Ok bases
    /\ coef_step inv bases P y (Column (repeat 0%R (ncols bases)))
       = Ok (Flat b1)
    /\ diffs s'
       = diffs s
         ++ (sqrt (INR (ncols bases))
             * (np_linalg_norm (Arr1 b1) / np_linalg_norm (Arr1 b1)))%R
            :: rest.
Proof.
  intros Hb Hn E.
  destruct (pirls_decompose inv sh X y s s' e E)
    as (bases & P & b0 & sC & HB & Hb0 & HP & HbC & Htol & Hni & Hdf & Hdg
        & Eloop).
  apply (pirls_loop_exits inv sh _ _ _ _ _ _ _ _ b0 HbC) in Eloop.
  destruct Eloop as (k & b' & ds & Hk & Hco & Hch & Hb' & Hds & Hlen & Ht
                     & He).
  rewrite Hdf in Hds.
  rewrite Hb in Hb0. subst b0.
  assert (Hk1 : 1 <= k).
  { destruct e.
    - destruct He as (_ & ds0 & d & -> & _). rewrite length_app in Hlen.
      simpl in Hlen. lia.
    - destruct He as (_ & _ & pr & Hpr & Hsat).
      unfold proba_at in Hpr. destruct (dot_coef bases b'); [|discriminate].
      injection Hpr as <-. rewrite never_saturated in Hsat. discriminate.
    - destruct He as (_ & _ & ->). lia. }
  destruct k as [|k]; [lia|].
  cbn [changes_after] in Hch.
  destruct (coef_step inv bases P y (Column (repeat fzero (ncols bases))))
    as [c|err] eqn:Ec; [|discriminate].
  pose proof (coef_step_flat _ _ _ _ _ _ Ec) as Hc.
  cbn [rbind] in Hch.
  destruct (recorded_change_of_zero_column (ncols bases) (coef_values c))
    as (d & Hd & Hval).
  rewrite Hd in Hch. cbn [rbind] in Hch.
  destruct (changes_after inv bases P y k c) as [rest|err];
    [|discriminate].
  cbn [rbind] in Hch.
  assert (Hds' : ds = recorded_change d (coef_values c) :: rest)
    by congruence.
  exists bases, P, (coef_values c), rest.
  split; [exact HB|]. split; [rewrite <- Hc; exact Ec|].
  rewrite Hds, Hds', Hval. reflexivity.
Qed.

Lemma fresh_fit_logs_scaled_change_witness :
  exists e s',
    pirls_ some_inverse no_shuffle two_samples two_labels
      fresh_model_with_knots = (Ok e, s')
    /\ exists bases P b1 rest,
         fst (bases_ two_samples fresh_model_with_knots) = Ok bases
         /\ coef_step some_inverse bases P two_labels
              (Column (repeat 0%R (ncols bases))) = Ok (Flat b1)
         /\ diffs s'
            = (sqrt (INR (ncols bases))
               * (np_linalg_norm (Arr1 b1) / np_linalg_norm (Arr1 b1)))%R
              :: rest.
Proof.
  destruct fresh_pirls_returns as (e & s' & E).
  exists e, s'. split; [exact E|].
  apply (fresh_fit_logs_scaled_change some_inverse no_shuffle
           two_samples two_labels fresh_model_with_knots s' e);
    [reflexivity | simpl; lia | exact E].
Defined.

(** With new coefficients [3, 4] after a column of two zeros, the change
    that is logged is the root of 2, where the relative change of the
    coefficients is 1. *)
Lemma logged_change_of_3_4 :
  exists d,
    np_sub (Column [0%R; 0%R]) [3%R; 4%R] = Ok d
    /\ recorded_change d [3%R; 4%R] = sqrt 2
    /\ exists d1,
         np_sub (Flat [0%R; 0%R]) [3%R; 4%R] = Ok d1
         /\ recorded_change d1 [3%R; 4%R] = 1%R.
Proof.
  assert (H25 : sqrt 25 = 5%R).
  { replace 25%R with (5 * 5)%R by lra. apply sqrt_square; lra. }
  destruct (recorded_change_of_zero_column 2 [3%R; 4%R]) as (d & Hd & Hv).
  exists d. split; [exact Hd|]. split.
  - rewrite Hv. unfold np_linalg_norm, vsum. simpl.
    replace (0 + 3 * 3 + 4 * 4)%R with 25%R by lra.
    rewrite H25. replace (1 + 1)%R with 2%R by lra. field.
  - eexists; split; [reflexivity|].
    unfold recorded_change, np_linalg_norm, vsum. simpl.
    replace (0 + (0 - 3) * (0 - 3) + (0 - 4) * (0 - 4))%R with 25%R by lra.
    replace (0 + 3 * 3 + 4 * 4)%R with 25%R by lra.
    rewrite H25. field.
Qed.

(** ** A first fit that misses its convergence *)

Section MissedConvergence.
Local Open Scope R_scope.

Lemma R_ltb_true (x y : R) : R_ltb x y = true -> x < y.
Proof. unfold R_ltb. destruct (Rlt_dec x y); [auto|discriminate]. Qed.

Lemma zipWith_minus_zeros (v : list R) :
  sum_of_squares (zipWith Rminus (repeat 0 (length v)) v) = sum_of_squares v.
Proof.
  unfold sum_of_squares. induction v as [|x v IH]; [reflexivity|].
  cbn [length repeat zipWith map]. rewrite !vsum_R_cons, IH.
  cbn [fmul Scalar_R]. lra.
Qed.

Lemma relative_change_from_zeros (v : list R) :
  sum_of_squares v <> 0 -> relative_change (repeat 0 (length v)) v = 1.
Proof.
  intros Hv. unfold relative_change. rewrite zipWith_minus_zeros.
  apply Rinv_r. intros H0. apply sqrt_eq_0 in H0; [contradiction|].
  apply sum_of_squares_nonneg.
Qed.

(** C5, where the code departs from it.  On the first iteration of a
    first fit the number the loop compares with [tol] is the change it
    logs, the root of [m] times the relative change of the coefficients
    ([m] the number of columns of the basis matrix).  With [n_iter = 1],
    new coefficients that are not all zero and a tolerance above 1 and
    at most the root of [m], the relative change of the coefficients is
    1, below the tolerance; yet the call exits by exhaustion and the
    diagnostics are what they were before the call, unset on a new
    model, where the claim has the loop converge and compute them. *)
Theorem fresh_fit_misses_convergence
  (inv : mat R -> result (mat R)) (sh : list nat -> list nat)
  (X : mat R) (y : list R) (s s' : LogisticGAM R) (e : pirls_exit)
  (bases : mat R) (b1 : list R) :
  b_ s = None -> n_iter s = 1%Z ->
  pirls_ inv sh X y s = (Ok e, s') ->
  fst (bases_ X s) = Ok bases ->
  b_ s' = Some (Flat b1) -> sum_of_squares b1 <> 0 ->
  1 < tol s <= sqrt (INR (ncols bases)) ->
  relative_change (repeat 0 (length b1)) b1 = 1
  /\ relative_change (repeat 0 (length b1)) b1 < tol s
  /\ diffs s' = diffs s ++ [sqrt (INR (ncols bases))]
  /\ e = Exhausted
  /\ diagnostics_of s' = diagnostics_of s.
Proof.
  intros Hb Hn E HB Hb1 Hnz [Htl Hth].
  pose proof (relative_change_from_zeros b1 Hnz) as Hrel.
  split; [exact Hrel|]. split; [rewrite Hrel; exact Htl|].
  destruct (pirls_decompose inv sh X y s s' e E)
    as (bases0 & P & b0 & sC & HB0 & Hb0 & HP & HbC & Htol & Hni & Hdf & Hdg
        & Eloop).
  rewrite HB in HB0. injection HB0 as <-.
  apply (pirls_loop_exits inv sh _ _ _ _ _ _ _ _ b0 HbC) in Eloop.
  destruct Eloop as (k & b' & ds & Hk & Hco & Hch & Hb' & Hds & Hlen & Ht
                     & He).
  rewrite Hdf in Hds. rewrite Hb in Hb0. subst b0.
  rewrite Hn in Hk. change (Z.to_nat 1) with 1%nat in Hk.
  rewrite Hb1 in Hb'. injection Hb' as <-.
  destruct k as [|k].
  { cbn [coef_after] in Hco. discriminate. }
  assert (k = 0%nat) by lia. subst k.
  cbn [coef_after changes_after] in Hco, Hch.
  destruct (coef_step inv bases P y (Column (repeat fzero (ncols bases))))
    as [c|err] eqn:Ec; [|discriminate].
  cbn [rbind] in Hco, Hch. injection Hco as ->.
  destruct (recorded_change_of_zero_column (ncols bases) b1)
    as (d & Hd & Hval).
  cbn [coef_values] in Hch. rewrite Hd in Hch. cbn [rbind] in Hch.
  assert (Hone : np_linalg_norm (Arr1 b1) / np_linalg_norm (Arr1 b1) = 1).
  { apply Rinv_r. unfold np_linalg_norm.
    change (vsum (map (fun e => fmul e e) b1)) with (sum_of_squares b1).
    cbn [fsqrt Transcendental_R]. intros H0.
    apply sqrt_eq_0 in H0; [contradiction|apply sum_of_squares_nonneg]. }
  rewrite Hone, Rmult_1_r in Hval.
  assert (Hds' : ds = [sqrt (INR (ncols bases))]).
  { rewrite <- Hval. congruence. }
  subst ds.
  split; [exact Hds|].
  rewrite Htol, Hdg in He.
  destruct e.
  - exfalso. destruct He as (_ & ds0 & d0 & Hsplit & _ & Hlt).
    destruct ds0 as [|x [|x' ds0]]; try discriminate.
    injection Hsplit as <-.
    apply R_ltb_true in Hlt. lra.
  - exfalso. destruct He as (_ & _ & pr & Hpr & Hsat).
    unfold proba_at in Hpr. destruct (dot_coef bases (Flat b1)); [|discriminate].
    injection Hpr as <-. rewrite never_saturated in Hsat. discriminate.
  - split; [reflexivity|]. destruct He as (Hd1 & _). exact Hd1.
Qed.

Lemma vdot_zeros (r : list R) (k : nat) : vdot r (repeat 0 k) = 0.
Proof.
  unfold vdot. revert k. induction r as [|x r IH]; intros k.
  - destruct k; reflexivity.
  - destruct k as [|k]; [reflexivity|].
    cbn [repeat zipWith]. rewrite vsum_R_cons, IH.
    cbn [fmul Scalar_R]. lra.
Qed.

(** The run of the example: two samples with the labels [1, 1], the
    stand-in inverse, one iteration and a tolerance of 3/2.  The basis
    matrix has three columns, the first one of ones. *)
Lemma hasty_bases :
  exists r1 r2 sB,
    bases_ two_samples hasty_model
    = (Ok (Mat 2 3 [1 :: r1; 1 :: r2]), sB).
Proof.
  destruct (b_spline_basis_returns [0; 1] [0; 1] 2) as [B EB];
    [lia | discriminate | simpl; lia |].
  destruct (b_spline_basis_shape _ _ _ _ EB) as (Hn & Hc & Hr).
  destruct B as [n c rs]. cbn [nrows ncols rows] in *.
  destruct rs as [|r1 [|r2 [|r3 rs]]]; try discriminate.
  exists r1, r2. eexists.
  unfold bases_. unfold bind at 1, modify. unfold bind at 1, get.
  unfold bind at 1, need, ret. cbn [knots_ set_n_bases_ hasty_model].
  unfold bind at 1.
  change (columns two_samples) with [[0; 1]].
  cbn [combine bases_loop].
  unfold bind at 1, get. unfold bind at 1, lift.
  change (spline_order (set_n_bases_ [1%nat] hasty_model)) with 2%Z.
  rewrite EB.
  unfold bind at 1, modify. unfold ret.
  cbn [app hstack fold_left hstack2 ones_column nrows ncols rows repeat
       zipWith].
  rewrite Hc. reflexivity.
Qed.

Lemma sum_of_squares_head (x : R) (v : list R) :
  x <> 0 -> sum_of_squares (x :: v) <> 0.
Proof.
  intros Hx. pose proof (sum_of_squares_nonneg v) as Hv.
  pose proof (Rsqr_pos_lt x Hx) as Hpos. unfold Rsqr in Hpos.
  unfold sum_of_squares in *. cbn [map]. rewrite vsum_R_cons.
  change (fmul x x) with (x * x). lra.
Qed.

Lemma hasty_first_update (r1 r2 : list R) (P : mat R) :
  exists b1,
    coef_step some_inverse (Mat 2 3 [1 :: r1; 1 :: r2]) P two_ones
      (Column (repeat 0 3)) = Ok (Flat b1)
    /\ sum_of_squares b1 <> 0.
Proof.
  unfold coef_step, dot_coef. cbn [ncols coef_values length repeat Nat.eqb].
  change [0; 0; 0] with (repeat 0 3).
  unfold matvec. cbn [rows map]. rewrite !vdot_zeros.
  cbn [rbind proba_ map].
  pose proof (logistic_open 0) as Hp. revert Hp.
  generalize (logistic 0). intros p Hp.
  unfold pirls_update, some_inverse. cbn [rbind fst].
  eexists. split; [reflexivity|].
  cbn [matvec matmul np_eye eye_row madd transpose columns column weights_
       working_weights diags diag_row nrows ncols rows map seq length].
  apply sum_of_squares_head.
  cbv [pseudo_data_ two_ones zipWith3 Nat.eqb nth vdot vsum zipWith
       fold_left fadd fmul fsub fdiv fzero fone Scalar_R].
  intros H0.
  assert (Hw : p * (1 - p) <> 0) by nra.
  apply (Rmult_eq_compat_r (p * (1 - p))) in H0.
  field_simplify in H0; [|split; lra]. nra.
Qed.

Lemma single_iteration_coefficients
  (inv : mat R -> result (mat R)) (sh : list nat -> list nat)
  (X : mat R) (y : list R) (s s' : LogisticGAM R) (e : pirls_exit)
  (bases : mat R) :
  b_ s = None -> n_iter s = 1%Z ->
  pirls_ inv sh X y s = (Ok e, s') ->
  fst (bases_ X s) = Ok bases ->
  exists P b1,
    coef_step inv bases P y (Column (repeat 0 (ncols bases))) = Ok (Flat b1)
    /\ b_ s' = Some (Flat b1).
Proof.
  intros Hb Hn E HB.
  destruct (pirls_decompose inv sh X y s s' e E)
    as (bases0 & P & b0 & sC & HB0 & Hb0 & HP & HbC & Htol & Hni & Hdf & Hdg
        & Eloop).
  rewrite HB in HB0. injection HB0 as <-.
  apply (pirls_loop_exits inv sh _ _ _ _ _ _ _ _ b0 HbC) in Eloop.
  destruct Eloop as (k & b' & ds & Hk & Hco & Hch & Hb' & Hds & Hlen & Ht
                     & He).
  rewrite Hb in Hb0. subst b0.
  rewrite Hn in Hk, He. change (Z.to_nat 1) with 1%nat in Hk, He.
  assert (Hk1 : k = 1%nat).
  { destruct e.
    - destruct He as (_ & ds0 & d & -> & _). rewrite length_app in Hlen.
      simpl in Hlen. lia.
    - destruct He as (_ & _ & pr & Hpr & Hsat).
      unfold proba_at in Hpr. destruct (dot_coef bases b'); [|discriminate].
      injection Hpr as <-. rewrite never_saturated in Hsat. discriminate.
    - destruct He as (_ & _ & ->). reflexivity. }
  rewrite Hk1 in Hco. cbn [coef_after] in Hco.
  destruct (coef_step inv bases P y (Column (repeat fzero (ncols bases))))
    as [c|err] eqn:Ec; cbn [rbind] in Hco; [|discriminate].
  injection Hco as <-.
  pose proof (coef_step_flat _ _ _ _ _ _ Ec) as Hc.
  exists P, (coef_values c). rewrite <- Hc. split; [exact Ec|exact Hb'].
Qed.

Lemma fresh_fit_misses_convergence_witness :
  exists s' bases b1,
    pirls_ some_inverse no_shuffle two_samples two_ones hasty_model
    = (Ok Exhausted, s')
    /\ fst (bases_ two_samples hasty_model) = Ok bases
    /\ b_ s' = Some (Flat b1)
    /\ relative_change (repeat 0 (length b1)) b1 = 1
    /\ relative_change (repeat 0 (length b1)) b1 < tol hasty_model
    /\ diffs s' = [sqrt (INR (ncols bases))]
    /\ ncols bases = 3%nat
    /\ diagnostics_unset s'.
Proof.
  destruct (pirls_returns some_inverse no_shuffle some_inverse_total
              two_samples two_ones hasty_model [[0; 1]])
    as (e & s' & E); try reflexivity; try (simpl; lia).
  { constructor; [|constructor]. split; [discriminate|simpl; lia]. }
  destruct hasty_bases as (r1 & r2 & sB & EB).
  assert (HB : fst (bases_ two_samples hasty_model)
               = Ok (Mat 2 3 [1 :: r1; 1 :: r2])) by (now rewrite EB).
  destruct (single_iteration_coefficients some_inverse no_shuffle
              two_samples two_ones hasty_model s' e _
              eq_refl eq_refl E HB) as (P & b1 & Hstep & Hb1).
  destruct (hasty_first_update r1 r2 P) as (b1' & Hstep' & Hnz).
  cbn [ncols] in Hstep. rewrite Hstep in Hstep'. injection Hstep' as <-.
  assert (Htol : 1 < tol hasty_model <= sqrt (INR 3)).
  { cbn [tol hasty_model]. split; [lra|].
    replace (3 / 2) with (sqrt ((3 / 2) * (3 / 2)))
      by (rewrite sqrt_square; lra).
    apply sqrt_le_1_alt. simpl. lra. }
  destruct (fresh_fit_misses_convergence some_inverse no_shuffle
              two_samples two_ones hasty_model s' e
              (Mat 2 3 [1 :: r1; 1 :: r2]) b1
              eq_refl eq_refl E HB Hb1 Hnz Htol)
    as (Hrel & Hlt & Hdiffs & He & Hdiag).
  subst e.
  exists s', (Mat 2 3 [1 :: r1; 1 :: r2]), b1.
  repeat (split; [assumption|]).
  split; [reflexivity|].
  unfold diagnostics_unset. rewrite Hdiag. reflexivity.
Defined.
End MissedConvergence.

(** ** Rational arithmetic *)

Lemma Qc_leb_iff (x y : Qc) : Qc_leb x y = true <-> (x <= y)%Qc.
Proof.
  unfold Qc_leb. rewrite Qcle_alt.
  destruct (x ?= y)%Qc; split; intros; congruence.
Qed.

Lemma Qc_ltb_iff (x y : Qc) : Qc_ltb x y = true <-> (x < y)%Qc.
Proof.
  unfold Qc_ltb. rewrite Qclt_alt.
  destruct (x ?= y)%Qc; split; intros; congruence.
Qed.

Lemma Qc_eqb_iff (x y : Qc) : Qc_eq_bool x y = true <-> x = y.
Proof.
  split; [apply Qc_eq_bool_correct|].
  intros ->. unfold Qc_eq_bool. destruct (Qc_eq_dec y y); congruence.
Qed.

Lemma Qc_leb_false (x y : Qc) : Qc_leb x y = false <-> (y < x)%Qc.
Proof.
  split.
  - intros Hf. destruct (Qclt_le_dec y x) as [Hl|Hl]; [exact Hl|].
    apply Qc_leb_iff in Hl. congruence.
  - intros Hl. destruct (Qc_leb x y) eqn:E; [|reflexivity].
    apply Qc_leb_iff in E. exfalso. now apply (Qclt_not_le y x).
Qed.

Lemma Qc_ltb_false (x y : Qc) : Qc_ltb x y = false <-> (y <= x)%Qc.
Proof.
  split.
  - intros Hf. destruct (Qclt_le_dec x y) as [Hl|Hl]; [|exact Hl].
    apply Qc_ltb_iff in Hl. congruence.
  - intros Hl. destruct (Qc_ltb x y) eqn:E; [|reflexivity].
    apply Qc_ltb_iff in E. exfalso. now apply (Qcle_not_lt y x).
Qed.

(** ** Sorted knots *)

Lemma strongly_sorted_nth (l : list Qc) :
  StronglySorted Qcle l ->
  forall i j, i <= j -> j < length l ->
              (nth i l 0%Qc <= nth j l 0%Qc)%Qc.
Proof.
  induction 1 as [|a l Hs IH Ha]; intros i j Hij Hj; [simpl in Hj; lia|].
  destruct i as [|i], j as [|j]; simpl in *; try lia.
  - apply Qcle_refl.
  - rewrite Forall_forall in Ha. apply Ha. apply nth_In. lia.
  - apply IH; lia.
Qed.

Lemma strongly_sorted_app (l1 l2 : list Qc) :
  StronglySorted Qcle l1 -> StronglySorted Qcle l2 ->
  (forall a b, In a l1 -> In b l2 -> (a <= b)%Qc) ->
  StronglySorted Qcle (l1 ++ l2).
Proof.
  induction 1 as [|a l1 Hs IH Ha]; intros H2 Hc; simpl; [exact H2|].
  constructor.
  - apply IH; [exact H2|]. intros; apply Hc; [now right|assumption].
  - apply Forall_app; split; [exact Ha|].
    apply Forall_forall. intros b Hb. apply Hc; [now left|exact Hb].
Qed.

Lemma strongly_sorted_repeat (a : Qc) (n : nat) :
  StronglySorted Qcle (repeat a n).
Proof.
  induction n as [|n IH]; simpl; constructor; [exact IH|].
  apply Forall_forall. intros b Hb. apply repeat_spec in Hb. subst.
  apply Qcle_refl.
Qed.

Lemma sorted_strongly (l : list Qc) :
  Sorted Qcle l -> StronglySorted Qcle l.
Proof.
  apply Sorted_StronglySorted. intros x y z. apply Qcle_trans.
Qed.

Lemma np_sort_sorted (l : list Qc) : Sorted Qcle l -> np_sort l = l.
Proof.
  induction 1 as [|a l Hs IH Ha]; [reflexivity|].
  simpl. rewrite IH. destruct Ha as [|b l Hab]; [reflexivity|].
  simpl. apply Qc_leb_iff in Hab. unfold fleb; simpl.
  now rewrite Hab.
Qed.

Lemma last_nth {A} (l : list A) (d : A) :
  last l d = nth (length l - 1) l d.
Proof.
  induction l as [|a l IH]; [reflexivity|].
  destruct l as [|b l]; [reflexivity|].
  change (last (a :: b :: l) d) with (last (b :: l) d). rewrite IH.
  simpl. now rewrite Nat.sub_0_r.
Qed.

Lemma insert_sorted_in (a b : Qc) (l : list Qc) :
  In b (insert_sorted a l) <-> b = a \/ In b l.
Proof.
  induction l as [|c l IH]; cbn [insert_sorted].
  - simpl. intuition congruence.
  - destruct (fleb a c); cbn [In].
    + intuition congruence.
    + rewrite IH. intuition congruence.
Qed.

Lemma np_sort_in (b : Qc) (l : list Qc) : In b (np_sort l) <-> In b l.
Proof.
  induction l as [|a l IH]; cbn [np_sort fold_right]; [reflexivity|].
  fold (np_sort l). rewrite insert_sorted_in, IH. cbn [In].
  intuition congruence.
Qed.

Lemma insert_sorted_sorted (a : Qc) (l : list Qc) :
  Sorted Qcle l -> Sorted Qcle (insert_sorted a l).
Proof.
  induction 1 as [|c l Hs IH Hc]; cbn [insert_sorted].
  - repeat constructor.
  - cbn [fleb Scalar_Qc]. destruct (Qc_leb a c) eqn:E.
    + apply Qc_leb_iff in E.
      apply Sorted_cons; [apply Sorted_cons; assumption|].
      apply HdRel_cons. exact E.
    + apply Qc_leb_false in E. apply Qclt_le_weak in E.
      apply Sorted_cons; [exact IH|].
      destruct l as [|d l]; cbn [insert_sorted].
      * apply HdRel_cons. exact E.
      * inversion_clear Hc as [|? ? Hcd].
        destruct (fleb a d); apply HdRel_cons; assumption.
Qed.

Lemma np_sort_is_sorted (l : list Qc) : Sorted Qcle (np_sort l).
Proof.
  induction l as [|a l IH]; simpl; [constructor|].
  now apply insert_sorted_sorted.
Qed.

Lemma fold_fmin_least (l : list Qc) (a : Qc) :
  In (fold_left fmin l a) (a :: l)
  /\ forall b, In b (a :: l) -> (fold_left fmin l a <= b)%Qc.
Proof.
  revert a; induction l as [|c l IH]; intros a.
  - simpl. split; [now left|]. intros b [<-|[]]. apply Qcle_refl.
  - cbn [fold_left]. destruct (IH (fmin a c)) as [Hin Hle].
    assert (Hm : (fmin a c = a \/ fmin a c = c)
                 /\ (fmin a c <= a)%Qc /\ (fmin a c <= c)%Qc).
    { unfold fmin; cbn [fltb Scalar_Qc].
      destruct (Qc_ltb c a) eqn:E.
      - apply Qc_ltb_iff in E. repeat split; auto using Qcle_refl.
        now apply Qclt_le_weak.
      - apply Qc_ltb_false in E. repeat split; auto using Qcle_refl. }
    destruct Hm as (Hor & Hma & Hmc). split.
    + destruct Hin as [Hin|Hin].
      * rewrite <- Hin. destruct Hor as [->| ->];
          [now left|right; now left].
      * right; now right.
    + intros b [<-|[<-|Hb]].
      * eapply Qcle_trans; [|exact Hma]. apply Hle. now left.
      * eapply Qcle_trans; [|exact Hmc]. apply Hle. now left.
      * apply Hle. now right.
Qed.

Lemma fold_fmax_greatest (l : list Qc) (a : Qc) :
  In (fold_left fmax l a) (a :: l)
  /\ forall b, In b (a :: l) -> (b <= fold_left fmax l a)%Qc.
Proof.
  revert a; induction l as [|c l IH]; intros a.
  - simpl. split; [now left|]. intros b [<-|[]]. apply Qcle_refl.
  - cbn [fold_left]. destruct (IH (fmax a c)) as [Hin Hle].
    assert (Hm : (fmax a c = a \/ fmax a c = c)
                 /\ (a <= fmax a c)%Qc /\ (c <= fmax a c)%Qc).
    { unfold fmax; cbn [fltb Scalar_Qc].
      destruct (Qc_ltb a c) eqn:E.
      - apply Qc_ltb_iff in E. repeat split; auto using Qcle_refl.
        now apply Qclt_le_weak.
      - apply Qc_ltb_false in E. repeat split; auto using Qcle_refl. }
    destruct Hm as (Hor & Hma & Hmc). split.
    + destruct Hin as [Hin|Hin].
      * rewrite <- Hin. destruct Hor as [->| ->];
          [now left|right; now left].
      * right; now right.
    + intros b [<-|[<-|Hb]].
      * eapply Qcle_trans; [exact Hma|]. apply Hle. now left.
      * eapply Qcle_trans; [exact Hmc|]. apply Hle. now left.
      * apply Hle. now right.
Qed.

(** [np.r_[...]] of the source: the smallest knot repeated, the sorted
    knots, the largest knot repeated. *)
Lemma aug_knots_value (knots : list Qc) (k : nat) :
  knots <> [] ->
  aug_knots_of knots k = Ok (augmented (np_sort knots) k).
Proof.
  intros Hne. destruct knots as [|a l]; [contradiction|].
  unfold aug_knots_of, augmented. cbn [np_min np_max rbind].
  pose proof (sorted_strongly _ (np_sort_is_sorted (a :: l))) as Hss.
  pose proof (strongly_sorted_nth _ Hss) as Hnth.
  assert (Hlen : length (np_sort (a :: l)) = S (length l))
    by (now rewrite np_sort_length).
  destruct (fold_fmin_least l a) as [Hmin_in Hmin_le].
  destruct (fold_fmax_greatest l a) as [Hmax_in Hmax_le].
  assert (Hhd : hd 0%Qc (np_sort (a :: l)) = nth 0 (np_sort (a :: l)) 0%Qc)
    by (destruct (np_sort (a :: l)); reflexivity).
  assert (Emin : fold_left fmin l a = hd 0%Qc (np_sort (a :: l))).
  { apply Qcle_antisym.
    - apply Hmin_le. apply np_sort_in. rewrite Hhd. apply nth_In. lia.
    - apply np_sort_in in Hmin_in.
      apply (In_nth _ _ 0%Qc) in Hmin_in.
      destruct Hmin_in as (i & Hi & <-). rewrite Hhd. apply Hnth; lia. }
  assert (Emax : fold_left fmax l a = last (np_sort (a :: l)) 0%Qc).
  { rewrite last_nth. apply Qcle_antisym.
    - apply np_sort_in in Hmax_in.
      apply (In_nth _ _ 0%Qc) in Hmax_in.
      destruct Hmax_in as (i & Hi & <-). apply Hnth; lia.
    - apply Hmax_le. apply np_sort_in. apply nth_In. lia. }
  now rewrite Emin, Emax.
Qed.

(** ** Slices *)

Lemma slice_length {A} (i j : nat) (l : list A) :
  j <= length l -> length (slice i j l) = j - i.
Proof.
  intros Hj. unfold slice. rewrite length_firstn, length_skipn. lia.
Qed.

Lemma slice_nth {A} (i j n : nat) (l : list A) (d : A) :
  n < j - i -> nth n (slice i j l) d = nth (i + n) l d.
Proof.
  intros Hn. unfold slice. rewrite nth_firstn.
  destruct (Nat.ltb_spec n (j - i)) as [_|Hge]; [|lia].
  apply nth_skipn.
Qed.

Lemma zipWith3_length {A B C D} (f : A -> B -> C -> D)
  (la : list A) (lb : list B) (lc : list C) :
  length (zipWith3 f la lb lc)
  = Nat.min (length la) (Nat.min (length lb) (length lc)).
Proof.
  revert lb lc; induction la as [|a la IH]; intros [|b lb] [|c lc];
    simpl; auto.
Qed.

Lemma zipWith3_nth {A B C D} (f : A -> B -> C -> D)
  (la : list A) (lb : list B) (lc : list C) (i : nat)
  (da : A) (db : B) (dc : C) (dd : D) :
  i < length la -> i < length lb -> i < length lc ->
  nth i (zipWith3 f la lb lc) dd
  = f (nth i la da) (nth i lb db) (nth i lc dc).
Proof.
  revert lb lc i; induction la as [|a la IH];
    intros [|b lb] [|c lc] [|i] Ha Hb Hc; simpl in *; try lia; auto.
  apply IH; lia.
Qed.

(** ** Sums of rational rows *)

Lemma fold_left_Qcplus (l : list Qc) (a : Qc) :
  fold_left Qcplus l a = (a + fold_left Qcplus l 0)%Qc.
Proof.
  revert a; induction l as [|x l IH]; intros a; simpl.
  - ring.
  - rewrite (IH (a + x)%Qc), (IH (0 + x)%Qc). ring.
Qed.

Lemma vsum_Qc_cons (x : Qc) (l : list Qc) : vsum (x :: l) = (x + vsum l)%Qc.
Proof.
  unfold vsum; simpl. rewrite fold_left_Qcplus. ring.
Qed.

Lemma vsum_Qc_app (l1 l2 : list Qc) :
  vsum (l1 ++ l2) = (vsum l1 + vsum l2)%Qc.
Proof.
  induction l1 as [|x l1 IH]; simpl.
  - unfold vsum at 2; simpl. ring.
  - rewrite !vsum_Qc_cons, IH. ring.
Qed.

Lemma sum_upto_ext (f g : nat -> Qc) (n : nat) :
  (forall j, j < n -> f j = g j) -> sum_upto f n = sum_upto g n.
Proof.
  induction n as [|n IH]; intros Hfg; simpl; [reflexivity|].
  rewrite IH, Hfg by (intros; try apply Hfg; lia). reflexivity.
Qed.

Lemma vsum_sum_upto (l : list Qc) :
  vsum l = sum_upto (fun j => nth j l 0%Qc) (length l).
Proof.
  induction l as [|x l IH] using rev_ind; [reflexivity|].
  rewrite vsum_Qc_app, length_app, Nat.add_1_r. cbn [sum_upto].
  rewrite app_nth2, Nat.sub_diag by lia. cbn [nth].
  rewrite IH. unfold vsum at 1; simpl.
  f_equal.
  - apply sum_upto_ext. intros j Hj. now rewrite app_nth1.
  - ring.
Qed.

Lemma sum_upto_shift (L R : nat -> Qc) (n : nat) :
  sum_upto (fun j => (L j + R j)%Qc) (S n)
  = (L 0%nat + sum_upto (fun i => (L (S i) + R i)%Qc) n + R n)%Qc.
Proof.
  induction n as [|n IH].
  - simpl. ring.
  - change (sum_upto (fun j => (L j + R j)%Qc) (S (S n)))
      with (sum_upto (fun j => (L j + R j)%Qc) (S n)
            + (L (S n) + R (S n)))%Qc.
    rewrite IH. cbn [sum_upto]. ring.
Qed.

Lemma sum_upto_ends (c : nat -> Qc) (n : nat) :
  sum_upto c (S (S n))
  = (c 0%nat + sum_upto (fun i => c (S i)) n + c (S n))%Qc.
Proof.
  induction n as [|n IH].
  - simpl. ring.
  - change (sum_upto c (S (S (S n))))
      with (sum_upto c (S (S n)) + c (S (S n)))%Qc.
    rewrite IH. cbn [sum_upto]. ring.
Qed.

Lemma sum_nonzero_is_sum (row : list Qc) : sum_nonzero row = vsum row.
Proof.
  unfold sum_nonzero. induction row as [|x row IH]; [reflexivity|].
  cbn [filter]. destruct (feqb x fzero) eqn:E; cbn [negb].
  - apply Qc_eqb_iff in E. rewrite E, vsum_Qc_cons, IH.
    change (@fzero Qc _) with 0%Qc. ring.
  - now rewrite !vsum_Qc_cons, IH.
Qed.

(** ** The De Boor recursion keeps the rows summing to one *)

Section DeBoor.
Variables (t : list Qc) (x : Qc) (k a : nat).

Hypothesis Hmono :
  forall i j, i <= j -> j < length t -> (nth i t 0%Qc <= nth j t 0%Qc)%Qc.
Hypothesis Ha_lo : k <= a + 1.
Hypothesis Ha_hi : a + k < length t.
Hypothesis Hact : (nth a t 0%Qc < nth (S a) t 0%Qc)%Qc.

Lemma blend_zero (lo hi num : Qc) : blend x lo hi 0%Qc num = 0%Qc.
Proof.
  unfold blend. destruct (feqb hi lo); [reflexivity|].
  cbn [fmul fdiv fsub Scalar_Qc]. ring.
Qed.

Lemma blend_pair (lo hi c : Qc) :
  hi <> lo ->
  (blend x lo hi c (fsub x lo) + blend x lo hi c (fsub hi x))%Qc = c.
Proof.
  intros Hne. unfold blend.
  destruct (feqb hi lo) eqn:E; [apply Qc_eqb_iff in E; contradiction|].
  cbn [fmul fdiv fsub Scalar_Qc].
  assert (Hd : (hi - lo)%Qc <> 0%Qc).
  { intros Hz. apply Hne.
    replace hi with ((hi - lo) + lo)%Qc by ring. rewrite Hz. ring. }
  field. exact Hd.
Qed.

Lemma support_wide (l j : nat) :
  j <= a -> a < j + l -> j + l < length t ->
  nth (j + l) t 0%Qc <> nth j t 0%Qc.
Proof.
  intros Hj Ha Hl Heq.
  assert (H1 : (nth j t 0%Qc <= nth a t 0%Qc)%Qc) by (apply Hmono; lia).
  assert (H2 : (nth (S a) t 0%Qc <= nth (j + l) t 0%Qc)%Qc)
    by (apply Hmono; lia).
  rewrite Heq in H2.
  apply (Qclt_not_le _ _ Hact). eapply Qcle_trans; eassumption.
Qed.

Lemma recursion_row_length (m maxi : nat) (c : list Qc) :
  1 <= m -> maxi + m <= length t -> maxi + 1 <= length c ->
  length (recursion_row t x m maxi c) = maxi.
Proof.
  intros Hm Ht Hc. unfold recursion_row.
  rewrite zipWith_length, !zipWith3_length.
  rewrite !slice_length by lia. lia.
Qed.

Lemma recursion_row_nth (m maxi j : nat) (c : list Qc) :
  1 <= m -> maxi + m <= length t -> maxi + 1 <= length c -> j < maxi ->
  nth j (recursion_row t x m maxi c) 0%Qc
  = (blend x (nth j t 0%Qc) (nth (j + (m - 1)) t 0%Qc) (nth j c 0%Qc)
       (fsub x (nth j t 0%Qc))
     + blend x (nth (S j) t 0%Qc) (nth (S j + (m - 1)) t 0%Qc)
         (nth (S j) c 0%Qc)
         (fsub (nth (S j + (m - 1)) t 0%Qc) x))%Qc.
Proof.
  intros Hm Ht Hc Hj. unfold recursion_row.
  rewrite (zipWith_nth fadd _ _ _ 0%Qc 0%Qc 0%Qc)
    by (rewrite zipWith3_length, !slice_length by lia; lia).
  rewrite (zipWith3_nth _ _ _ _ _ 0%Qc 0%Qc 0%Qc 0%Qc)
    by (rewrite slice_length by lia; lia).
  rewrite (zipWith3_nth _ _ _ _ _ 0%Qc 0%Qc 0%Qc 0%Qc)
    by (rewrite slice_length by lia; lia).
  rewrite !slice_nth by lia.
  replace (0 + j) with j by lia.
  replace (m - 1 + j) with (j + (m - 1)) by lia.
  replace (m + j) with (S j + (m - 1)) by lia.
  replace (1 + j) with (S j) by lia.
  reflexivity.
Qed.

(** One pass of the recursion takes a row of order [l] to a row of
    order [l + 1]. *)
Lemma recursion_row_level (l : nat) (c : list Qc) :
  1 <= l -> l < k -> level t a l c ->
  level t a (S l) (recursion_row t x (S l) (length t - S l) c).
Proof.
  intros Hl Hlk (Hlen & Hsup & Hsum).
  set (M := length t - S l).
  assert (HM : M + S l = length t) by (unfold M; lia).
  assert (HcM : length c = S M) by (rewrite Hlen; unfold M; lia).
  assert (Hnth : forall j, j < M ->
            nth j (recursion_row t x (S l) M c) 0%Qc
            = (blend x (nth j t 0%Qc) (nth (j + l) t 0%Qc) (nth j c 0%Qc)
                 (fsub x (nth j t 0%Qc))
               + blend x (nth (S j) t 0%Qc) (nth (S j + l) t 0%Qc)
                   (nth (S j) c 0%Qc)
                   (fsub (nth (S j + l) t 0%Qc) x))%Qc).
  { intros j Hj. rewrite recursion_row_nth by lia.
    replace (S l - 1) with l by lia. reflexivity. }
  assert (HlenM : length (recursion_row t x (S l) M c) = M)
    by (apply recursion_row_length; lia).
  split; [exact HlenM|]. split.
  - intros j Hj.
    destruct (Nat.lt_ge_cases j M) as [HjM|HjM].
    + rewrite Hnth in Hj by exact HjM.
      destruct (Qc_eq_dec (nth j c 0%Qc) 0%Qc) as [Ej|Ej].
      * destruct (Qc_eq_dec (nth (S j) c 0%Qc) 0%Qc) as [Es|Es].
        -- exfalso. apply Hj. rewrite Ej, Es, !blend_zero. ring.
        -- apply Hsup in Es. lia.
      * apply Hsup in Ej. lia.
    + exfalso. apply Hj. apply nth_overflow. lia.
  - rewrite vsum_sum_upto, HlenM.
    rewrite (sum_upto_ext _
               (fun j => (blend x (nth j t 0%Qc) (nth (j + l) t 0%Qc)
                            (nth j c 0%Qc) (fsub x (nth j t 0%Qc))
                          + blend x (nth (S j) t 0%Qc)
                              (nth (S j + l) t 0%Qc) (nth (S j) c 0%Qc)
                              (fsub (nth (S j + l) t 0%Qc) x))%Qc) M Hnth).
    assert (Hc0 : nth 0 c 0%Qc = 0%Qc).
    { destruct (Qc_eq_dec (nth 0 c 0%Qc) 0%Qc) as [E|E]; [exact E|].
      apply Hsup in E. lia. }
    assert (HcM0 : nth M c 0%Qc = 0%Qc).
    { destruct (Qc_eq_dec (nth M c 0%Qc) 0%Qc) as [E|E]; [exact E|].
      apply Hsup in E. lia. }
    destruct M as [|n] eqn:EM; [lia|].
    rewrite (sum_upto_shift
               (fun j => blend x (nth j t 0%Qc) (nth (j + l) t 0%Qc)
                           (nth j c 0%Qc) (fsub x (nth j t 0%Qc)))
               (fun j => blend x (nth (S j) t 0%Qc) (nth (S j + l) t 0%Qc)
                           (nth (S j) c 0%Qc)
                           (fsub (nth (S j + l) t 0%Qc) x)) n).
    rewrite Hc0, HcM0, !blend_zero.
    rewrite (sum_upto_ext _ (fun i => nth (S i) c 0%Qc) n).
    + rewrite vsum_sum_upto, HcM in Hsum.
      rewrite sum_upto_ends, Hc0, HcM0 in Hsum. exact Hsum.
    + intros i Hi.
      destruct (Qc_eq_dec (nth (S i) c 0%Qc) 0%Qc) as [E|E].
      * rewrite E, !blend_zero. ring.
      * apply blend_pair. apply Hsup in E.
        apply support_wide; lia.
Qed.

Lemma recursion_loop_level (count : nat) :
  forall (l : nat) (c : list Qc),
    1 <= l -> l + count = k -> level t a l c ->
    level t a k (recursion_loop t x count (S l) (length t - l) c).
Proof.
  induction count as [|count IH]; intros l c Hl Hk Hc.
  - cbn [recursion_loop]. replace k with l by lia. exact Hc.
  - cbn [recursion_loop].
    replace (length t - l - 1) with (length t - S l) by lia.
    apply IH; [lia|lia|].
    apply recursion_row_level; [exact Hl|lia|exact Hc].
Qed.

(** From an indicator row at the interval [a], the basis row sums to
    one. *)
Lemma basis_row_sums_to_one (row : list Qc) :
  1 <= k -> level t a 1 row ->
  vsum (recursion_loop t x (k - 1) 2 (length t - 1) row) = 1%Qc.
Proof.
  intros Hk Hrow.
  destruct (recursion_loop_level (k - 1) 1 row) as (_ & _ & Hsum);
    [lia|lia|exact Hrow|exact Hsum].
Qed.
End DeBoor.

(** ** Indicator rows *)

Lemma set_nth_length {A} (i : nat) (v : A) (l : list A) :
  length (set_nth i v l) = length l.
Proof.
  revert i; induction l as [|a l IH]; intros [|i]; simpl; auto.
Qed.

Lemma set_nth_nth {A} (i j : nat) (v d : A) (l : list A) :
  i < length l ->
  nth j (set_nth i v l) d = if j =? i then v else nth j l d.
Proof.
  revert i j; induction l as [|a l IH]; intros [|i] [|j] Hi;
    simpl in *; try lia; auto.
  apply IH. lia.
Qed.

Lemma removelast_nth {A} (j : nat) (l : list A) (d : A) :
  j < length l - 1 -> nth j (removelast l) d = nth j l d.
Proof.
  intros Hj. rewrite removelast_firstn_len, nth_firstn.
  destruct (Nat.ltb_spec j (Nat.pred (length l))); [reflexivity|lia].
Qed.

Lemma tl_nth {A} (j : nat) (l : list A) (d : A) :
  nth j (tl l) d = nth (S j) l d.
Proof. destruct l; [destruct j|]; reflexivity. Qed.


Lemma sum_upto_one_hot (a n : nat) :
  sum_upto (fun j => if j =? a then 1%Qc else 0%Qc) n
  = if a <? n then 1%Qc else 0%Qc.
Proof.
  induction n as [|n IH]; [reflexivity|].
  cbn [sum_upto]. rewrite IH.
  destruct (Nat.ltb_spec a n), (Nat.eqb_spec n a), (Nat.ltb_spec a (S n));
    try lia; ring.
Qed.

Lemma one_hot_level (t row : list Qc) (a : nat) :
  a < length t - 1 -> length row = length t - 1 ->
  (forall j, j < length t - 1 ->
             nth j row 0%Qc = if j =? a then 1%Qc else 0%Qc) ->
  level t a 1 row.
Proof.
  intros Ha Hlen Hrow. split; [exact Hlen|]. split.
  - intros j Hj.
    destruct (Nat.lt_ge_cases j (length t - 1)) as [Hlt|Hge].
    + rewrite Hrow in Hj by exact Hlt.
      destruct (Nat.eqb_spec j a); [lia|congruence].
    + exfalso. apply Hj. apply nth_overflow. lia.
  - rewrite vsum_sum_upto, Hlen.
    rewrite (sum_upto_ext _ (fun j => if j =? a then 1%Qc else 0%Qc))
      by exact Hrow.
    rewrite sum_upto_one_hot.
    destruct (Nat.ltb_spec a (length t - 1)); [reflexivity|lia].
Qed.

Lemma haar_row_length (t : list Qc) (x : Qc) :
  length (haar_row t x) = length t - 1.
Proof.
  unfold haar_row. rewrite zipWith_length, removelast_firstn_len.
  rewrite length_firstn. destruct t; simpl; lia.
Qed.

Lemma haar_row_nth (t : list Qc) (x : Qc) (j : nat) :
  j < length t - 1 ->
  nth j (haar_row t x) 0%Qc
  = fmul (b2f (fleb (nth j t 0%Qc) x)) (b2f (fltb x (nth (S j) t 0%Qc))).
Proof.
  intros Hj. unfold haar_row.
  rewrite (zipWith_nth _ _ _ _ 0%Qc 0%Qc 0%Qc).
  - now rewrite removelast_nth, tl_nth.
  - rewrite removelast_firstn_len, length_firstn. lia.
  - destruct t; simpl in *; lia.
Qed.

Section Indicator.
Variables (t : list Qc) (x : Qc).

Hypothesis Hmono :
  forall i j, i <= j -> j < length t -> (nth i t 0%Qc <= nth j t 0%Qc)%Qc.

Lemma find_interval (n : nat) :
  (nth 0 t 0%Qc <= x)%Qc -> (x < nth n t 0%Qc)%Qc ->
  exists a, a < n /\ (nth a t 0%Qc <= x)%Qc /\ (x < nth (S a) t 0%Qc)%Qc.
Proof.
  intros H0. induction n as [|n IH]; intros Hn.
  - exfalso. now apply (Qcle_not_lt _ _ H0).
  - destruct (Qclt_le_dec x (nth n t 0%Qc)) as [Hlt|Hle].
    + destruct (IH Hlt) as (a & Ha & Hb). exists a. split; [lia|exact Hb].
    + exists n. auto.
Qed.

Lemma haar_row_inside (a : nat) :
  a < length t - 1 ->
  (nth a t 0%Qc <= x)%Qc -> (x < nth (S a) t 0%Qc)%Qc ->
  forall j, j < length t - 1 ->
            nth j (haar_row t x) 0%Qc = if j =? a then 1%Qc else 0%Qc.
Proof.
  intros Ha Hlo Hhi j Hj. rewrite haar_row_nth by exact Hj.
  cbn [fmul fleb fltb Scalar_Qc].
  destruct (Nat.eqb_spec j a) as [->|Hne].
  - apply Qc_leb_iff in Hlo. apply Qc_ltb_iff in Hhi.
    rewrite Hlo, Hhi. cbn [b2f fone Scalar_Qc]. ring.
  - destruct (Nat.lt_ge_cases j a) as [Hlt|Hge].
    + assert (Hf : Qc_ltb x (nth (S j) t 0%Qc) = false).
      { apply Qc_ltb_false. eapply Qcle_trans; [|exact Hlo].
        apply Hmono; lia. }
      rewrite Hf. cbn [b2f fzero Scalar_Qc]. ring.
    + assert (Hf : Qc_leb (nth j t 0%Qc) x = false).
      { apply Qc_leb_false. eapply Qclt_le_trans; [exact Hhi|].
        apply Hmono; lia. }
      rewrite Hf. cbn [b2f fzero Scalar_Qc]. ring.
Qed.

Lemma haar_row_beyond :
  (nth (length t - 1) t 0%Qc <= x)%Qc ->
  forall j, j < length t - 1 -> nth j (haar_row t x) 0%Qc = 0%Qc.
Proof.
  intros Hx j Hj. rewrite haar_row_nth by exact Hj.
  cbn [fmul fleb fltb Scalar_Qc].
  assert (Hf : Qc_ltb x (nth (S j) t 0%Qc) = false).
  { apply Qc_ltb_false. eapply Qcle_trans; [|exact Hx]. apply Hmono; lia. }
  rewrite Hf. cbn [b2f fzero Scalar_Qc]. ring.
Qed.

(** Inside the range of the knots the indicator row marks the interval
    of the sample. *)
Lemma indicator_row_inside (order a : nat) :
  a < length t - 1 ->
  (nth a t 0%Qc <= x)%Qc -> (x < nth (S a) t 0%Qc)%Qc ->
  level t a 1 (indicator_row t order x).
Proof.
  intros Ha Hlo Hhi.
  assert (Hlast : fleb (last_knot t) x = false).
  { unfold last_knot. cbn [fleb fzero Scalar_Qc].
    rewrite last_nth. apply Qc_leb_false.
    eapply Qclt_le_trans; [exact Hhi|]. apply Hmono; lia. }
  assert (Hfirst : fltb x (first_knot t) = false).
  { unfold first_knot. cbn [fltb fzero Scalar_Qc].
    replace (hd 0%Qc t) with (nth 0 t 0%Qc) by (destruct t; reflexivity).
    apply Qc_ltb_false. eapply Qcle_trans; [|exact Hlo].
    apply Hmono; lia. }
  unfold indicator_row, extend_row. rewrite Hlast, Hfirst.
  apply one_hot_level; [exact Ha|apply haar_row_length|].
  now apply haar_row_inside.
Qed.

(** At or beyond the last knot the indicator row marks the column
    [-order]. *)
Lemma indicator_row_beyond (order : nat) :
  1 <= order -> order <= length t - 1 ->
  (nth (length t - 1) t 0%Qc <= x)%Qc ->
  level t (length t - 1 - order) 1 (indicator_row t order x).
Proof.
  intros Ho Hol Hx.
  assert (Hlast : fleb (last_knot t) x = true).
  { unfold last_knot. cbn [fleb fzero Scalar_Qc].
    rewrite last_nth. now apply Qc_leb_iff. }
  assert (Hfirst : fltb x (first_knot t) = false).
  { unfold first_knot. cbn [fltb fzero Scalar_Qc].
    replace (hd 0%Qc t) with (nth 0 t 0%Qc) by (destruct t; reflexivity).
    apply Qc_ltb_false. eapply Qcle_trans; [|exact Hx].
    apply Hmono; lia. }
  unfold indicator_row, extend_row. rewrite Hlast, Hfirst.
  apply one_hot_level.
  - lia.
  - now rewrite set_nth_length, haar_row_length.
  - intros j Hj. rewrite haar_row_length.
    rewrite set_nth_nth by (rewrite haar_row_length; lia).
    destruct (j =? length t - 1 - order); [reflexivity|].
    now apply haar_row_beyond.
Qed.
End Indicator.

(** ** The augmented knots *)

Section Augmented.
Variables (knots : list Qc) (k : nat).
Hypothesis Hsorted : Sorted Qcle knots.
Hypothesis Hk : 1 <= k.
Hypothesis HK : 2 <= length knots.

Lemma knots_between (b : Qc) :
  In b knots -> (hd 0%Qc knots <= b)%Qc /\ (b <= last knots 0%Qc)%Qc.
Proof.
  intros Hb. apply (In_nth _ _ 0%Qc) in Hb. destruct Hb as (i & Hi & <-).
  pose proof (strongly_sorted_nth _ (sorted_strongly _ Hsorted)) as Hm.
  split.
  - replace (hd 0%Qc knots) with (nth 0 knots 0%Qc)
      by (destruct knots; reflexivity).
    apply Hm; lia.
  - rewrite last_nth. apply Hm; lia.
Qed.

Lemma aug_length : length (augmented knots k) = length knots + 2 * (k - 1).
Proof. unfold augmented. rewrite !length_app, !repeat_length. lia. Qed.

Lemma aug_mono (i j : nat) :
  i <= j -> j < length (augmented knots k) ->
  (nth i (augmented knots k) 0%Qc <= nth j (augmented knots k) 0%Qc)%Qc.
Proof.
  apply strongly_sorted_nth. unfold augmented.
  assert (Hmm : (hd 0%Qc knots <= last knots 0%Qc)%Qc).
  { destruct (knots_between (nth 0 knots 0%Qc)) as [H1 H2];
      [apply nth_In; lia|].
    eapply Qcle_trans; eassumption. }
  apply strongly_sorted_app.
  - apply strongly_sorted_repeat.
  - apply strongly_sorted_app.
    + now apply sorted_strongly.
    + apply strongly_sorted_repeat.
    + intros a b Ha Hb. apply repeat_spec in Hb. subst b.
      now apply knots_between.
  - intros a b Ha Hb. apply repeat_spec in Ha. subst a.
    apply in_app_or in Hb. destruct Hb as [Hb|Hb].
    + now apply knots_between.
    + apply repeat_spec in Hb. now subst b.
Qed.

Lemma aug_nth_mid (i : nat) :
  i < length knots ->
  nth (k - 1 + i) (augmented knots k) 0%Qc = nth i knots 0%Qc.
Proof.
  intros Hi. unfold augmented.
  rewrite app_nth2 by (rewrite repeat_length; lia).
  rewrite repeat_length, app_nth1 by lia. f_equal. lia.
Qed.

Lemma aug_nth_low (i : nat) :
  i < k -> nth i (augmented knots k) 0%Qc = hd 0%Qc knots.
Proof.
  intros Hi. destruct (Nat.lt_ge_cases i (k - 1)) as [Hlt|Hge].
  - unfold augmented. rewrite app_nth1 by (now rewrite repeat_length).
    now apply nth_repeat_lt.
  - replace i with (k - 1 + 0) by lia. rewrite aug_nth_mid by lia.
    destruct knots; reflexivity.
Qed.

Lemma aug_nth_high (i : nat) :
  length (augmented knots k) - k <= i -> i < length (augmented knots k) ->
  nth i (augmented knots k) 0%Qc = last knots 0%Qc.
Proof.
  rewrite aug_length. intros Hlo Hhi.
  destruct (Nat.lt_ge_cases i (k - 1 + length knots)) as [Hlt|Hge].
  - replace i with (k - 1 + (length knots - 1)) by lia.
    rewrite aug_nth_mid by lia. now rewrite last_nth.
  - unfold augmented. rewrite app_assoc, app_nth2
      by (rewrite length_app, repeat_length; lia).
    apply nth_repeat_lt. rewrite length_app, repeat_length. lia.
Qed.

(** On a covered sample the basis row sums to one. *)
Lemma covered_row_sums_to_one (x : Qc) :
  covered k knots x -> vsum (basis_row (augmented knots k) k x) = 1%Qc.
Proof.
  pose proof aug_length as HN.
  set (t := augmented knots k) in *.
  intros [[Hlo Hhi]|[Hx [Htop|Hone]]].
  - destruct (find_interval t x (length t - 1)) as (a & Ha & Hal & Hah).
    + unfold t. rewrite aug_nth_low by lia. exact Hlo.
    + unfold t. rewrite aug_nth_high by (fold t; lia). exact Hhi.
    + assert (Hk1 : k <= a + 1).
      { destruct (Nat.le_gt_cases k (a + 1)) as [H|H]; [exact H|].
        exfalso. unfold t in Hah.
        rewrite (aug_nth_low (S a)) in Hah by lia.
        now apply (Qcle_not_lt _ _ Hlo). }
      assert (Hk2 : a + k < length t).
      { destruct (Nat.lt_ge_cases (a + k) (length t)) as [H|H];
          [exact H|].
        exfalso. unfold t in Hal.
        rewrite (aug_nth_high a) in Hal by (fold t; lia).
        now apply (Qcle_not_lt _ _ Hal). }
      unfold basis_row.
      apply (basis_row_sums_to_one t x k a aug_mono Hk1 Hk2).
      * eapply Qcle_lt_trans; eassumption.
      * exact Hk.
      * apply indicator_row_inside;
          [exact aug_mono|lia|exact Hal|exact Hah].
  - unfold basis_row.
    apply (basis_row_sums_to_one t x k (length t - 1 - k) aug_mono).
    + lia.
    + lia.
    + replace (length t - 1 - k) with (k - 1 + (length knots - 2)) by lia.
      unfold t. rewrite aug_nth_mid by lia.
      replace (S (k - 1 + (length knots - 2)))
        with (k - 1 + (length knots - 1)) by lia.
      rewrite aug_nth_mid by lia.
      rewrite <- last_nth. exact Htop.
    + exact Hk.
    + apply indicator_row_beyond; [exact aug_mono|exact Hk|lia|].
      unfold t. rewrite aug_nth_high by (fold t; lia). exact Hx.
  - unfold basis_row. rewrite Hone. cbn [Nat.sub recursion_loop].
    destruct (indicator_row_beyond t x aug_mono 1) as (_ & _ & Hsum).
    + lia.
    + lia.
    + unfold t. rewrite aug_nth_high by (fold t; lia). exact Hx.
    + exact Hsum.
Qed.
End Augmented.

(** C4 (as amended).  For every sequence of at least two knots, in any
    order, and every order of the spline: when the knots and the order
    count three or fewer (two knots and order 1) the builder raises
    IndexError, whatever the samples; otherwise the basis matrix is
    built without error, with one row per sample, and the nonzero
    entries of a row sum to one for every sample the sorted knots
    cover: inside the range of the knots, or at or beyond the largest
    knot when that knot is not repeated or the order is 1. *)
Theorem covered_rows_sum_to_one
  (order : Z) (knots : list Qc) (xs : list Qc) :
  (1 <= order)%Z -> 2 <= length knots ->
  (length knots + Z.to_nat order <= 3 ->
   b_spline_basis xs knots order = Raise IndexError)
  /\ (3 < length knots + Z.to_nat order ->
      exists B, b_spline_basis xs knots order = Ok B
                /\ length (rows B) = length xs
                /\ forall r, r < length xs ->
                     covered (Z.to_nat order) (np_sort knots)
                             (nth r xs 0%Qc) ->
                     sum_nonzero (nth r (rows B) []) = 1%Qc).
Proof.
  intros Ho HK.
  assert (Hk : 1 <= Z.to_nat order) by lia.
  assert (Hne : knots <> []) by (intros ->; simpl in HK; lia).
  pose proof (np_sort_is_sorted knots) as Hs.
  assert (HK' : 2 <= length (np_sort knots))
    by (now rewrite np_sort_length).
  pose proof (np_sort_length knots) as HL.
  set (sorted := np_sort knots) in *.
  set (aug := augmented sorted (Z.to_nat order)).
  pose proof (aug_length sorted (Z.to_nat order) Hk HK') as HN.
  fold aug in HN.
  unfold b_spline_basis.
  destruct (Z.ltb_spec order 1) as [Hlt|_]; [lia|].
  rewrite (aug_knots_value knots (Z.to_nat order) Hne).
  fold sorted. fold aug. cbn [rbind].
  split; intros Hw.
  - replace (length aug - 1 <? Z.to_nat order) with false
      by (symmetry; apply Nat.ltb_ge; lia).
    replace (length aug - 1 <=? Z.to_nat order) with true
      by (symmetry; apply Nat.leb_le; lia).
    reflexivity.
  - replace (length aug - 1 <? Z.to_nat order) with false
      by (symmetry; apply Nat.ltb_ge; lia).
    replace (length aug - 1 <=? Z.to_nat order) with false
      by (symmetry; apply Nat.leb_gt; lia).
    eexists. split; [reflexivity|]. cbn [rows].
    split; [apply length_map|].
    intros r Hr Hx.
    rewrite (nth_indep _ [] (basis_row aug (Z.to_nat order) 0%Qc))
      by (now rewrite length_map).
    rewrite (map_nth (basis_row aug (Z.to_nat order))).
    rewrite sum_nonzero_is_sum.
    exact (covered_row_sums_to_one sorted (Z.to_nat order) Hs Hk HK' _ Hx).
Qed.

(** ** Concrete rows *)

Ltac qc_order :=
  first [ apply Qc_leb_iff; vm_compute; reflexivity
        | apply Qc_ltb_iff; vm_compute; reflexivity ].

Ltac qc_list :=
  vm_compute;
  repeat first
    [ reflexivity
    | apply (f_equal2 (@cons Qc)); [apply Qc_is_canon; reflexivity|] ].

Lemma covered_rows_sum_to_one_witness :
  exists B,
    b_spline_basis [qc (-1) 1; qc 1 2; qc 3 1; qc 7 2]
      [qc 3 1; qc 1 1; qc 0 1; qc 2 1] 4 = Ok B
    /\ length (rows B) = 4
    /\ sum_nonzero (nth 1 (rows B) []) = 1%Qc
    /\ sum_nonzero (nth 2 (rows B) []) = 1%Qc
    /\ sum_nonzero (nth 3 (rows B) []) = 1%Qc.
Proof.
  destruct (covered_rows_sum_to_one 4 [qc 3 1; qc 1 1; qc 0 1; qc 2 1]
              [qc (-1) 1; qc 1 2; qc 3 1; qc 7 2])
    as [_ Hbuilt].
  - lia.
  - simpl; lia.
  - destruct Hbuilt as (B & EB & HB & Hrows); [simpl; lia|].
    exists B. split; [exact EB|]. split; [exact HB|].
    split; [|split].
    + apply (Hrows 1); [simpl; lia|]. left; split; qc_order.
    + apply (Hrows 2); [simpl; lia|]. right; split; [|left]; qc_order.
    + apply (Hrows 3); [simpl; lia|]. right; split; [|left]; qc_order.
Defined.

(** C4 (as stated) fails.  With the knots [0, 1, 1] that [gen_knots]
    derives from the data [0, 1, 1, 1, 1], the row of the sample 1, the
    largest of the data, is all zeros at order 2; and with the two knots
    [0, 1] of [n_knots = 0] the row of the sample -1, below the knots,
    is all zeros at order 2.  The rows are the same in binary64. *)
Lemma rows_that_sum_to_zero :
  gen_knots [qc 0 1; qc 1 1; qc 1 1; qc 1 1; qc 1 1] 1 true
  = Ok [qc 0 1; qc 1 1; qc 1 1]
  /\ (exists B row,
        b_spline_basis [qc 1 1] [qc 0 1; qc 1 1; qc 1 1] 2 = Ok B
        /\ rows B = [row]
        /\ row = [qc 0 1; qc 0 1; qc 0 1]
        /\ sum_nonzero row = 0%Qc /\ sum_nonzero row <> 1%Qc)
  /\ (exists B row,
        b_spline_basis [qc (-1) 1] [qc 0 1; qc 1 1] 2 = Ok B
        /\ rows B = [row]
        /\ row = [qc 0 1; qc 0 1]
        /\ sum_nonzero row = 0%Qc /\ sum_nonzero row <> 1%Qc)
  /\ b_spline_basis [float_of_Z 1]
       [float_of_Z 0; float_of_Z 1; float_of_Z 1] 2
     = Ok (Mat 1 3 [[PrimFloat.zero; PrimFloat.zero; PrimFloat.zero]])
  /\ b_spline_basis [float_of_Z (-1)] [float_of_Z 0; float_of_Z 1] 2
     = Ok (Mat 1 2 [[PrimFloat.zero; PrimFloat.zero]]).
Proof.
  split; [|split; [|split; [|split; [reflexivity|reflexivity]]]].
  - vm_compute. apply f_equal. qc_list.
  - eexists; eexists. split; [vm_compute; reflexivity|].
    split; [reflexivity|]. split; [qc_list|].
    split; [apply Qc_is_canon; vm_compute; reflexivity|].
    intros Hc. apply (f_equal (fun q : Qc => Qnum (this q))) in Hc.
    vm_compute in Hc. discriminate.
  - eexists; eexists. split; [vm_compute; reflexivity|].
    split; [reflexivity|]. split; [qc_list|].
    split; [apply Qc_is_canon; vm_compute; reflexivity|].
    intros Hc. apply (f_equal (fun q : Qc => Qnum (this q))) in Hc.
    vm_compute in Hc. discriminate.
Qed.

(** Below the first knot the indicator row marks the column [order]:
    the interval after the first one of positive width, which is the
    column [order - 1]. *)
Lemma indicator_row_below (t : list Qc) (x : Qc) (order : nat) :
  (forall i j, i <= j -> j < length t ->
               (nth i t 0%Qc <= nth j t 0%Qc)%Qc) ->
  order < length t - 1 -> (x < nth 0 t 0%Qc)%Qc ->
  indicator_row t order x = one_hot order (length t - 1).
Proof.
  intros Hmono Ho Hx.
  assert (Hlast : fleb (last_knot t) x = false).
  { unfold last_knot. cbn [fleb fzero Scalar_Qc].
    rewrite last_nth. apply Qc_leb_false.
    eapply Qclt_le_trans; [exact Hx|]. apply Hmono; lia. }
  assert (Hfirst : fltb x (first_knot t) = true).
  { unfold first_knot. cbn [fltb fzero Scalar_Qc].
    replace (hd 0%Qc t) with (nth 0 t 0%Qc) by (destruct t; reflexivity).
    now apply Qc_ltb_iff. }
  unfold indicator_row, extend_row. rewrite Hlast, Hfirst.
  apply (nth_ext _ _ 0%Qc 0%Qc).
  - unfold one_hot.
    now rewrite set_nth_length, haar_row_length, length_map, length_seq.
  - intros j Hj. rewrite set_nth_length, haar_row_length in Hj.
    rewrite set_nth_nth by (rewrite haar_row_length; lia).
    unfold one_hot.
    rewrite (nth_indep (map _ _) 0%Qc
               (if 0 =? order then fone else fzero))
      by (now rewrite length_map, length_seq).
    rewrite (map_nth (fun j0 => if j0 =? order then fone else fzero)).
    rewrite seq_nth by exact Hj. cbn [Nat.add].
    destruct (j =? order); [reflexivity|].
    rewrite haar_row_nth by exact Hj.
    cbn [fmul fleb fltb Scalar_Qc].
    assert (Hf : Qc_leb (nth j t 0%Qc) x = false).
    { apply Qc_leb_false. eapply Qclt_le_trans; [exact Hx|].
      apply Hmono; lia. }
    rewrite Hf. cbn [b2f fzero Scalar_Qc]. ring.
Qed.

(** C3 at a sample below the knots.  With the knots [0, 1, 2] and order
    1 there are two bases, for [0, 1) and [1, 2); the sample -1
    activates the second one, where a sample at or beyond 2 activates
    the last one.  With the knots [0, 1, 2, 3] and order 4 the sample -1
    activates the column 4, the interval [1, 2), where the first
    interval, [0, 1), is the column 3.  The last line is the first row
    again, in binary64. *)
Theorem below_minimum_activates_second_interval :
  indicator_row [qc 0 1; qc 1 1; qc 2 1] 1 (qc (-1) 1)
  = [qc 0 1; qc 1 1]
  /\ indicator_row [qc 0 1; qc 1 1; qc 2 1] 1 (qc 5 2)
     = [qc 0 1; qc 1 1]
  /\ indicator_row [qc 0 1; qc 1 1; qc 2 1] 1 (qc 1 2)
     = [qc 1 1; qc 0 1]
  /\ (exists aug,
        aug_knots_of [qc 0 1; qc 1 1; qc 2 1; qc 3 1] 4 = Ok aug
        /\ indicator_row aug 4 (qc (-1) 1) = one_hot 4 9
        /\ indicator_row aug 4 (qc 1 2) = one_hot 3 9
        /\ nth 3 aug 0%Qc = qc 0 1 /\ nth 4 aug 0%Qc = qc 1 1
        /\ nth 5 aug 0%Qc = qc 2 1)
  /\ indicator_row [float_of_Z 0; float_of_Z 1; float_of_Z 2] 1
       (float_of_Z (-1))
     = [PrimFloat.zero; PrimFloat.one].
Proof.
  split; [qc_list|]. split; [qc_list|]. split; [qc_list|].
  split; [|reflexivity].
  eexists. split; [vm_compute; reflexivity|].
  split; [qc_list|]. split; [qc_list|].
  repeat split; apply Qc_is_canon; vm_compute; reflexivity.
Qed.

(** * Further properties of the code *)

(** ** Rational arithmetic through [Q] *)

Ltac qc_to_q :=
  unfold Qcle, Qclt, Qcminus, Qcdiv, Qcplus, Qcmult, Qcopp, Qcinv in *;
  cbn [this Q2Qc] in *;
  rewrite ?Qred_correct in *.

Lemma fraction_le (r r' d : nat) :
  0 < d -> r <= r' ->
  (fdiv (of_Z (Z.of_nat r)) (of_Z (Z.of_nat d))
   <= fdiv (of_Z (Z.of_nat r')) (of_Z (Z.of_nat d)))%Qc.
Proof.
  intros Hd Hr. cbn [fdiv of_Z Scalar_Qc]. qc_to_q.
  apply Qmult_le_compat_r.
  - rewrite <- Zle_Qle. lia.
  - apply Qinv_le_0_compat. replace 0%Q with (inject_Z 0) by reflexivity.
    rewrite <- Zle_Qle. lia.
Qed.

Lemma fraction_zero (d : nat) :
  fdiv (of_Z (Z.of_nat 0)) (of_Z (Z.of_nat d)) = 0%Qc.
Proof.
  cbn [fdiv of_Z Scalar_Qc]. apply Qc_is_canon. qc_to_q.
  cbn [Z.of_nat]. unfold Qeq; simpl. reflexivity.
Qed.

Lemma fraction_below_one (r d : nat) :
  r < d ->
  (fdiv (of_Z (Z.of_nat r)) (of_Z (Z.of_nat d)) < 1)%Qc.
Proof.
  intros Hr. cbn [fdiv of_Z Scalar_Qc]. qc_to_q.
  change (inject_Z (Z.of_nat r) * / inject_Z (Z.of_nat d))%Q
    with (inject_Z (Z.of_nat r) / inject_Z (Z.of_nat d))%Q.
  apply Qlt_shift_div_r.
  - replace 0%Q with (inject_Z 0) by reflexivity. rewrite <- Zlt_Qlt. lia.
  - rewrite Qmult_1_l. rewrite <- Zlt_Qlt. lia.
Qed.

Lemma interpolate_between (a b f : Qc) :
  (a <= b)%Qc -> (0 <= f)%Qc -> (f <= 1)%Qc ->
  (a <= (1 - f) * a + f * b)%Qc /\ ((1 - f) * a + f * b <= b)%Qc.
Proof.
  intros Hab Hf0 Hf1. qc_to_q. split; Lqa.nra.
Qed.

Lemma interpolate_mono (a b f g : Qc) :
  (a <= b)%Qc -> (f <= g)%Qc ->
  ((1 - f) * a + f * b <= (1 - g) * a + g * b)%Qc.
Proof.
  intros Hab Hfg. qc_to_q. Lqa.nra.
Qed.

(** ** Knots from quantiles *)

Section Percentiles.
Variables (s : list Qc) (k : nat).
Hypothesis Hmono :
  forall i j, i <= j -> j < length s -> (nth i s 0%Qc <= nth j s 0%Qc)%Qc.
Hypothesis Hs : 0 < length s.
Hypothesis Hk : 2 <= k.

Lemma percentile_position (i : nat) :
  i < k -> i * (length s - 1) / (k - 1) <= length s - 1.
Proof.
  intros Hi. apply Nat.Div0.div_le_upper_bound. nia.
Qed.

Lemma percentile_at_between (i : nat) :
  i < k ->
  (nth (i * (length s - 1) / (k - 1)) s 0%Qc <= percentile_at s i k)%Qc
  /\ (percentile_at s i k
      <= nth (Nat.min (i * (length s - 1) / (k - 1) + 1) (length s - 1))
             s 0%Qc)%Qc.
Proof.
  intros Hi. pose proof (percentile_position i Hi) as Hpos.
  unfold percentile_at. cbv zeta.
  destruct (k - 1 =? 0) eqn:E; [apply Nat.eqb_eq in E; lia|].
  cbn [fadd fmul fsub fone fzero Scalar_Qc].
  apply interpolate_between.
  - apply Hmono; lia.
  - rewrite <- (fraction_zero (k - 1)). apply fraction_le; lia.
  - apply Qclt_le_weak. apply fraction_below_one.
    apply Nat.mod_upper_bound. lia.
Qed.

Lemma percentile_at_mono (i j : nat) :
  i <= j -> j < k -> (percentile_at s i k <= percentile_at s j k)%Qc.
Proof.
  intros Hij Hj.
  set (n := length s) in *.
  assert (Hq : i * (n - 1) / (k - 1) <= j * (n - 1) / (k - 1))
    by (apply Nat.Div0.div_le_mono; nia).
  pose proof (percentile_position j Hj) as Hpj. fold n in Hpj.
  destruct (Nat.eq_dec (i * (n - 1) / (k - 1)) (j * (n - 1) / (k - 1)))
    as [Heq|Hne].
  - unfold percentile_at. cbv zeta. fold n.
    destruct (k - 1 =? 0) eqn:E; [apply Nat.eqb_eq in E; lia|].
    cbn [fadd fmul fsub fone fzero Scalar_Qc]. rewrite <- Heq.
    apply interpolate_mono.
    + apply Hmono; unfold n in *; lia.
    + apply fraction_le; [lia|].
      pose proof (Nat.div_mod_eq (i * (n - 1)) (k - 1)) as Di.
      pose proof (Nat.div_mod_eq (j * (n - 1)) (k - 1)) as Dj.
      rewrite <- Heq in Dj. nia.
  - destruct (percentile_at_between i) as [_ Hi_hi]; [lia|].
    destruct (percentile_at_between j Hj) as [Hj_lo _].
    fold n in Hi_hi, Hj_lo.
    eapply Qcle_trans; [exact Hi_hi|].
    eapply Qcle_trans; [|exact Hj_lo].
    apply Hmono; unfold n in *; lia.
Qed.

Lemma percentile_at_first : percentile_at s 0 k = nth 0 s 0%Qc.
Proof.
  unfold percentile_at. cbv zeta.
  destruct (k - 1 =? 0) eqn:E; [apply Nat.eqb_eq in E; lia|].
  rewrite Nat.mul_0_l, Nat.Div0.div_0_l, Nat.Div0.mod_0_l.
  rewrite fraction_zero. cbn [fadd fmul fsub fone fzero Scalar_Qc]. ring.
Qed.

Lemma percentile_at_last :
  percentile_at s (k - 1) k = nth (length s - 1) s 0%Qc.
Proof.
  unfold percentile_at. cbv zeta.
  destruct (k - 1 =? 0) eqn:E; [apply Nat.eqb_eq in E; lia|].
  rewrite (Nat.mul_comm (k - 1)), Nat.Div0.mod_mul, Nat.div_mul by lia.
  rewrite fraction_zero. cbn [fadd fmul fsub fone fzero Scalar_Qc]. ring.
Qed.
End Percentiles.

Lemma sorted_map_seq (p : nat -> Qc) (len : nat) :
  forall a,
    (forall i, a <= i -> S i < a + len -> (p i <= p (S i))%Qc) ->
    Sorted Qcle (map p (seq a len)).
Proof.
  induction len as [|len IH]; intros a Hp; cbn [seq map]; [constructor|].
  apply Sorted_cons.
  - apply IH. intros i Hi Hlt. apply Hp; lia.
  - destruct len as [|len]; cbn [seq map]; [constructor|].
    apply HdRel_cons. apply Hp; lia.
Qed.

Lemma sorted_head_is_least (l : list Qc) :
  l <> [] ->
  In (hd 0%Qc (np_sort l)) l
  /\ forall d, In d l -> (hd 0%Qc (np_sort l) <= d)%Qc.
Proof.
  intros Hne.
  pose proof (sorted_strongly _ (np_sort_is_sorted l)) as Hss.
  pose proof (np_sort_length l) as Hlen.
  assert (Hpos : 0 < length l) by (destruct l; [contradiction|simpl; lia]).
  assert (Hhd : hd 0%Qc (np_sort l) = nth 0 (np_sort l) 0%Qc)
    by (destruct (np_sort l); reflexivity).
  rewrite Hhd. split.
  - apply np_sort_in. apply nth_In. lia.
  - intros d Hd. apply np_sort_in in Hd.
    apply (In_nth _ _ 0%Qc) in Hd. destruct Hd as (i & Hi & <-).
    apply (strongly_sorted_nth _ Hss); lia.
Qed.

Lemma sorted_last_is_greatest (l : list Qc) :
  l <> [] ->
  In (nth (length l - 1) (np_sort l) 0%Qc) l
  /\ forall d, In d l -> (d <= nth (length l - 1) (np_sort l) 0%Qc)%Qc.
Proof.
  intros Hne.
  pose proof (sorted_strongly _ (np_sort_is_sorted l)) as Hss.
  pose proof (np_sort_length l) as Hlen.
  assert (Hpos : 0 < length l) by (destruct l; [contradiction|simpl; lia]).
  split.
  - apply np_sort_in. apply nth_In. lia.
  - intros d Hd. apply np_sort_in in Hd.
    apply (In_nth _ _ 0%Qc) in Hd. destruct Hd as (i & Hi & <-).
    apply (strongly_sorted_nth _ Hss); lia.
Qed.

(** X1.  gen_knots: for data that is not empty and [n_knots >= 0], the call
    with [add_boundaries=True] returns the least sample, the [n_knots]
    knots the call with [add_boundaries=False] returns, and the greatest
    sample, in this order; the sequence is non-decreasing. *)
Theorem boundary_knots_are_the_extremes (data : list Qc) (n : Z) :
  data <> [] -> (0 <= n)%Z ->
  exists mn inner mx,
    gen_knots data n false = Ok inner
    /\ gen_knots data n true = Ok (mn :: inner ++ [mx])
    /\ length inner = Z.to_nat n
    /\ In mn data /\ (forall d, In d data -> (mn <= d)%Qc)
    /\ In mx data /\ (forall d, In d data -> (d <= mx)%Qc)
    /\ Sorted Qcle (mn :: inner ++ [mx]).
Proof.
  intros Hne Hn.
  set (s := np_sort data).
  set (m := Z.to_nat n).
  set (p := fun i => percentile_at s i (S (S m))).
  assert (Hk : Z.to_nat (n + 2) = S (S m)) by (unfold m; lia).
  assert (Hlen : length s = length data) by apply np_sort_length.
  assert (Hpos : 0 < length s)
    by (rewrite Hlen; destruct data; [contradiction|simpl; lia]).
  pose proof (strongly_sorted_nth _
                (sorted_strongly _ (np_sort_is_sorted data))) as Hmono.
  fold s in Hmono.
  assert (Hall : map p (seq 0 (S (S m)))
                 = p 0 :: map p (seq 1 m) ++ [p (S m)]).
  { change (seq 0 (S (S m))) with (0 :: seq 1 (S m)).
    rewrite seq_S, map_cons, map_app. reflexivity. }
  exists (p 0), (map p (seq 1 m)), (p (S m)).
  assert (Hfull : gen_knots data n true
                  = Ok (p 0 :: map p (seq 1 m) ++ [p (S m)])).
  { unfold gen_knots, np_percentile_linspace.
    destruct (n + 2 <? 0)%Z eqn:E; [apply Z.ltb_lt in E; lia|].
    destruct data as [|d0 data']; [contradiction|].
    cbn [rbind]. rewrite Hk. fold s. fold p. now rewrite Hall. }
  assert (Hinner : gen_knots data n false = Ok (map p (seq 1 m))).
  { unfold gen_knots, np_percentile_linspace.
    destruct (n + 2 <? 0)%Z eqn:E; [apply Z.ltb_lt in E; lia|].
    destruct data as [|d0 data']; [contradiction|].
    cbn [rbind]. rewrite Hk. fold s. fold p. rewrite Hall.
    cbn [tl]. now rewrite removelast_last. }
  assert (Hfirst : p 0 = hd 0%Qc s).
  { unfold p. rewrite percentile_at_first by lia.
    destruct s; reflexivity. }
  assert (Hlast : p (S m) = nth (length data - 1) s 0%Qc).
  { unfold p. replace (S m) with (S (S m) - 1) at 1 by lia.
    rewrite percentile_at_last by lia. now rewrite Hlen. }
  split; [exact Hinner|]. split; [exact Hfull|].
  split; [now rewrite length_map, length_seq|].
  rewrite Hfirst, Hlast.
  destruct (sorted_head_is_least data Hne) as [Hmin_in Hmin_le].
  destruct (sorted_last_is_greatest data Hne) as [Hmax_in Hmax_le].
  fold s in Hmin_in, Hmin_le, Hmax_in, Hmax_le.
  repeat split; try assumption.
  rewrite <- Hfirst, <- Hlast, <- Hall.
  apply sorted_map_seq. intros i _ Hi. unfold p.
  apply (percentile_at_mono s (S (S m)) Hmono Hpos); clear -Hi; lia.
Qed.

Lemma boundary_knots_are_the_extremes_witness :
  exists mn inner mx,
    gen_knots [qc 3 1; qc 1 1; qc 2 1] 1 false = Ok inner
    /\ gen_knots [qc 3 1; qc 1 1; qc 2 1] 1 true = Ok (mn :: inner ++ [mx])
    /\ length inner = 1
    /\ In mn [qc 3 1; qc 1 1; qc 2 1]
    /\ (forall d, In d [qc 3 1; qc 1 1; qc 2 1] -> (mn <= d)%Qc)
    /\ In mx [qc 3 1; qc 1 1; qc 2 1]
    /\ (forall d, In d [qc 3 1; qc 1 1; qc 2 1] -> (d <= mx)%Qc)
    /\ Sorted Qcle (mn :: inner ++ [mx]).
Proof.
  apply (boundary_knots_are_the_extremes [qc 3 1; qc 1 1; qc 2 1] 1).
  - discriminate.
  - lia.
Defined.

(** ** The order of samples and of knots *)

Lemma insert_sorted_permutation {F} `{Scalar F} (a : F) (l : list F) :
  Permutation (insert_sorted a l) (a :: l).
Proof.
  induction l as [|b l IH]; cbn [insert_sorted]; [apply Permutation_refl|].
  destruct (fleb a b); [apply Permutation_refl|].
  eapply perm_trans; [apply perm_skip; exact IH|]. apply perm_swap.
Qed.

Lemma np_sort_permutation {F} `{Scalar F} (l : list F) :
  Permutation (np_sort l) l.
Proof.
  induction l as [|a l IH]; cbn [np_sort fold_right];
    [apply Permutation_refl|].
  fold (np_sort l). eapply perm_trans; [apply insert_sorted_permutation|].
  now apply perm_skip.
Qed.

Lemma sorted_permutation_unique (l : list Qc) :
  forall l', Permutation l l' ->
             StronglySorted Qcle l -> StronglySorted Qcle l' -> l = l'.
Proof.
  induction l as [|a l IH]; intros l' Hp Hs Hs'.
  - apply Permutation_nil in Hp. now subst.
  - destruct l' as [|a' l'];
      [apply Permutation_sym, Permutation_nil in Hp; discriminate|].
    inversion Hs as [|? ? Hs1 Ha]; subst.
    inversion Hs' as [|? ? Hs1' Ha']; subst.
    rewrite Forall_forall in Ha, Ha'.
    assert (Haa : a = a').
    { apply Qcle_antisym.
      - assert (Hin : In a' (a :: l))
          by (eapply Permutation_in;
              [apply Permutation_sym; exact Hp|now left]).
        destruct Hin as [->|Hin]; [apply Qcle_refl|now apply Ha].
      - assert (Hin : In a (a' :: l'))
          by (eapply Permutation_in; [exact Hp|now left]).
        destruct Hin as [->|Hin]; [apply Qcle_refl|now apply Ha']. }
    subst a'. f_equal. apply IH; try assumption.
    now apply Permutation_cons_inv in Hp.
Qed.

Lemma np_sort_permuted (l l' : list Qc) :
  Permutation l l' -> np_sort l = np_sort l'.
Proof.
  intros Hp. apply sorted_permutation_unique.
  - eapply perm_trans; [apply np_sort_permutation|].
    eapply perm_trans; [exact Hp|].
    apply Permutation_sym, np_sort_permutation.
  - apply sorted_strongly, np_sort_is_sorted.
  - apply sorted_strongly, np_sort_is_sorted.
Qed.

(** X2.  gen_knots: the knots depend on the samples, not on the order in
    which they are given. *)
Theorem knots_ignore_sample_order
  (data data' : list Qc) (n : Z) (add_boundaries : bool) :
  Permutation data data' ->
  gen_knots data n add_boundaries = gen_knots data' n add_boundaries.
Proof.
  intros Hp. unfold gen_knots, np_percentile_linspace.
  destruct (n + 2 <? 0)%Z; [reflexivity|].
  rewrite (np_sort_permuted _ _ Hp).
  destruct data as [|d l], data' as [|d' l']; try reflexivity.
  - apply Permutation_nil in Hp. discriminate.
  - apply Permutation_sym, Permutation_nil in Hp. discriminate.
Qed.

Lemma knots_ignore_sample_order_witness :
  gen_knots [qc 3 1; qc 1 1; qc 2 1] 1 true
  = gen_knots [qc 1 1; qc 2 1; qc 3 1] 1 true.
Proof.
  apply (knots_ignore_sample_order [qc 3 1; qc 1 1; qc 2 1]
           [qc 1 1; qc 2 1; qc 3 1] 1 true).
  apply (Permutation_cons_append [qc 1 1; qc 2 1] (qc 3 1)).
Defined.

(** X3.  b_spline_basis: the basis depends on the knots given, not on their
    order. *)
Theorem basis_ignores_knot_order
  (x knots knots' : list Qc) (order : Z) :
  Permutation knots knots' ->
  b_spline_basis x knots order = b_spline_basis x knots' order.
Proof.
  intros Hp. unfold b_spline_basis.
  destruct (order <? 1)%Z; [reflexivity|].
  destruct knots as [|a l], knots' as [|a' l']; try reflexivity.
  - apply Permutation_nil in Hp. discriminate.
  - apply Permutation_sym, Permutation_nil in Hp. discriminate.
  - rewrite !aug_knots_value by discriminate.
    now rewrite (np_sort_permuted _ _ Hp).
Qed.

Lemma basis_ignores_knot_order_witness :
  b_spline_basis [qc 1 2] [qc 2 1; qc 0 1; qc 1 1] 4
  = b_spline_basis [qc 1 2] [qc 0 1; qc 1 1; qc 2 1] 4.
Proof.
  apply (basis_ignores_knot_order [qc 1 2] [qc 2 1; qc 0 1; qc 1 1]
           [qc 0 1; qc 1 1; qc 2 1] 4).
  apply (Permutation_cons_append [qc 0 1; qc 1 1] (qc 2 1)).
Defined.

(** ** Inside the knots the basis is local and bounded *)

Lemma Qc_sum_nonneg (u v : Qc) :
  (0 <= u)%Qc -> (0 <= v)%Qc -> (0 <= u + v)%Qc.
Proof. intros Hu Hv. qc_to_q. Lqa.lra. Qed.

Lemma entry_below_sum (c : list Qc) :
  (forall j, (0 <= nth j c 0%Qc)%Qc) ->
  (0 <= vsum c)%Qc /\ forall j, (nth j c 0%Qc <= vsum c)%Qc.
Proof.
  induction c as [|a c IH]; intros Hc.
  - split; [apply Qcle_refl|]. intros [|j]; apply Qcle_refl.
  - destruct IH as [Hs Hle]; [intros j; exact (Hc (S j))|].
    pose proof (Hc 0) as Ha. cbn [nth] in Ha.
    rewrite vsum_Qc_cons. split; [now apply Qc_sum_nonneg|].
    intros [|j]; cbn [nth].
    + clear -Ha Hs. qc_to_q. Lqa.lra.
    + specialize (Hle j). clear -Ha Hle. qc_to_q. Lqa.lra.
Qed.

Section DeBoorInside.
Variables (t : list Qc) (x : Qc) (k a : nat).

Hypothesis Hmono :
  forall i j, i <= j -> j < length t -> (nth i t 0%Qc <= nth j t 0%Qc)%Qc.
Hypothesis Ha_lo : k <= a + 1.
Hypothesis Ha_hi : a + k < length t.
Hypothesis Hlo : (nth a t 0%Qc <= x)%Qc.
Hypothesis Hhi : (x < nth (S a) t 0%Qc)%Qc.

Lemma blend_left_nonneg (lo hi c : Qc) :
  (lo <= x)%Qc -> (lo <= hi)%Qc -> (0 <= c)%Qc ->
  (0 <= blend x lo hi c (fsub x lo))%Qc.
Proof.
  intros H1 H2 H3. unfold blend.
  destruct (feqb hi lo); [apply Qcle_refl|].
  cbn [fmul fdiv fsub Scalar_Qc]. qc_to_q.
  apply Qmult_le_0_compat; [|exact H3].
  apply Qmult_le_0_compat; [Lqa.lra|].
  apply Qinv_le_0_compat. Lqa.lra.
Qed.

Lemma blend_right_nonneg (lo hi c : Qc) :
  (x <= hi)%Qc -> (lo <= hi)%Qc -> (0 <= c)%Qc ->
  (0 <= blend x lo hi c (fsub hi x))%Qc.
Proof.
  intros H1 H2 H3. unfold blend.
  destruct (feqb hi lo); [apply Qcle_refl|].
  cbn [fmul fdiv fsub Scalar_Qc]. qc_to_q.
  apply Qmult_le_0_compat; [|exact H3].
  apply Qmult_le_0_compat; [Lqa.lra|].
  apply Qinv_le_0_compat. Lqa.lra.
Qed.

Lemma recursion_row_nonneg (l : nat) (c : list Qc) :
  1 <= l -> l < k -> level t a l c ->
  (forall j, (0 <= nth j c 0%Qc)%Qc) ->
  forall j,
    (0 <= nth j (recursion_row t x (S l) (length t - S l) c) 0%Qc)%Qc.
Proof.
  intros Hl Hlk (Hlen & Hsup & _) Hc j.
  set (M := length t - S l).
  destruct (Nat.lt_ge_cases j M) as [HjM|HjM].
  - rewrite (recursion_row_nth t x k a Ha_lo Ha_hi)
      by (unfold M in *; lia).
    replace (S l - 1) with l by lia.
    apply Qc_sum_nonneg.
    + destruct (Qc_eq_dec (nth j c 0%Qc) 0%Qc) as [E|E].
      * rewrite E, blend_zero. apply Qcle_refl.
      * apply Hsup in E. apply blend_left_nonneg.
        -- eapply Qcle_trans; [|exact Hlo]. apply Hmono; lia.
        -- apply Hmono; unfold M in *; lia.
        -- apply Hc.
    + destruct (Qc_eq_dec (nth (S j) c 0%Qc) 0%Qc) as [E|E].
      * rewrite E, blend_zero. apply Qcle_refl.
      * apply Hsup in E. apply blend_right_nonneg.
        -- apply Qclt_le_weak. eapply Qclt_le_trans; [exact Hhi|].
           apply Hmono; unfold M in *; lia.
        -- apply Hmono; unfold M in *; lia.
        -- apply Hc.
  - rewrite nth_overflow; [apply Qcle_refl|].
    rewrite (recursion_row_length t x k a Ha_lo Ha_hi);
      unfold M in *; lia.
Qed.

Lemma recursion_loop_inside (count : nat) :
  forall (l : nat) (c : list Qc),
    1 <= l -> l + count = k -> level t a l c ->
    (forall j, (0 <= nth j c 0%Qc)%Qc) ->
    level t a k (recursion_loop t x count (S l) (length t - l) c)
    /\ forall j,
         (0 <= nth j (recursion_loop t x count (S l) (length t - l) c)
                    0%Qc)%Qc.
Proof.
  assert (Hact : (nth a t 0%Qc < nth (S a) t 0%Qc)%Qc)
    by (eapply Qcle_lt_trans; eassumption).
  induction count as [|count IH]; intros l c Hl Hk Hc Hn.
  - cbn [recursion_loop]. replace k with l by lia. now split.
  - cbn [recursion_loop].
    replace (length t - l - 1) with (length t - S l) by lia.
    apply IH; [lia|lia| |].
    + apply (recursion_row_level t x k a Hmono Ha_lo Ha_hi Hact);
        [exact Hl|lia|exact Hc].
    + apply recursion_row_nonneg; [exact Hl|lia|exact Hc|exact Hn].
Qed.
End DeBoorInside.

Lemma indicator_row_inside_nonneg (t : list Qc) (x : Qc) (order a : nat) :
  (forall i j, i <= j -> j < length t ->
               (nth i t 0%Qc <= nth j t 0%Qc)%Qc) ->
  a < length t - 1 ->
  (nth a t 0%Qc <= x)%Qc -> (x < nth (S a) t 0%Qc)%Qc ->
  forall j, (0 <= nth j (indicator_row t order x) 0%Qc)%Qc.
Proof.
  intros Hmono Ha Hlo Hhi j.
  assert (Hlast : fleb (last_knot t) x = false).
  { unfold last_knot. cbn [fleb fzero Scalar_Qc].
    rewrite last_nth. apply Qc_leb_false.
    eapply Qclt_le_trans; [exact Hhi|]. apply Hmono; lia. }
  assert (Hfirst : fltb x (first_knot t) = false).
  { unfold first_knot. cbn [fltb fzero Scalar_Qc].
    replace (hd 0%Qc t) with (nth 0 t 0%Qc) by (destruct t; reflexivity).
    apply Qc_ltb_false. eapply Qcle_trans; [|exact Hlo].
    apply Hmono; lia. }
  unfold indicator_row, extend_row. rewrite Hlast, Hfirst.
  destruct (Nat.lt_ge_cases j (length t - 1)) as [Hj|Hj].
  - rewrite (haar_row_inside t x Hmono a Ha Hlo Hhi j Hj).
    destruct (j =? a); [|apply Qcle_refl].
    apply Qc_leb_iff. reflexivity.
  - rewrite nth_overflow; [apply Qcle_refl|].
    now rewrite haar_row_length.
Qed.

(** The row of a sample that lies in the knot interval [i] of sorted
    knots. *)
Lemma inside_basis_row (knots : list Qc) (k i : nat) (x : Qc) :
  Sorted Qcle knots -> 1 <= k -> S i < length knots ->
  (nth i knots 0%Qc <= x)%Qc -> (x < nth (S i) knots 0%Qc)%Qc ->
  level (augmented knots k) (k - 1 + i) k
        (basis_row (augmented knots k) k x)
  /\ forall j, (0 <= nth j (basis_row (augmented knots k) k x) 0%Qc)%Qc.
Proof.
  intros Hs Hk Hi Hlo Hhi.
  assert (HK : 2 <= length knots) by lia.
  pose proof (aug_length knots k Hk HK) as HN.
  pose proof (aug_mono knots k Hs Hk HK) as Hmono.
  pose proof (aug_nth_mid knots k Hk HK i) as Hmid.
  pose proof (aug_nth_mid knots k Hk HK (S i)) as Hmid'.
  set (t := augmented knots k) in *.
  assert (Hlo' : (nth (k - 1 + i) t 0%Qc <= x)%Qc)
    by (rewrite Hmid by lia; exact Hlo).
  assert (Hhi' : (x < nth (S (k - 1 + i)) t 0%Qc)%Qc).
  { replace (S (k - 1 + i)) with (k - 1 + S i) by lia.
    rewrite Hmid' by lia. exact Hhi. }
  unfold basis_row.
  apply (recursion_loop_inside t x k (k - 1 + i) Hmono);
    try assumption; try lia.
  - apply (indicator_row_inside t x Hmono); [lia|exact Hlo'|exact Hhi'].
  - apply (indicator_row_inside_nonneg t x k (k - 1 + i) Hmono);
      [lia|exact Hlo'|exact Hhi'].
Qed.

Lemma b_spline_basis_rows (xs knots : list Qc) (order : Z) (B : mat Qc) :
  knots <> [] ->
  b_spline_basis xs knots order = Ok B ->
  (1 <= order)%Z
  /\ rows B = map (basis_row (augmented (np_sort knots) (Z.to_nat order))
                             (Z.to_nat order)) xs.
Proof.
  intros Hne. unfold b_spline_basis.
  destruct (Z.ltb_spec order 1) as [Hlt|Hge]; [discriminate|].
  rewrite (aug_knots_value knots (Z.to_nat order) Hne). cbn [rbind].
  destruct (_ <? _); [discriminate|].
  destruct (_ <=? _); [discriminate|].
  intros E. inversion E. split; [exact Hge|reflexivity].
Qed.

Lemma entry_of_rows (f : Qc -> list Qc) (xs : list Qc) (B : mat Qc)
  (r j : nat) :
  rows B = map f xs -> r < length xs ->
  entry B r j = nth j (f (nth r xs 0%Qc)) 0%Qc.
Proof.
  intros HB Hr. unfold entry. rewrite HB.
  rewrite (nth_indep _ [] (f 0%Qc)) by (now rewrite length_map).
  now rewrite map_nth.
Qed.

(** X4.  b_spline_basis: a sample that lies in the interval [i] of the
    sorted knots has its nonzero basis values in the [order] columns
    [i], ..., [i + order - 1]. *)
Theorem inside_rows_are_local
  (order : Z) (knots xs : list Qc) (B : mat Qc) (r i : nat) :
  b_spline_basis xs knots order = Ok B ->
  r < length xs -> S i < length knots ->
  (nth i (np_sort knots) 0%Qc <= nth r xs 0%Qc)%Qc ->
  (nth r xs 0%Qc < nth (S i) (np_sort knots) 0%Qc)%Qc ->
  forall j, entry B r j <> 0%Qc -> i <= j < i + Z.to_nat order.
Proof.
  intros HB Hr Hi Hlo Hhi j Hj.
  assert (Hne : knots <> []) by (intros ->; simpl in Hi; lia).
  destruct (b_spline_basis_rows xs knots order B Hne HB) as [Ho Hrows].
  rewrite (entry_of_rows _ xs B r j Hrows Hr) in Hj.
  destruct (inside_basis_row (np_sort knots) (Z.to_nat order) i
              (nth r xs 0%Qc)) as [(_ & Hsup & _) _];
    [apply np_sort_is_sorted|lia|now rewrite np_sort_length
    |exact Hlo|exact Hhi|].
  apply Hsup in Hj. lia.
Qed.

(** X5.  b_spline_basis: the basis values of a sample inside the range of
    the knots lie between 0 and 1. *)
Theorem inside_rows_are_between_zero_and_one
  (order : Z) (knots xs : list Qc) (B : mat Qc) (r i : nat) :
  b_spline_basis xs knots order = Ok B ->
  r < length xs -> S i < length knots ->
  (nth i (np_sort knots) 0%Qc <= nth r xs 0%Qc)%Qc ->
  (nth r xs 0%Qc < nth (S i) (np_sort knots) 0%Qc)%Qc ->
  forall j, (0 <= entry B r j)%Qc /\ (entry B r j <= 1)%Qc.
Proof.
  intros HB Hr Hi Hlo Hhi j.
  assert (Hne : knots <> []) by (intros ->; simpl in Hi; lia).
  destruct (b_spline_basis_rows xs knots order B Hne HB) as [Ho Hrows].
  rewrite (entry_of_rows _ xs B r j Hrows Hr).
  destruct (inside_basis_row (np_sort knots) (Z.to_nat order) i
              (nth r xs 0%Qc)) as [(_ & _ & Hsum) Hnn];
    [apply np_sort_is_sorted|lia|now rewrite np_sort_length
    |exact Hlo|exact Hhi|].
  split; [apply Hnn|].
  rewrite <- Hsum. now apply entry_below_sum.
Qed.

Lemma inside_rows_are_local_witness :
  exists B,
    b_spline_basis [qc 1 2] [qc 2 1; qc 0 1; qc 1 1] 3 = Ok B
    /\ forall j, entry B 0 j <> 0%Qc -> 0 <= j < 0 + Z.to_nat 3.
Proof.
  destruct (b_spline_basis [qc 1 2] [qc 2 1; qc 0 1; qc 1 1] 3)
    as [B|e] eqn:E.
  - exists B. split; [reflexivity|].
    apply (inside_rows_are_local 3 [qc 2 1; qc 0 1; qc 1 1] [qc 1 2]
             B 0 0 E).
    + simpl; lia.
    + simpl; lia.
    + qc_order.
    + qc_order.
  - vm_compute in E. discriminate.
Defined.

Lemma inside_rows_are_between_zero_and_one_witness :
  exists B,
    b_spline_basis [qc 3 2] [qc 2 1; qc 0 1; qc 1 1] 3 = Ok B
    /\ forall j, (0 <= entry B 0 j)%Qc /\ (entry B 0 j <= 1)%Qc.
Proof.
  destruct (b_spline_basis [qc 3 2] [qc 2 1; qc 0 1; qc 1 1] 3)
    as [B|e] eqn:E.
  - exists B. split; [reflexivity|].
    apply (inside_rows_are_between_zero_and_one 3
             [qc 2 1; qc 0 1; qc 1 1] [qc 3 2] B 0 1 E).
    + simpl; lia.
    + simpl; lia.
    + qc_order.
    + qc_order.
  - vm_compute in E. discriminate.
Defined.

(** ** When the basis is built and when it raises *)

Section BasisShape.
Context {F : Type} `{Scalar F}.

Lemma haar_row_len (t : list F) (x : F) :
  length (haar_row t x) = length t - 1.
Proof.
  unfold haar_row. rewrite zipWith_length, removelast_firstn_len.
  rewrite length_firstn. destruct t; simpl; lia.
Qed.

Lemma indicator_row_len (t : list F) (order : nat) (x : F) :
  length (indicator_row t order x) = length t - 1.
Proof.
  unfold indicator_row, extend_row.
  destruct (fleb _ _), (fltb _ _);
    rewrite ?set_nth_length; apply haar_row_len.
Qed.

Lemma recursion_row_len (t : list F) (x : F) (m maxi : nat) (c : list F) :
  1 <= m -> maxi + m <= length t -> maxi + 1 <= length c ->
  length (recursion_row t x m maxi c) = maxi.
Proof.
  intros Hm Ht Hc. unfold recursion_row.
  rewrite zipWith_length, !zipWith3_length.
  rewrite !slice_length by lia. lia.
Qed.

Lemma recursion_loop_len (t : list F) (x : F) (count : nat) :
  forall (m maxi : nat) (c : list F),
    1 <= m -> length c = maxi -> maxi + m = length t + 1 ->
    count <= maxi ->
    length (recursion_loop t x count m maxi c) = maxi - count.
Proof.
  induction count as [|count IH]; intros m maxi c Hm Hc Ht Hcount.
  - cbn [recursion_loop]. lia.
  - cbn [recursion_loop]. rewrite IH; try lia.
    apply recursion_row_len; lia.
Qed.

Lemma basis_row_len (t : list F) (k : nat) (x : F) :
  1 <= k -> k <= length t ->
  length (basis_row t k x) = length t - k.
Proof.
  intros Hk Ht. unfold basis_row.
  rewrite recursion_loop_len; try lia.
  apply indicator_row_len.
Qed.

(** A matrix the builder returns has one row per sample, and every row
    has one entry per basis. *)
Lemma b_spline_basis_well_shaped (x knots : list F) (order : Z)
  (B : mat F) :
  b_spline_basis x knots order = Ok B ->
  well_shaped B /\ nrows B = length x
  /\ ncols B = basis_width order knots.
Proof.
  intros HB.
  destruct (b_spline_basis_shape x knots order B HB) as (Hn & Hc & Hr).
  split; [|split; assumption].
  split; [congruence|].
  unfold b_spline_basis in HB.
  destruct (Z.ltb_spec order 1) as [Hlt|Hge]; [discriminate|].
  destruct (aug_knots_of knots (Z.to_nat order)) as [aug|e] eqn:Ea;
    [|discriminate].
  assert (HK : 1 <= length knots).
  { destruct knots; [discriminate|simpl; lia]. }
  pose proof (aug_knots_length _ _ _ Ea) as Hlen.
  cbn [rbind] in HB.
  destruct (_ <? _); [discriminate|].
  destruct (_ <=? _); [discriminate|].
  inversion HB. cbn [rows ncols].
  apply Forall_map, Forall_forall. intros xi _.
  apply basis_row_len; lia.
Qed.

Lemma b_spline_basis_outcome (xs knots : list F) (order : Z) :
  ((order < 1)%Z \/ knots = []) /\
    b_spline_basis xs knots order = Raise ValueError
  \/ ((1 <= order)%Z /\ knots <> []
      /\ length knots + Z.to_nat order <= 3) /\
     b_spline_basis xs knots order = Raise IndexError
  \/ ((1 <= order)%Z /\ knots <> []
      /\ 3 < length knots + Z.to_nat order) /\
     exists B, b_spline_basis xs knots order = Ok B.
Proof.
  unfold b_spline_basis.
  destruct (Z.ltb_spec order 1) as [Hlt|Hge]; [left; split; auto|].
  destruct knots as [|k0 knots'] eqn:Ek; [left; split; auto|].
  rewrite <- Ek.
  assert (Hne : knots <> []) by (rewrite Ek; discriminate).
  destruct (aug_knots_of knots (Z.to_nat order)) as [aug|e] eqn:Ea;
    [|rewrite Ek in Ea; discriminate Ea].
  pose proof (aug_knots_length _ _ _ Ea) as Hlen. cbn [rbind].
  assert (HK : 1 <= length knots) by (rewrite Ek; simpl; lia).
  right.
  destruct (Nat.ltb_spec (length aug - 1) (Z.to_nat order)) as [H1|H1];
    [left; split; [repeat split; assumption || lia|reflexivity]|].
  destruct (Nat.leb_spec (length aug - 1) (Z.to_nat order)) as [H2|H2];
    [left; split; [repeat split; assumption || lia|reflexivity]|].
  right. split; [repeat split; assumption || lia|].
  eexists; reflexivity.
Qed.

(** X6.  b_spline_basis: the call returns exactly when the order is at least
    one, there is a knot, and the knots and the order together count
    more than three, whatever the samples are.  It raises ValueError
    for an order below one or no knots, and IndexError, at one of the
    two boundary assignments, when the knots and the order count three
    or fewer (one knot with an order of 1 or 2, two knots with an order
    of 1).  A matrix it returns has one row per sample and as many
    columns as there are knots, plus the order, minus two. *)
Theorem basis_is_built_or_raises (xs knots : list F) (order : Z) :
  ((exists B, b_spline_basis xs knots order = Ok B)
   <-> (1 <= order)%Z /\ knots <> []
       /\ 3 < length knots + Z.to_nat order)
  /\ (b_spline_basis xs knots order = Raise ValueError
      <-> (order < 1)%Z \/ knots = [])
  /\ (b_spline_basis xs knots order = Raise IndexError
      <-> (1 <= order)%Z /\ knots <> []
          /\ length knots + Z.to_nat order <= 3)
  /\ (forall e, b_spline_basis xs knots order = Raise e ->
        e = ValueError \/ e = IndexError)
  /\ (forall B, b_spline_basis xs knots order = Ok B ->
        nrows B = length xs
        /\ ncols B = length knots + Z.to_nat order - 2
        /\ well_shaped B).
Proof.
  assert (Hshape : forall B, b_spline_basis xs knots order = Ok B ->
            nrows B = length xs
            /\ ncols B = length knots + Z.to_nat order - 2
            /\ well_shaped B).
  { intros B HB.
    destruct (b_spline_basis_well_shaped _ _ _ _ HB) as (Hw & Hn & Hc).
    split; [exact Hn|]. split; [|exact Hw].
    destruct (b_spline_basis_outcome xs knots order)
      as [[_ E]|[[_ E]|[(Ho & _ & _) _]]]; try congruence.
    rewrite Hc. unfold basis_width. lia. }
  split; [|split; [|split; [|split; [|exact Hshape]]]];
    destruct (b_spline_basis_outcome xs knots order)
      as [[Hc E]|[[(Ho & Hne & Hk) E]|[(Ho & Hne & Hk) [B E]]]];
    rewrite E.
  - split; [intros [B HB]; discriminate|].
    intros (Ho & Hne & _). destruct Hc; [lia|contradiction].
  - split; [intros [B HB]; discriminate|]. intros (_ & _ & Hk'). lia.
  - split; [intros _; auto|intros _; eauto].
  - split; [intros _; exact Hc|reflexivity].
  - split; [discriminate|]. intros [Hc|Hc]; [lia|contradiction].
  - split; [discriminate|]. intros [Hc|Hc]; [lia|contradiction].
  - split; [discriminate|].
    intros (Ho & Hne & _). destruct Hc; [lia|contradiction].
  - split; [intros _; auto|reflexivity].
  - split; [discriminate|]. intros (_ & _ & Hk'). lia.
  - intros e He. inversion He. now left.
  - intros e He. inversion He. now right.
  - intros e He. discriminate.
Qed.
End BasisShape.

(** ** The layout of the basis matrix *)

Lemma zipWith_Forall {A B C} (f : A -> B -> C)
  (P : A -> Prop) (Q : B -> Prop) (R : C -> Prop) :
  (forall a b, P a -> Q b -> R (f a b)) ->
  forall la lb, Forall P la -> Forall Q lb -> Forall R (zipWith f la lb).
Proof.
  intros Hf la. induction la as [|a la IH]; intros [|b lb] Ha Hb;
    cbn [zipWith]; try constructor.
  - inversion Ha; inversion Hb; subst. now apply Hf.
  - inversion Ha; inversion Hb; subst. now apply IH.
Qed.

Section BasesLayout.
Context {F : Type} `{Scalar F}.

Lemma bases_loop_blocks (pairs : list (list F * list F)) :
  forall (blocks blocks' : list (mat F)) (s s' : LogisticGAM F),
    bases_loop pairs blocks s = (Ok blocks', s') ->
    exists new,
      blocks' = blocks ++ new
      /\ Forall2 (fun pr B =>
                    b_spline_basis (fst pr) (snd pr) (spline_order s) = Ok B)
                 pairs new
      /\ n_bases_ s' = n_bases_ s ++ map (@ncols F) new
      /\ forall v, set_n_bases_ v s' = set_n_bases_ v s.
Proof.
  induction pairs as [|[x knots] rest IH]; intros blocks blocks' s s';
    cbn [bases_loop].
  - intros E. injection E as <- <-. exists [].
    rewrite !app_nil_r. repeat split; constructor.
  - unfold bind at 1, get. unfold bind at 1, lift.
    destruct (b_spline_basis x knots (spline_order s)) as [B|e] eqn:EB;
      [|discriminate].
    unfold bind at 1, modify. intros E. apply IH in E.
    destruct E as (new & -> & Hnew & Hn & Hset).
    exists (B :: new). cbn [spline_order set_n_bases_ n_bases_] in *.
    split; [now rewrite <- app_assoc|].
    split; [constructor; assumption|].
    split; [rewrite Hn; cbn [map]; now rewrite <- app_assoc|].
    intros v. now rewrite Hset.
Qed.

Lemma bases_value (X B : mat F) (s s' : LogisticGAM F)
  (ks : list (list F)) :
  knots_ s = Some ks ->
  bases_ X s = (Ok B, s') ->
  exists blocks,
    Forall2 (fun pr B =>
               b_spline_basis (fst pr) (snd pr) (spline_order s) = Ok B)
            (combine (columns X) ks) blocks
    /\ B = hstack (ones_column (nrows X)) blocks
    /\ n_bases_ s' = 1 :: map (@ncols F) blocks
    /\ forall v, set_n_bases_ v s' = set_n_bases_ v s.
Proof.
  intros Hk. unfold bases_.
  unfold bind at 1, modify. unfold bind at 1, get.
  cbn [knots_ set_n_bases_]. rewrite Hk.
  unfold bind at 1, need, ret.
  match goal with
  | |- context [bind (bases_loop ?a ?b) _ ?c] =>
      unfold bind at 1;
      destruct (bases_loop a b c) as [[blocks|e] s1] eqn:El;
      [|discriminate]
  end.
  intros E; injection E as <- <-.
  apply bases_loop_blocks in El.
  destruct El as (new & -> & Hnew & Hn & Hset).
  exists new. cbn [app spline_order set_n_bases_ n_bases_] in *.
  repeat split; assumption.
Qed.

Lemma hstack2_rows (n : nat) (A B : mat F) :
  length (rows A) = n -> length (rows B) = n ->
  Forall (fun r => length r = ncols A) (rows A) ->
  Forall (fun r => length r = ncols B) (rows B) ->
  length (rows (hstack2 A B)) = n
  /\ Forall (fun r => length r = ncols (hstack2 A B)) (rows (hstack2 A B))
  /\ forall i, i < n ->
       nth i (rows (hstack2 A B)) [] = nth i (rows A) [] ++ nth i (rows B) [].
Proof.
  intros HA HB HrA HrB. unfold hstack2. cbn [rows ncols].
  split; [rewrite zipWith_length; lia|]. split.
  - apply (zipWith_Forall _ _ _ _ (fun a b Ha Hb =>
             eq_trans (length_app a b) (f_equal2 Nat.add Ha Hb)));
      assumption.
  - intros i Hi. apply zipWith_nth; lia.
Qed.

Lemma hstack_rows (n : nat) (others : list (mat F)) :
  forall A0 : mat F,
    length (rows A0) = n ->
    Forall (fun r => length r = ncols A0) (rows A0) ->
    Forall (fun B => length (rows B) = n
                     /\ Forall (fun r => length r = ncols B) (rows B))
           others ->
    Forall (fun r => length r = ncols (hstack A0 others))
           (rows (hstack A0 others))
    /\ forall i, i < n ->
         nth i (rows (hstack A0 others)) []
         = nth i (rows A0) []
             ++ concat (map (fun B => nth i (rows B) []) others).
Proof.
  unfold hstack.
  induction others as [|B rest IH]; intros A0 HA HrA Ho; cbn [fold_left].
  - split; [exact HrA|]. intros i _. cbn [map concat].
    now rewrite app_nil_r.
  - inversion_clear Ho as [|? ? [HB HrB] Hrest].
    destruct (hstack2_rows n A0 B HA HB HrA HrB) as (H2n & H2r & H2i).
    destruct (IH (hstack2 A0 B) H2n H2r Hrest) as [Hr Hi].
    split; [exact Hr|]. intros i Hlt.
    rewrite (Hi i Hlt), (H2i i Hlt). cbn [map concat].
    now rewrite app_assoc.
Qed.
End BasesLayout.

Lemma Forall2_Forall_r {A B} (R : A -> B -> Prop) (Q : B -> Prop)
  (la : list A) (lb : list B) :
  Forall2 R la lb -> (forall a b, In a la -> R a b -> Q b) -> Forall Q lb.
Proof.
  induction 1 as [|a b la lb Hab _ IH]; intros HQ; constructor.
  - apply (HQ a b); [now left|exact Hab].
  - apply IH. intros a' b' Hin. apply HQ. now right.
Qed.

Section BasesTheorem.
Context {F : Type} `{Scalar F}.

Lemma blocks_of_bases (X : mat F) (ks : list (list F)) (order : Z)
  (blocks : list (mat F)) :
  Forall2 (fun pr B => b_spline_basis (fst pr) (snd pr) order = Ok B)
          (combine (columns X) ks) blocks ->
  Forall (fun B => length (rows B) = length (rows X)
                   /\ Forall (fun r => length r = ncols B) (rows B))
         blocks.
Proof.
  intros Hb. eapply Forall2_Forall_r; [exact Hb|].
  intros [x knots] B Hin HB. cbn [fst snd] in HB.
  apply b_spline_basis_well_shaped in HB.
  destruct HB as ([Hr Hw] & Hn & _). split; [|exact Hw].
  rewrite Hr, Hn.
  pose proof (columns_lengths X) as Hc. rewrite Forall_forall in Hc.
  apply Hc. eapply in_combine_l; eassumption.
Qed.

Lemma bases_row_count (X B : mat F) (s s' : LogisticGAM F)
  (ks : list (list F)) :
  knots_ s = Some ks -> length (rows X) = nrows X ->
  bases_ X s = (Ok B, s') ->
  length (rows B) = nrows B /\ nrows B = nrows X.
Proof.
  intros Hk HX HB.
  destruct (bases_value X B s s' ks Hk HB) as (blocks & Hb & -> & _).
  pose proof (blocks_of_bases X ks _ blocks Hb) as Hshape.
  rewrite HX in Hshape.
  destruct (hstack_shape (nrows X) blocks (ones_column (nrows X)))
    as (Hrows & _ & Hnrows).
  - unfold ones_column; cbn [rows]; apply repeat_length.
  - eapply Forall_impl; [|exact Hshape]. now intros B [HBn _].
  - split; [now rewrite Hrows, Hnrows|exact Hnrows].
Qed.

(** X7.  bases_: the matrix has one row per sample and a first column
    of ones; its width is the sum of the widths the call records in
    [n_bases_], a one for the intercept followed by the width of the
    basis of each feature that has knots. *)
Theorem basis_matrix_layout (X B : mat F) (s s' : LogisticGAM F)
  (ks : list (list F)) :
  knots_ s = Some ks -> length (rows X) = nrows X ->
  bases_ X s = (Ok B, s') ->
  well_shaped B /\ nrows B = nrows X
  /\ n_bases_ s'
     = 1 :: map (basis_width (spline_order s)) (firstn (ncols X) ks)
  /\ ncols B = list_sum (n_bases_ s')
  /\ forall i, i < nrows X -> entry B i 0 = fone.
Proof.
  intros Hk HX HB.
  pose proof (bases_widths X B s s' ks Hk HB) as Hw.
  destruct (bases_value X B s s' ks Hk HB) as (blocks & Hb & -> & Hn & _).
  pose proof (blocks_of_bases X ks _ blocks Hb) as Hshape.
  rewrite HX in Hshape.
  assert (Hones : length (rows (ones_column (F:=F) (nrows X))) = nrows X)
    by (unfold ones_column; cbn [rows]; apply repeat_length).
  assert (Hones_r : Forall (fun r => length r = ncols (ones_column (nrows X)))
                           (rows (ones_column (F:=F) (nrows X)))).
  { unfold ones_column; cbn [rows ncols]. apply Forall_forall.
    intros r Hr. apply repeat_spec in Hr. now subst r. }
  destruct (hstack_shape (nrows X) blocks (ones_column (nrows X)) Hones)
    as (Hrows & Hcols & Hnrows).
  { eapply Forall_impl; [|exact Hshape]. now intros B [HBn _]. }
  destruct (hstack_rows (nrows X) blocks (ones_column (nrows X))
              Hones Hones_r Hshape) as [Hlen Hrow].
  split; [split|].
  - rewrite Hrows, Hnrows. reflexivity.
  - exact Hlen.
  - split; [exact Hnrows|]. split; [exact Hw|]. split.
    + rewrite Hcols, Hn. reflexivity.
    + intros i Hi. unfold entry. rewrite (Hrow i Hi).
      unfold ones_column; cbn [rows].
      rewrite nth_repeat_lt by exact Hi. reflexivity.
Qed.
End BasesTheorem.

Lemma basis_matrix_layout_witness :
  exists B s',
    bases_ two_rows knotted_model = (Ok B, s')
    /\ well_shaped B /\ nrows B = 2
    /\ n_bases_ s' = [1; 3]
    /\ ncols B = list_sum (n_bases_ s')
    /\ forall i, i < 2 -> entry B i 0 = 1%Qc.
Proof.
  destruct (bases_ two_rows knotted_model) as [[B|e] s'] eqn:E.
  - exists B, s'. split; [reflexivity|].
    exact (basis_matrix_layout two_rows B knotted_model s'
             [[qc 0 1; qc 1 1; qc 2 1]] eq_refl eq_refl E).
  - vm_compute in E. discriminate.
Defined.

(** ** Feature columns and fitted knots *)

Lemma combine_firstn_l {A B} (la : list A) (lb : list B) :
  combine la lb = combine (firstn (length lb) la) lb.
Proof.
  revert lb; induction la as [|a la IH]; intros [|b lb]; simpl; auto.
  now rewrite <- IH.
Qed.

Lemma firstn_seq_le (p a n : nat) :
  p <= n -> firstn p (seq a n) = seq a p.
Proof.
  revert a n; induction p as [|p IH]; intros a [|n] Hle; simpl;
    try reflexivity; try lia.
  f_equal. apply IH. lia.
Qed.

Section FeatureColumns.
Context {F : Type} `{Scalar F} `{Transcendental F}.

Lemma leading_columns_pairs (X : mat F) (ks : list (list F)) :
  length ks <= ncols X ->
  combine (columns (leading_columns (length ks) X)) ks
  = combine (columns X) ks.
Proof.
  intros Hle. rewrite (combine_firstn_l (columns X) ks).
  f_equal. unfold columns, leading_columns. cbn [rows ncols].
  rewrite firstn_map, firstn_seq_le by exact Hle.
  apply map_ext_in. intros j Hj. apply in_seq in Hj.
  unfold column. rewrite map_map. apply map_ext. intros r.
  rewrite nth_firstn.
  destruct (Nat.ltb_spec j (length ks)); [reflexivity|lia].
Qed.

Lemma bases_of_pairs (X X' : mat F) (s : LogisticGAM F) :
  nrows X' = nrows X ->
  (forall ks, knots_ s = Some ks ->
              combine (columns X') ks = combine (columns X) ks) ->
  bases_ X' s = bases_ X s.
Proof.
  intros Hn Hp. unfold bases_, bind, modify, get, need, ret, raise.
  cbn [knots_ set_n_bases_].
  destruct (knots_ s) as [ks|] eqn:Hk; [|reflexivity].
  rewrite (Hp ks eq_refl), Hn. reflexivity.
Qed.

(** X8.  predict, predict_proba and bases_: columns of [X] beyond the
    number of fitted knot vectors are ignored; the call gives what it
    gives on the leading columns alone. *)
Theorem extra_features_are_ignored (X : mat F) (s : LogisticGAM F)
  (ks : list (list F)) :
  knots_ s = Some ks -> length ks <= ncols X ->
  bases_ X s = bases_ (leading_columns (length ks) X) s
  /\ predict_proba X s = predict_proba (leading_columns (length ks) X) s
  /\ predict X s = predict (leading_columns (length ks) X) s.
Proof.
  intros Hk Hle.
  assert (E : bases_ (leading_columns (length ks) X) s = bases_ X s).
  { apply bases_of_pairs; [reflexivity|].
    intros ks' Hk'. rewrite Hk in Hk'. injection Hk' as <-.
    now apply leading_columns_pairs. }
  assert (Ep : predict_proba X s
               = predict_proba (leading_columns (length ks) X) s).
  { unfold predict_proba, log_odds_, bind. now rewrite E. }
  split; [now rewrite E|]. split; [exact Ep|].
  unfold predict, bind. now rewrite Ep.
Qed.
End FeatureColumns.

Lemma extra_features_are_ignored_witness :
  bases_ two_wide_samples fresh_model_with_knots
  = bases_ (leading_columns 1 two_wide_samples) fresh_model_with_knots
  /\ predict_proba two_wide_samples fresh_model_with_knots
     = predict_proba (leading_columns 1 two_wide_samples)
         fresh_model_with_knots
  /\ predict two_wide_samples fresh_model_with_knots
     = predict (leading_columns 1 two_wide_samples) fresh_model_with_knots.
Proof.
  apply (extra_features_are_ignored two_wide_samples
           fresh_model_with_knots [[0%R; (1 / 2)%R; 1%R]] eq_refl).
  simpl. lia.
Defined.

Section MissingFeatures.
Context {F : Type} `{Scalar F} `{Transcendental F}.

Lemma hstack_ncols (others : list (mat F)) :
  forall A0 : mat F,
    ncols (hstack A0 others) = ncols A0 + list_sum (map (@ncols F) others).
Proof.
  unfold hstack.
  induction others as [|B rest IH]; intros A0; simpl.
  - lia.
  - rewrite IH. unfold hstack2. cbn [ncols]. lia.
Qed.

Lemma widths_of_fewer (w : list F -> nat) (ks : list (list F)) (q : nat) :
  q < length ks -> Forall (fun k => 0 < w k) ks ->
  list_sum (map w (firstn q ks)) < list_sum (map w ks).
Proof.
  revert q; induction ks as [|k ks IH]; intros q Hq Hpos;
    [simpl in Hq; lia|].
  inversion_clear Hpos as [|? ? Hk Hks].
  destruct q as [|q]; simpl.
  - lia.
  - simpl in Hq. specialize (IH q ltac:(lia) Hks). lia.
Qed.

(** X9.  predict and predict_proba: on samples with fewer feature columns
    than the model has knot vectors the call never returns a
    prediction; it raises. *)
Theorem missing_features_raise (X : mat F) (s : LogisticGAM F)
  (ks : list (list F)) (b : coef F) :
  knots_ s = Some ks -> b_ s = Some b ->
  ncols X < length ks ->
  Forall (fun k => 0 < basis_width (spline_order s) k) ks ->
  length (coef_values b)
  = 1 + list_sum (map (basis_width (spline_order s)) ks) ->
  exists e s',
    predict_proba X s = (Raise e, s') /\ predict X s = (Raise e, s').
Proof.
  intros Hk Hb Hq Hpos Hlen.
  assert (Hp : exists e s', predict_proba X s = (Raise e, s')).
  { unfold predict_proba, log_odds_, bind.
    destruct (bases_ X s) as [[B|e] s1] eqn:EB; [|eauto].
    pose proof (bases_widths X B s s1 ks Hk EB) as Hw.
    destruct (bases_value X B s s1 ks Hk EB) as (blocks & _ & -> & Hn & Hs).
    assert (Hb1 : b_ s1 = Some b).
    { rewrite <- Hb.
      change (b_ s1) with (b_ (set_n_bases_ [] s1)).
      now rewrite (Hs []). }
    unfold get, need, ret. rewrite Hb1. unfold lift, dot_coef.
    rewrite hstack_ncols. unfold ones_column at 1. cbn [ncols].
    assert (Hsum : list_sum (map (@ncols F) blocks)
                   = list_sum (map (basis_width (spline_order s))
                                   (firstn (ncols X) ks))).
    { rewrite Hn in Hw. injection Hw as Hw. now rewrite Hw. }
    pose proof (widths_of_fewer (basis_width (spline_order s)) ks
                  (ncols X) Hq Hpos) as Hlt.
    destruct (Nat.eqb_spec (1 + list_sum (map (@ncols F) blocks))
                (length (coef_values b))) as [E|_]; [lia|].
    eauto. }
  destruct Hp as (e & s' & Hp). exists e, s'. split; [exact Hp|].
  unfold predict, bind. now rewrite Hp.
Qed.

(** X10.  predict and predict_proba: a model without knots (one that was
    never fitted) raises TypeError, and the call has already reset the
    recorded widths to the intercept alone. *)
Theorem unfitted_model_cannot_predict (X : mat F) (s : LogisticGAM F) :
  knots_ s = None ->
  predict_proba X s = (Raise TypeError, set_n_bases_ [1] s)
  /\ predict X s = (Raise TypeError, set_n_bases_ [1] s).
Proof.
  intros Hk.
  assert (Hp : predict_proba X s = (Raise TypeError, set_n_bases_ [1] s)).
  { unfold predict_proba, log_odds_, bases_, bind, modify, get, need,
      raise. cbn [knots_ set_n_bases_]. now rewrite Hk. }
  split; [exact Hp|]. unfold predict, bind. now rewrite Hp.
Qed.
End MissingFeatures.

Lemma missing_features_raise_witness :
  exists e s',
    predict_proba featureless_samples model_with_coefficients
    = (Raise e, s')
    /\ predict featureless_samples model_with_coefficients = (Raise e, s').
Proof.
  apply (missing_features_raise featureless_samples
           model_with_coefficients [[0%R; (1 / 2)%R; 1%R]]
           (Flat (repeat 0%R 6)) eq_refl eq_refl).
  - simpl. lia.
  - constructor; [|constructor]. vm_compute. lia.
  - reflexivity.
Defined.

Lemma unfitted_model_cannot_predict_witness :
  predict_proba two_samples fresh_model
  = (Raise TypeError, set_n_bases_ [1] fresh_model)
  /\ predict two_samples fresh_model
     = (Raise TypeError, set_n_bases_ [1] fresh_model).
Proof.
  apply (unfitted_model_cannot_predict two_samples fresh_model).
  reflexivity.
Defined.

(** ** What fitting changes and what it leaves *)

Section FitFrame.
Context {F : Type} `{Scalar F} `{Transcendental F}.
Variable sparse_inv : mat F -> result (mat F).
Variable shuffle : list nat -> list nat.

(** X11.  fit: however the call ends, the six hyperparameters are what they
    were.  When the knots of a feature cannot be generated the call
    raises the error of the generation and the model is untouched;
    otherwise [knots_] holds the quantile knots of every feature column
    from then on, also when the iterations raise later. *)
Theorem fit_keeps_hyperparameters_and_sets_knots
  (X : mat F) (y : list F) (s : LogisticGAM F) :
  (n_iter (snd (fit sparse_inv shuffle X y s)) = n_iter s
   /\ lam (snd (fit sparse_inv shuffle X y s)) = lam s
   /\ tol (snd (fit sparse_inv shuffle X y s)) = tol s
   /\ n_knots (snd (fit sparse_inv shuffle X y s)) = n_knots s
   /\ diff_order (snd (fit sparse_inv shuffle X y s)) = diff_order s
   /\ spline_order (snd (fit sparse_inv shuffle X y s)) = spline_order s)
  /\ (forall ks,
        rmap (fun feat => gen_knots feat (n_knots s) true) (columns X)
        = Ok ks ->
        knots_ (snd (fit sparse_inv shuffle X y s)) = Some ks)
  /\ (forall e,
        rmap (fun feat => gen_knots feat (n_knots s) true) (columns X)
        = Raise e ->
        fit sparse_inv shuffle X y s = (Raise e, s)).
Proof.
  set (p := fun t : LogisticGAM F =>
              (n_iter t, lam t, tol t, n_knots t, diff_order t,
               spline_order t, knots_ t)).
  assert (Hp : forall t, p (snd (pirls_ sparse_inv shuffle X y t)) = p t).
  { apply (pirls_preserves sparse_inv shuffle p X y);
      intros; reflexivity. }
  unfold fit, bind, get, lift, modify.
  destruct (rmap (fun feat => gen_knots feat (n_knots s) true) (columns X))
    as [ks|e] eqn:Ek.
  - specialize (Hp (set_knots_ (Some ks) s)). unfold p in Hp.
    cbn [n_iter lam tol n_knots diff_order spline_order knots_ set_knots_]
      in Hp.
    injection Hp as H1 H2 H3 H4 H5 H6 H7.
    split; [repeat split; assumption|]. split.
    + intros ks' E. injection E as <-. exact H7.
    + intros e E. discriminate.
  - cbn [snd]. split; [repeat split|]. split.
    + intros ks E. discriminate.
    + intros e' E. now injection E as <-.
Qed.
End FitFrame.

Section Logs.
Context {F : Type} `{Scalar F} `{Transcendental F}.
Variable sparse_inv : mat F -> result (mat F).
Variable shuffle : list nat -> list nat.

Lemma logs_extended_refl (n : nat) (s s' : LogisticGAM F) :
  acc s' = acc s -> nll s' = nll s -> diffs s' = diffs s ->
  logs_extended n s s'.
Proof.
  intros Ha Hl Hd. exists [], [], [].
  rewrite !app_nil_r. simpl. repeat split; auto; lia.
Qed.

Lemma pirls_loop_logs (fuel : nat) (bases P X : mat F) (y : list F) :
  forall s : LogisticGAM F,
    logs_extended fuel s
      (snd (pirls_loop sparse_inv shuffle fuel bases P X y s)).
Proof.
  induction fuel as [|fuel IH]; intros s.
  - cbn [pirls_loop]. unfold ret. cbn [snd].
    now apply logs_extended_refl.
  - rewrite pirls_loop_step.
    destruct (b_ s) as [b|]; [|now apply logs_extended_refl].
    destruct (dot_coef bases b) as [log_odds|e];
      [|now apply logs_extended_refl].
    cbv zeta.
    destruct (accuracy_ y (proba_ log_odds)) as [a0|e];
      [|now apply logs_extended_refl].
    set (s2 := logged s y (proba_ log_odds) a0).
    assert (H2 : logs_extended (S fuel) s s2).
    { exists [a0], [fneg (loglik y (proba_ log_odds))], [].
      unfold s2, logged. cbn [acc nll diffs set_nll set_acc length].
      rewrite app_nil_r. repeat split; lia. }
    destruct (saturated (proba_ log_odds)); [exact H2|].
    destruct (pirls_update sparse_inv bases P y log_odds (proba_ log_odds))
      as [[[[b_new inner] BW] weights]|e]; [|exact H2].
    destruct (np_sub b b_new) as [d|e]; [|exact H2].
    set (diff := recorded_change d b_new).
    set (s3 := updated s2 diff b_new).
    assert (H3 : acc s3 = acc s ++ [a0]
                 /\ nll s3 = nll s ++ [fneg (loglik y (proba_ log_odds))]
                 /\ diffs s3 = diffs s ++ [diff]).
    { unfold s3, updated, s2, logged.
      cbn [acc nll diffs set_b_ set_diffs set_nll set_acc].
      repeat split. }
    destruct H3 as (Ha3 & Hl3 & Hd3).
    destruct (fltb diff (tol s)).
    + pose proof (diagnostics_preserves shuffle
                    (fun t : LogisticGAM F => (acc t, nll t, diffs t))
                    ltac:(intros; reflexivity) ltac:(intros; reflexivity)
                    ltac:(intros; reflexivity) ltac:(intros; reflexivity)
                    ltac:(intros; reflexivity)
                    X y (proba_ log_odds) bases inner BW weights s3) as Hd.
      destruct (diagnostics shuffle X y (proba_ log_odds) bases inner BW
                  weights s3) as [r s4].
      cbn [snd] in Hd. injection Hd as Ha4 Hl4 Hd4.
      assert (H4 : logs_extended (S fuel) s s4).
      { exists [a0], [fneg (loglik y (proba_ log_odds))], [diff].
        rewrite (eq_trans Ha4 Ha3), (eq_trans Hl4 Hl3), (eq_trans Hd4 Hd3).
        simpl. repeat split; lia. }
      destruct r; exact H4.
    + destruct (IH s3) as (a & l & d' & Ha & Hl & Hd & E1 & E2 & E3 & E4).
      exists (a0 :: a), (fneg (loglik y (proba_ log_odds)) :: l),
        (diff :: d').
      rewrite Ha, Hl, Hd, Ha3, Hl3, Hd3, <- !app_assoc. simpl.
      repeat split; lia.
Qed.

Lemma logs_extended_from (n : nat) (s t t' : LogisticGAM F) :
  acc t = acc s -> nll t = nll s -> diffs t = diffs s ->
  logs_extended n t t' -> logs_extended n s t'.
Proof.
  intros Ha Hl Hd (a & l & d & E1 & E2 & E3 & E).
  exists a, l, d. rewrite E1, E2, E3, Ha, Hl, Hd. tauto.
Qed.

Lemma pirls_logs (X : mat F) (y : list F) (s : LogisticGAM F) :
  logs_extended (Z.to_nat (n_iter s)) s
    (snd (pirls_ sparse_inv shuffle X y s)).
Proof.
  pose proof (bases_preserves
                (fun t : LogisticGAM F =>
                   (acc t, nll t, diffs t, n_iter t))
                ltac:(intros; reflexivity) X s) as Hb.
  unfold pirls_, bind, get.
  destruct (bases_ X s) as [[bases|e] s1]; cbn [snd] in Hb;
    injection Hb as Ha Hl Hd Hn.
  - set (s2 := match b_ s1 with
               | None => set_b_ (Some (Column (repeat fzero (ncols bases))))
                           s1
               | Some _ => s1
               end).
    assert (Hs2 : acc s2 = acc s /\ nll s2 = nll s /\ diffs s2 = diffs s
                  /\ n_iter s2 = n_iter s).
    { unfold s2. destruct (b_ s1); cbn [acc nll diffs n_iter set_b_];
        auto. }
    destruct Hs2 as (Ha2 & Hl2 & Hd2 & Hn2).
    assert (E : (match b_ s1 with
                 | Some _ => ret tt
                 | None =>
                     modify
                       (set_b_ (Some (Column (repeat fzero (ncols bases)))))
                 end) s1 = (Ok tt, s2)).
    { unfold s2. destruct (b_ s1); reflexivity. }
    rewrite E. unfold lift.
    destruct (P_ s2) as [P|e]; cbn [snd].
    + rewrite <- Hn2. eapply logs_extended_from; eauto.
      apply pirls_loop_logs.
    + now apply logs_extended_refl.
  - now apply logs_extended_refl.
Qed.

(** X12.  pirls_ and fit: however the call ends, the three logs are only
    appended to: nothing logged before is changed or removed, an
    accuracy and a likelihood are logged together, at most [n_iter] of
    each, and the relative changes number as many or one fewer. *)
Theorem logs_only_grow (X : mat F) (y : list F) (s : LogisticGAM F) :
  logs_extended (Z.to_nat (n_iter s)) s
    (snd (pirls_ sparse_inv shuffle X y s))
  /\ logs_extended (Z.to_nat (n_iter s)) s
       (snd (fit sparse_inv shuffle X y s)).
Proof.
  split; [apply pirls_logs|].
  unfold fit, bind, get, lift, modify.
  destruct (rmap _ _) as [ks|e]; cbn [snd].
  - apply (logs_extended_from _ s (set_knots_ (Some ks) s));
      try reflexivity.
    apply (pirls_logs X y (set_knots_ (Some ks) s)).
  - now apply logs_extended_refl.
Qed.
End Logs.

(** ** Predicting with a fitted model *)

Section BasesRun.
Context {F : Type} `{Scalar F}.

Lemma set_n_bases_same (s : LogisticGAM F) :
  set_n_bases_ (n_bases_ s) s = s.
Proof. destruct s; reflexivity. Qed.

Lemma bases_loop_run (pairs : list (list F * list F)) :
  forall (blocks new : list (mat F)) (s : LogisticGAM F),
    Forall2 (fun pr B =>
               b_spline_basis (fst pr) (snd pr) (spline_order s) = Ok B)
            pairs new ->
    bases_loop pairs blocks s
    = (Ok (blocks ++ new),
       set_n_bases_ (n_bases_ s ++ map (@ncols F) new) s).
Proof.
  induction pairs as [|[x knots] rest IH]; intros blocks new s Hnew;
    inversion Hnew as [|? B ? new' HB Hrest]; subst; cbn [bases_loop].
  - unfold ret. cbn [map]. now rewrite !app_nil_r, set_n_bases_same.
  - cbn [fst snd] in HB. unfold bind, get, lift, modify. rewrite HB.
    rewrite (IH (blocks ++ [B]) new'
                (set_n_bases_ (n_bases_ s ++ [ncols B]) s) Hrest).
    cbn [n_bases_ set_n_bases_ map].
    now rewrite <- !app_assoc.
Qed.

Lemma bases_run (X : mat F) (s : LogisticGAM F) (ks : list (list F))
  (blocks : list (mat F)) :
  knots_ s = Some ks ->
  Forall2 (fun pr B =>
             b_spline_basis (fst pr) (snd pr) (spline_order s) = Ok B)
          (combine (columns X) ks) blocks ->
  bases_ X s
  = (Ok (hstack (ones_column (nrows X)) blocks),
     set_n_bases_ (1 :: map (@ncols F) blocks) s).
Proof.
  intros Hk Hb. unfold bases_, bind, modify, get, need, ret.
  cbn [knots_ set_n_bases_]. rewrite Hk.
  rewrite (bases_loop_run _ [] blocks (set_n_bases_ [1] s) Hb).
  reflexivity.
Qed.
End BasesRun.

Section FitThenPredict.
Context {F : Type} `{Scalar F} `{Transcendental F}.
Variable sparse_inv : mat F -> result (mat F).
Variable shuffle : list nat -> list nat.

(** A matrix the inverse returns has as many rows as its argument. *)
Hypothesis inv_shape :
  forall A A', sparse_inv A = Ok A' -> length (rows A') = nrows A.

Lemma coef_step_length (bases P : mat F) (y : list F) (b c : coef F) :
  coef_step sparse_inv bases P y b = Ok c ->
  length (coef_values b) = ncols bases
  /\ length (coef_values c) = ncols bases.
Proof.
  unfold coef_step, dot_coef.
  destruct (Nat.eqb_spec (ncols bases) (length (coef_values b)))
    as [E|_]; [|discriminate].
  cbn [rbind]. unfold pirls_update.
  destruct (sparse_inv _) as [inner|e] eqn:Ei; [|discriminate].
  apply inv_shape in Ei. cbn [rbind fst]. intros Hc.
  injection Hc as <-. split; [now symmetry|].
  cbn [coef_values]. unfold matvec, matmul. cbn [rows].
  now rewrite !length_map, Ei.
Qed.

Lemma coef_after_length (bases P : mat F) (y : list F) (k : nat) :
  forall b c : coef F,
    coef_after sparse_inv bases P y k b = Ok c ->
    (k = 0 /\ c = b) \/ length (coef_values c) = ncols bases.
Proof.
  induction k as [|k IH]; intros b c; cbn [coef_after].
  - intros E. injection E as <-. now left.
  - destruct (coef_step sparse_inv bases P y b) as [b1|e] eqn:Es;
      [|discriminate].
    cbn [rbind]. intros E. right.
    destruct (IH b1 c E) as [[_ ->]|Hl]; [|exact Hl].
    now apply coef_step_length in Es.
Qed.

(** X13.  fit, then predict: a model that fit returned, from a model without
    coefficients or with at least one iteration to run, predicts on the
    samples it was fitted on: predict_proba and predict return one
    value per sample, whatever way the iterations ended. *)
Theorem fitted_model_predicts
  (X : mat F) (y : list F) (s s1 : LogisticGAM F) (e : pirls_exit) :
  b_ s = None \/ (1 <= n_iter s)%Z ->
  length (rows X) = nrows X ->
  fit sparse_inv shuffle X y s = (Ok e, s1) ->
  exists pr s2,
    predict_proba X s1 = (Ok pr, s2)
    /\ length pr = nrows X
    /\ predict X s1 = (Ok (map (fun v => fltb (lit (1 # 2)) v) pr), s2).
Proof.
  intros Hfresh HX Hfit.
  assert (Hp : exists ks,
             pirls_ sparse_inv shuffle X y (set_knots_ (Some ks) s)
             = (Ok e, s1)).
  { unfold fit, bind, get, lift, modify in Hfit.
    destruct (rmap _ _) as [ks|err]; [|discriminate]. eauto. }
  destruct Hp as [ks Hp].
  set (s0 := set_knots_ (Some ks) s) in *.
  assert (Hframe : knots_ s1 = Some ks /\ spline_order s1 = spline_order s).
  { pose proof (pirls_preserves sparse_inv shuffle
                  (fun t : LogisticGAM F => (knots_ t, spline_order t))
                  X y
                  ltac:(intros; reflexivity) ltac:(intros; reflexivity)
                  ltac:(intros; reflexivity) ltac:(intros; reflexivity)
                  ltac:(intros; reflexivity) ltac:(intros; reflexivity)
                  ltac:(intros; reflexivity) ltac:(intros; reflexivity)
                  ltac:(intros; reflexivity) ltac:(intros; reflexivity)
                  s0) as Hpr.
    rewrite Hp in Hpr. cbn [snd] in Hpr. injection Hpr as Hk Ho.
    split; assumption. }
  destruct Hframe as [Hk1 Ho1].
  destruct (pirls_decompose sparse_inv shuffle X y s0 s1 e Hp)
    as (bases & P & b0 & sC & Hbases & Hb0 & _ & HbC & _ & HnC & _ & _
        & Hloop).
  destruct (pirls_loop_exits sparse_inv shuffle _ bases P X y sC s1 e b0
              HbC Hloop)
    as (k & b' & ds & Hk & Hco & _ & Hb' & _ & Hds & _ & He).
  destruct (bases_ X s0) as [r0 s0'] eqn:EB. cbn [fst] in Hbases.
  subst r0.
  destruct (bases_row_count X bases s0 s0' ks eq_refl HX EB)
    as [Hrows Hn].
  destruct (bases_value X bases s0 s0' ks eq_refl EB)
    as (blocks & Hblocks & Hval & _).
  assert (Hlen : length (coef_values b') = ncols bases).
  { destruct (coef_after_length bases P y k b0 b' Hco) as [[-> ->]|Hl];
      [|exact Hl].
    unfold s0 in Hb0. cbn [b_ set_knots_] in Hb0.
    destruct (b_ s) as [b|] eqn:Ebs.
    - destruct Hfresh as [Hnone|Hiter]; [discriminate|].
      cbn [n_iter set_knots_] in *.
      destruct e.
      + destruct He as (_ & ds0 & d & -> & _).
        rewrite length_app in Hds. simpl in Hds. lia.
      + destruct He as (_ & _ & pr & Hpr & _).
        unfold proba_at, dot_coef in Hpr.
        destruct (Nat.eqb_spec (ncols bases) (length (coef_values b0)))
          as [E|_]; [now symmetry|discriminate].
      + destruct He as (_ & _ & Hfuel). unfold s0 in Hfuel.
        cbn [n_iter set_knots_] in Hfuel. lia.
    - rewrite Hb0. cbn [coef_values]. apply repeat_length. }
  assert (Hrun : bases_ X s1
                 = (Ok bases, set_n_bases_ (1 :: map (@ncols F) blocks) s1)).
  { rewrite Hval. apply (bases_run X s1 ks blocks Hk1).
    rewrite Ho1. exact Hblocks. }
  assert (Hpp : predict_proba X s1
                = (Ok (proba_ (matvec bases (coef_values b'))),
                   set_n_bases_ (1 :: map (@ncols F) blocks) s1)).
  { unfold predict_proba, log_odds_, bind. rewrite Hrun.
    unfold get, need. cbn [b_ set_n_bases_]. rewrite Hb'.
    unfold ret, lift, dot_coef. rewrite Hlen, Nat.eqb_refl. reflexivity. }
  exists (proba_ (matvec bases (coef_values b'))),
    (set_n_bases_ (1 :: map (@ncols F) blocks) s1).
  split; [exact Hpp|]. split.
  - unfold proba_, matvec. rewrite !length_map. congruence.
  - unfold predict, bind. rewrite Hpp. reflexivity.
Qed.
End FitThenPredict.

Lemma some_inverse_shape (A A' : mat R) :
  some_inverse A = Ok A' -> length (rows A') = nrows A.
Proof.
  unfold some_inverse. intros E. injection E as <-.
  unfold np_eye. cbn [rows]. now rewrite length_map, length_seq.
Qed.

Lemma fitted_model_predicts_witness :
  exists e s1,
    fit some_inverse no_shuffle two_samples two_labels fresh_model
    = (Ok e, s1)
    /\ exists pr s2,
         predict_proba two_samples s1 = (Ok pr, s2)
         /\ length pr = 2
         /\ predict two_samples s1
            = (Ok (map (fun v => fltb (lit (1 # 2)) v) pr), s2).
Proof.
  destruct fresh_fit_returns as (e & s1 & E).
  exists e, s1. split; [exact E|].
  apply (fitted_model_predicts some_inverse no_shuffle some_inverse_shape
           two_samples two_labels fresh_model s1 e).
  - left. reflexivity.
  - reflexivity.
  - exact E.
Defined.

(** ** A negative order of the difference penalty *)

Section NegativeOrder.
Context {F : Type} `{Scalar F} `{Transcendental F}.
Variable sparse_inv : mat F -> result (mat F).
Variable shuffle : list nat -> list nat.

Lemma P_negative_order (t : LogisticGAM F) (w : nat) (rest : list nat) :
  (diff_order t < 0)%Z -> n_bases_ t = 1 :: w :: rest -> w <> 1 ->
  P_ t = Raise ValueError.
Proof.
  intros Hd Hn Hw. unfold P_. rewrite Hn. cbn [rmap].
  unfold proto_P_ at 1. cbn [Nat.eqb rbind].
  unfold proto_P_ at 1.
  destruct (Nat.eqb_spec w 1) as [E|_]; [contradiction|].
  unfold np_diff.
  destruct (Z.ltb_spec (diff_order t) 0) as [_|Hge]; [|lia].
  reflexivity.
Qed.

(** X14.  fit: a model with a negative [diff_order], which the constructor
    accepts, cannot be fitted: on data with at least one sample and one
    feature the call raises ValueError, when the penalty is built. *)
Theorem negative_diff_order_fails_the_fit
  (X : mat F) (y : list F) (s : LogisticGAM F) :
  (diff_order s < 0)%Z ->
  (0 <= n_knots s)%Z -> (1 <= spline_order s)%Z ->
  (2 <= n_knots s + spline_order s)%Z ->
  0 < nrows X -> 0 < ncols X -> length (rows X) = nrows X ->
  fst (fit sparse_inv shuffle X y s) = Raise ValueError.
Proof.
  intros Hd Hn Ho Hno Hr Hc HX.
  destruct (rmap_returns
              (fun feat => gen_knots feat (n_knots s) true)
              (fun k => length k = Z.to_nat (n_knots s + 2))
              (columns X)) as (ks & Eks & Hks).
  { intros c Hin. apply gen_knots_returns; [|exact Hn].
    pose proof (columns_lengths X) as Hl. rewrite Forall_forall in Hl.
    intros ->. apply Hl in Hin. simpl in Hin. lia. }
  assert (Hlen : length ks = ncols X).
  { apply rmap_length in Eks. rewrite Eks. unfold columns.
    now rewrite length_map, length_seq. }
  unfold fit, bind, get, lift, modify. rewrite Eks.
  set (s0 := set_knots_ (Some ks) s).
  destruct (bases_returns X s0 ks eq_refl) as (B & s' & EB & _).
  { exact Ho. }
  { eapply Forall_impl; [|exact Hks]. intros k Hk. cbv beta in Hk.
    unfold usable_knots, s0. cbn [spline_order set_knots_].
    split; [|lia].
    intros ->. simpl in Hk. lia. }
  { exact HX. }
  pose proof (bases_widths X B s0 s' ks eq_refl EB) as Hw.
  pose proof (bases_preserves
                (fun t : LogisticGAM F => diff_order t)
                ltac:(intros; reflexivity) X s0) as Hdo.
  rewrite EB in Hdo. cbn [snd] in Hdo.
  assert (Hneg : (diff_order s' < 0)%Z) by (rewrite Hdo; exact Hd).
  destruct ks as [|k1 ks']; [simpl in Hlen; lia|].
  destruct (ncols X) as [|c]; [lia|]. cbn [firstn map] in Hw.
  inversion_clear Hks as [|? ? Hk1 _].
  assert (Hw1 : basis_width (spline_order s0) k1 <> 1).
  { unfold basis_width, s0. cbn [spline_order set_knots_]. lia. }
  unfold pirls_, bind, get. rewrite EB.
  destruct (b_ s') eqn:Eb; unfold modify, ret, lift.
  - rewrite (P_negative_order s' _ _ Hneg Hw Hw1). reflexivity.
  - rewrite (P_negative_order
               (set_b_ (Some (Column (repeat fzero (ncols B)))) s')
               _ _ Hneg Hw Hw1).
    reflexivity.
Qed.
End NegativeOrder.

Lemma negative_diff_order_fails_the_fit_witness :
  fst (fit some_inverse no_shuffle two_samples two_labels
         negative_order_model) = Raise ValueError.
Proof.
  apply (negative_diff_order_fails_the_fit some_inverse no_shuffle
           two_samples two_labels negative_order_model);
    simpl; lia.
Defined.

(** ** The effective degrees of freedom *)

Lemma vsum_map_permutation (g : nat -> R) (l l' : list nat) :
  Permutation l l' -> vsum (map g l) = vsum (map g l').
Proof.
  induction 1 as [|a l l' _ IH|a b l|l l' l'' _ IH1 _ IH2].
  - reflexivity.
  - cbn [map]. rewrite !vsum_R_cons. now rewrite IH.
  - cbn [map]. rewrite !vsum_R_cons. lra.
  - now rewrite IH1.
Qed.

Lemma nth_map_in {A B} (f : A -> B) (l : list A) (k : nat) (da : A)
  (db : B) :
  k < length l -> nth k (map f l) db = f (nth k l da).
Proof.
  intros Hk. rewrite (nth_indep _ db (f da)) by (now rewrite length_map).
  apply map_nth.
Qed.

Section Trace.
Context {F : Type} `{Scalar F}.

(** The diagonal entry [i] of a product, from row [i] of the left factor
    and column [i] of the right one. *)
Lemma diagonal_of_product (A B : mat F) :
  length (rows A) = nrows A ->
  diagonal (matmul A B)
  = map (fun i => vdot (nth i (rows A) []) (column i (rows B)))
        (seq 0 (Nat.min (nrows A) (ncols B))).
Proof.
  intros HA. unfold diagonal, matmul. cbn [rows nrows ncols].
  apply map_ext_in. intros i Hi. apply in_seq in Hi.
  rewrite (nth_map_in _ (rows A) i [] []) by lia.
  unfold columns.
  rewrite (nth_map_in _ _ i [] fzero)
    by (rewrite length_map, length_seq; lia).
  rewrite (nth_map_in _ _ i 0 []) by (rewrite length_seq; lia).
  now rewrite seq_nth by lia.
Qed.
End Trace.

Lemma map_nth_all {A} (l : list A) (d : A) :
  map (fun k => nth k l d) (seq 0 (length l)) = l.
Proof.
  apply (nth_ext _ _ d d).
  - now rewrite length_map, length_seq.
  - intros k Hk. rewrite length_map, length_seq in Hk.
    rewrite (nth_map_in _ _ k 0 d) by (now rewrite length_seq).
    now rewrite seq_nth.
Qed.

(** X15.  estimate_edof_: for at least one and at most 5000 samples the
    estimate is the trace of [bases . inner . BW], whatever permutation
    of the sample indices the shuffle draws. *)
Theorem edof_is_the_trace (sh : list nat -> list nat)
  (bases inner BW : mat R) :
  Permutation (sh (seq 0 (nrows bases))) (seq 0 (nrows bases)) ->
  0 < nrows bases <= 5000 ->
  length (rows bases) = nrows bases -> ncols BW = nrows bases ->
  estimate_edof_ sh bases inner BW
  = vsum (diagonal (matmul (matmul bases inner) BW)).
Proof.
  intros Hperm [Hpos Hsize] Hrows Hcols.
  set (g := fun i => vdot (nth i (rows (matmul bases inner)) [])
                          (column i (rows BW))).
  assert (Hrhs : diagonal (matmul (matmul bases inner) BW)
                 = map g (seq 0 (nrows bases))).
  { rewrite diagonal_of_product.
    - cbn [matmul nrows]. rewrite Hcols, Nat.min_id. reflexivity.
    - unfold matmul. cbn [rows nrows]. now rewrite length_map. }
  rewrite Hrhs. unfold estimate_edof_.
  replace (Nat.min 5000 (nrows bases)) with (nrows bases) by lia.
  assert (Hidx : firstn (nrows bases) (sh (seq 0 (nrows bases)))
                 = sh (seq 0 (nrows bases))).
  { apply firstn_all2. apply Permutation_length in Hperm.
    rewrite Hperm, length_seq. apply Nat.le_refl. }
  rewrite Hidx.
  set (idxs := sh (seq 0 (nrows bases))) in *.
  assert (Hdiag :
            diagonal
              (matmul
                 (Mat (length idxs) (ncols (matmul bases inner))
                    (map (fun i => nth i (rows (matmul bases inner)) [])
                         idxs))
                 (Mat (nrows BW) (length idxs)
                    (map (fun r => map (fun i => nth i r fzero) idxs)
                         (rows BW))))
            = map g idxs).
  { rewrite diagonal_of_product by (cbn [rows nrows]; apply length_map).
    cbn [rows nrows ncols]. rewrite Nat.min_id.
    transitivity (map g (map (fun k => nth k idxs 0)
                             (seq 0 (length idxs))));
      [|now rewrite map_nth_all].
    rewrite map_map. apply map_ext_in. intros k Hk. apply in_seq in Hk.
    rewrite (nth_map_in _ idxs k 0 []) by lia.
    unfold g. f_equal. unfold column. rewrite map_map.
    apply map_ext. intros r.
    now rewrite (nth_map_in _ idxs k 0 fzero) by lia. }
  rewrite Hdiag. rewrite (vsum_map_permutation g _ _ Hperm).
  cbn [fmul fdiv of_Z Scalar_R].
  assert (Hn : IZR (Z.of_nat (nrows bases)) <> 0%R)
    by (apply not_0_IZR; lia).
  field. exact Hn.
Qed.

Lemma edof_is_the_trace_witness :
  estimate_edof_ (@rev nat) (Mat 2 1 [[1%R]; [2%R]]) (Mat 1 1 [[3%R]])
    (Mat 1 2 [[5%R; 7%R]])
  = vsum (diagonal (matmul (matmul (Mat 2 1 [[1%R]; [2%R]])
                              (Mat 1 1 [[3%R]]))
                           (Mat 1 2 [[5%R; 7%R]]))).
Proof.
  apply (edof_is_the_trace (@rev nat) (Mat 2 1 [[1%R]; [2%R]])
           (Mat 1 1 [[3%R]]) (Mat 1 2 [[5%R; 7%R]])).
  - apply Permutation_sym, Permutation_rev.
  - simpl; lia.
  - reflexivity.
  - reflexivity.
Defined.

(** ** Calls that end without convergence *)

Section Unconverged.
Context {F : Type} `{Scalar F} `{Transcendental F}.
Variable sparse_inv : mat F -> result (mat F).
Variable shuffle : list nat -> list nat.

Lemma pirls_loop_unconverged (fuel : nat) (bases P X : mat F) (y : list F) :
  forall (s s' : LogisticGAM F) (r : result pirls_exit),
    pirls_loop sparse_inv shuffle fuel bases P X y s = (r, s') ->
    r <> Ok Converged ->
    diagnostics_of s' = diagnostics_of s.
Proof.
  induction fuel as [|fuel IH]; intros s s' r.
  - cbn [pirls_loop]. intros E _. now injection E as _ <-.
  - rewrite pirls_loop_step.
    destruct (b_ s) as [b|]; [|intros E _; now injection E as _ <-].
    destruct (dot_coef bases b) as [lo|err];
      [|intros E _; now injection E as _ <-].
    cbv zeta.
    destruct (accuracy_ y (proba_ lo)) as [a|err];
      [|intros E _; now injection E as _ <-].
    destruct (saturated (proba_ lo));
      [intros E _; now injection E as _ <-|].
    destruct (pirls_update sparse_inv bases P y lo (proba_ lo))
      as [[[[b_new inner] BW] weights]|err];
      [|intros E _; now injection E as _ <-].
    destruct (np_sub b b_new) as [d|err];
      [|intros E _; now injection E as _ <-].
    destruct (fltb (recorded_change d b_new) (tol s)).
    + destruct (diagnostics_runs shuffle X y (proba_ lo) bases inner BW
                  weights (updated (logged s y (proba_ lo) a)
                             (recorded_change d b_new) b_new))
        as (? & ? & ? & ? & ? & ->).
      intros E Hr. injection E as <- _. contradiction.
    + intros E Hr. apply IH in E; [|exact Hr]. rewrite E. reflexivity.
Qed.

Lemma pirls_unconverged (X : mat F) (y : list F)
  (t s' : LogisticGAM F) (r : result pirls_exit) :
  pirls_ sparse_inv shuffle X y t = (r, s') ->
  r <> Ok Converged ->
  diagnostics_of s' = diagnostics_of t.
Proof.
  intros E Hr. unfold pirls_ in E. unfold bind at 1 in E.
  destruct (bases_ X t) as [[B|err] sB] eqn:EB.
  - assert (HB : diagnostics_of sB = diagnostics_of t).
    { exact (preserves_at (@diagnostics_of F) _ _ _ _
               (bases_preserves (@diagnostics_of F)
                  (fun _ _ => eq_refl) X) EB). }
    unfold bind at 1, get in E. unfold bind at 1 in E.
    destruct (b_ sB).
    + unfold ret in E. unfold bind at 1, get in E.
      unfold bind at 1, lift in E.
      destruct (P_ sB) as [P|err].
      * rewrite <- HB.
        exact (pirls_loop_unconverged _ _ _ _ _ _ _ _ E Hr).
      * injection E as _ <-. exact HB.
    + unfold modify in E. unfold bind at 1, get in E.
      unfold bind at 1, lift in E.
      destruct (P_ _) as [P|err].
      * rewrite <- HB.
        exact (pirls_loop_unconverged _ _ _ _ _ _ _ _ E Hr).
      * injection E as _ <-. exact HB.
  - injection E as _ <-.
    exact (preserves_at (@diagnostics_of F) _ _ _ _
             (bases_preserves (@diagnostics_of F)
                (fun _ _ => eq_refl) X) EB).
Qed.

Lemma fit_unconverged (X : mat F) (y : list F)
  (s s' : LogisticGAM F) (r : result pirls_exit) :
  fit sparse_inv shuffle X y s = (r, s') ->
  r <> Ok Converged ->
  diagnostics_of s' = diagnostics_of s.
Proof.
  intros E Hr. unfold fit in E. unfold bind at 1, get in E.
  unfold bind at 1, lift in E.
  destruct (rmap _ _) as [ks|err]; [|now injection E as _ <-].
  unfold bind at 1, modify in E.
  exact (pirls_unconverged X y (set_knots_ (Some ks) s) s' r E Hr).
Qed.

(** X16.  pirls_ and fit: unless the call returns by convergence, the
    five diagnostics are what they were before the call, whether it
    returns by saturation or by exhaustion of the iterations or raises.
    A fit that does not converge leaves the diagnostics of an earlier
    fit in place, next to the new coefficients. *)
Theorem unconverged_call_keeps_diagnostics
  (X : mat F) (y : list F) (s : LogisticGAM F) :
  (fst (pirls_ sparse_inv shuffle X y s) <> Ok Converged ->
   diagnostics_of (snd (pirls_ sparse_inv shuffle X y s))
   = diagnostics_of s)
  /\ (fst (fit sparse_inv shuffle X y s) <> Ok Converged ->
      diagnostics_of (snd (fit sparse_inv shuffle X y s))
      = diagnostics_of s).
Proof.
  split; intros Hr.
  - destruct (pirls_ sparse_inv shuffle X y s) as [r s'] eqn:E.
    exact (pirls_unconverged X y s s' r E Hr).
  - destruct (fit sparse_inv shuffle X y s) as [r s'] eqn:E.
    exact (fit_unconverged X y s s' r E Hr).
Qed.
End Unconverged.

(** ** A tolerance that is not positive *)

Section NoTolerance.
Local Open Scope R_scope.
Variable inv : mat R -> result (mat R).
Variable sh : list nat -> list nat.

Lemma recorded_change_nonneg (d : ndarray R) (b_new : list R) :
  0 <= recorded_change d b_new.
Proof.
  unfold recorded_change, np_linalg_norm.
  cbn [fdiv fsqrt Scalar_R Transcendental_R]. unfold Rdiv.
  apply Rmult_le_pos; [apply sqrt_pos|].
  destruct (Req_dec (sqrt (vsum (map (fun e => fmul e e) b_new))) 0)
    as [E|E].
  - rewrite E, Rinv_0. lra.
  - left. apply Rinv_0_lt_compat.
    pose proof (sqrt_pos (vsum (map (fun e => fmul e e) b_new))). lra.
Qed.

Lemma changes_after_nonneg (bases P : mat R) (y : list R) (k : nat) :
  forall (b : coef R) (ds : list R),
    changes_after inv bases P y k b = Ok ds ->
    Forall (fun d => 0 <= d) ds.
Proof.
  induction k as [|k IH]; intros b ds; cbn [changes_after].
  - intros E. injection E as <-. constructor.
  - destruct (coef_step inv bases P y b) as [b1|e]; [|discriminate].
    cbn [rbind].
    destruct (np_sub b (coef_values b1)) as [d|e]; [|discriminate].
    cbn [rbind].
    destruct (changes_after inv bases P y k b1) as [ds1|e] eqn:E1;
      [|discriminate].
    cbn [rbind]. intros E. injection E as <-.
    constructor; [apply recorded_change_nonneg|]. now apply (IH b1).
Qed.

(** X17.  pirls_ and fit with a tolerance that is not positive, which
    the constructor accepts: the call never returns by convergence (a
    relative change is never below zero), so it never assigns the
    diagnostics (exact real arithmetic). *)
Theorem nonpositive_tolerance_never_converges
  (X : mat R) (y : list R) (s : LogisticGAM R) :
  tol s <= 0 ->
  fst (pirls_ inv sh X y s) <> Ok Converged
  /\ fst (fit inv sh X y s) <> Ok Converged
  /\ diagnostics_of (snd (fit inv sh X y s)) = diagnostics_of s.
Proof.
  intros Ht.
  assert (Hp : forall t, tol t <= 0 ->
             fst (pirls_ inv sh X y t) <> Ok Converged).
  { intros t Htt Hr.
    destruct (pirls_ inv sh X y t) as [r s'] eqn:E. cbn [fst] in Hr.
    subst r.
    destruct (pirls_exit_summary inv sh X y t s' Converged E)
      as (bases & P & b0 & k & b' & ds & _ & _ & _ & _ & _ & Hch & _ & _
          & _ & _ & ds0 & d & -> & _ & Hlt).
    apply changes_after_nonneg in Hch.
    apply Forall_app in Hch. destruct Hch as [_ Hd].
    inversion_clear Hd as [|? ? Hd0 _].
    cbn [fltb Scalar_R] in Hlt. unfold R_ltb in Hlt.
    destruct (Rlt_dec d (tol t)); [lra|discriminate]. }
  assert (Hf : fst (fit inv sh X y s) <> Ok Converged).
  { unfold fit. unfold bind at 1, get. unfold bind at 1, lift.
    destruct (rmap _ _) as [ks|err]; [|discriminate].
    unfold bind at 1, modify. apply Hp. exact Ht. }
  split; [now apply Hp|]. split; [exact Hf|].
  destruct (fit inv sh X y s) as [r s'] eqn:E.
  exact (fit_unconverged inv sh X y s s' r E Hf).
Qed.
End NoTolerance.

Lemma nonpositive_tolerance_never_converges_witness :
  exists e s',
    fit some_inverse no_shuffle two_samples two_labels zero_tolerance_model
    = (Ok e, s')
    /\ e <> Converged /\ diagnostics_unset s'.
Proof.
  destruct (fit_returns some_inverse no_shuffle some_inverse_total
              two_samples two_labels zero_tolerance_model)
    as (e & s' & E); try reflexivity; try (simpl; lia).
  destruct (nonpositive_tolerance_never_converges some_inverse no_shuffle
              two_samples two_labels zero_tolerance_model)
    as (_ & Hf & Hd).
  { simpl. apply Rle_refl. }
  rewrite E in Hf, Hd. cbn [fst snd] in Hf, Hd.
  exists e, s'. split; [exact E|]. split.
  - intros ->. now apply Hf.
  - unfold diagnostics_unset. rewrite Hd. reflexivity.
Defined.

(** ** The likelihood *)

Section Likelihood.
Local Open Scope R_scope.

Lemma loglik_term_nonpos (yi p : R) :
  0 <= yi <= 1 -> 0 < p < 1 ->
  yi * ln p + (1 - yi) * ln (1 - p) <= 0.
Proof.
  intros Hy Hp.
  assert (H1 : ln p < 0).
  { rewrite <- ln_1. apply ln_increasing; lra. }
  assert (H2 : ln (1 - p) < 0).
  { rewrite <- ln_1. apply ln_increasing; lra. }
  nra.
Qed.

Lemma loglik_nonpos (y log_odds : list R) :
  Forall (fun yi => 0 <= yi <= 1) y ->
  loglik y (proba_ log_odds) <= 0.
Proof.
  intros Hy. unfold loglik, proba_.
  set (f := fun yi p : R =>
              fadd (fmul yi (flog p))
                   (fmul (fsub fone yi) (flog (fsub fone p)))).
  revert log_odds. induction Hy as [|yi y Hyi _ IH]; intros [|lo los];
    cbn [map zipWith]; try (unfold vsum; simpl; lra).
  rewrite vsum_R_cons. specialize (IH los).
  assert (Hterm : f yi (logistic lo) <= 0)
    by exact (loglik_term_nonpos yi (logistic lo) Hyi (logistic_open lo)).
  lra.
Qed.

(** X18.  loglikelihood_ and the likelihood log: for labels between 0
    and 1 the log-likelihood of probabilities the logistic transform
    gives is never positive, so the entries pirls_ and fit append to
    [nll] are never negative (exact real arithmetic). *)
Theorem loglikelihood_is_not_positive
  (inv : mat R -> result (mat R)) (sh : list nat -> list nat)
  (X : mat R) (y log_odds : list R) (s : LogisticGAM R) :
  Forall (fun yi => 0 <= yi <= 1) y ->
  loglikelihood_ (Some X) y (Some (proba_ log_odds)) s
  = (Ok (loglik y (proba_ log_odds)), s)
  /\ loglik y (proba_ log_odds) <= 0
  /\ (Forall (fun v => 0 <= v) (nll s) ->
      Forall (fun v => 0 <= v) (nll (snd (pirls_ inv sh X y s)))
      /\ Forall (fun v => 0 <= v) (nll (snd (fit inv sh X y s)))).
Proof.
  intros Hy. split; [reflexivity|]. split; [now apply loglik_nonpos|].
  assert (Hloop : forall fuel bases P t,
             Forall (fun v => 0 <= v) (nll t) ->
             Forall (fun v => 0 <= v)
                    (nll (snd (pirls_loop inv sh fuel bases P X y t)))).
  { induction fuel as [|fuel IH]; intros bases P t Ht; [exact Ht|].
    rewrite pirls_loop_step.
    destruct (b_ t) as [b|]; [|exact Ht].
    destruct (dot_coef bases b) as [lo|err]; [|exact Ht].
    cbv zeta.
    destruct (accuracy_ y (proba_ lo)) as [a|err]; [|exact Ht].
    assert (H2 : Forall (fun v => 0 <= v)
                        (nll (logged t y (proba_ lo) a))).
    { unfold logged. cbn [nll set_nll set_acc].
      apply Forall_app; split; [exact Ht|].
      constructor; [|constructor].
      pose proof (loglik_nonpos y lo Hy) as Hl.
      cbn [fneg Scalar_R]. lra. }
    destruct (saturated (proba_ lo)); [exact H2|].
    destruct (pirls_update inv bases P y lo (proba_ lo))
      as [[[[b_new inner] BW] weights]|err]; [|exact H2].
    destruct (np_sub b b_new) as [d|err]; [|exact H2].
    destruct (fltb (recorded_change d b_new) (tol t)).
    - destruct (diagnostics_runs sh X y (proba_ lo) bases inner BW
                  weights (updated (logged t y (proba_ lo) a)
                             (recorded_change d b_new) b_new))
        as (? & ? & ? & ? & ? & ->).
      exact H2.
    - apply IH. exact H2. }
  assert (Hp : forall t, Forall (fun v => 0 <= v) (nll t) ->
             Forall (fun v => 0 <= v) (nll (snd (pirls_ inv sh X y t)))).
  { intros t Ht. unfold pirls_. unfold bind at 1.
    destruct (bases_ X t) as [[B|err] sB] eqn:EB.
    - assert (HB : nll sB = nll t).
      { exact (preserves_at (@nll R) _ _ _ _
                 (bases_preserves (@nll R) (fun _ _ => eq_refl) X) EB). }
      unfold bind at 1, get. unfold bind at 1.
      destruct (b_ sB).
      + unfold ret. unfold bind at 1, get. unfold bind at 1, lift.
        destruct (P_ sB) as [P|err]; cbn [snd];
          [apply Hloop|]; now rewrite HB.
      + unfold modify. unfold bind at 1, get. unfold bind at 1, lift.
        destruct (P_ _) as [P|err]; cbn [snd];
          [apply Hloop|]; cbn [nll set_b_]; now rewrite HB.
    - cbn [snd].
      rewrite (preserves_at (@nll R) _ _ _ _
                 (bases_preserves (@nll R) (fun _ _ => eq_refl) X) EB).
      exact Ht. }
  intros Hs. split; [now apply Hp|].
  unfold fit. unfold bind at 1, get. unfold bind at 1, lift.
  destruct (rmap _ _) as [ks|err]; [|exact Hs].
  unfold bind at 1, modify. apply Hp. exact Hs.
Qed.
End Likelihood.

Lemma loglikelihood_is_not_positive_witness :
  (loglik two_labels (proba_ [0%R; 0%R]) <= 0)%R
  /\ Forall (fun v => (0 <= v)%R)
       (nll (snd (fit some_inverse no_shuffle two_samples two_labels
                    fresh_model))).
Proof.
  destruct (loglikelihood_is_not_positive some_inverse no_shuffle
              two_samples two_labels [0%R; 0%R] fresh_model)
    as (_ & Hl & Hn).
  - constructor; [lra|]. constructor; [lra|constructor].
  - split; [exact Hl|]. apply Hn. constructor.
Defined.

(** ** Partial dependence *)

Section PartialDependenceLoop.
Context {F : Type} `{Scalar F}.

Lemma partial_dependence_loop_value (s : LogisticGAM F) (b : list F)
  (pairs : list (list F * list F)) (blocks : list (mat F)) :
  b_ s = Some (Flat b) ->
  Forall2 (fun pr B =>
             b_spline_basis (fst pr) (snd pr) (spline_order s) = Ok B)
          pairs blocks ->
  forall (total : nat) (acc : list (list F)),
    total + list_sum (map (@ncols F) blocks) <= length b ->
    partial_dependence_loop s (combine pairs (map (@ncols F) blocks))
      total acc
    = Ok (acc ++ block_products blocks total b).
Proof.
  intros Hb. induction 1 as [|[x knots] B pairs blocks HB _ IH];
    intros total acc Hlen.
  - cbn. now rewrite app_nil_r.
  - cbn [map combine partial_dependence_loop block_products fst snd] in *.
    rewrite HB. cbn [rbind]. rewrite Hb. cbn [coef_slice].
    unfold dot_coef. cbn [coef_values].
    simpl list_sum in Hlen.
    rewrite slice_length by lia.
    replace (total + ncols B - total) with (ncols B) by lia.
    rewrite Nat.eqb_refl. cbn [rbind].
    rewrite IH by lia. now rewrite <- app_assoc.
Qed.
End PartialDependenceLoop.

Section PartialDependenceSum.
Local Open Scope Qc_scope.

Lemma vdot_Qc_app (r1 r2 v : list Qc) :
  (length r1 <= length v)%nat ->
  vdot (r1 ++ r2) v
  = vdot r1 (firstn (length r1) v) + vdot r2 (skipn (length r1) v).
Proof.
  unfold vdot. revert v. induction r1 as [|x r1 IH]; intros v Hv.
  - cbn [app length firstn skipn zipWith]. unfold vsum at 2. cbn. ring.
  - destruct v as [|a v]; [simpl in Hv; lia|].
    cbn [app length firstn skipn zipWith]. rewrite !vsum_Qc_cons.
    rewrite IH by (simpl in Hv; lia). ring.
Qed.

Lemma matvec_nth (B : mat Qc) (v : list Qc) (i : nat) :
  (i < length (rows B))%nat ->
  nth i (matvec B v) 0 = vdot (nth i (rows B) []) v.
Proof.
  intros Hi. unfold matvec.
  rewrite (nth_indep _ 0 (vdot [] v)) by (now rewrite length_map).
  apply (map_nth (fun r => vdot r v)).
Qed.

(** A row of the blocks side by side, times the coefficients from
    [total] on, is the sum of the products of the blocks. *)
Lemma blocks_row_product (n i : nat) (b : list Qc) (blocks : list (mat Qc)) :
  (i < n)%nat ->
  Forall (fun B => length (rows B) = n
                   /\ Forall (fun r => length r = ncols B) (rows B))
         blocks ->
  forall total : nat,
    (total + list_sum (map (@ncols Qc) blocks) <= length b)%nat ->
    vdot (concat (map (fun B => nth i (rows B) []) blocks)) (skipn total b)
    = vsum (map (fun p => nth i p 0) (block_products blocks total b)).
Proof.
  intros Hi. induction 1 as [|B blocks [HBn HBw] _ IH]; intros total Hlen.
  - cbn. unfold vdot. destruct (skipn total b); reflexivity.
  - cbn [map concat block_products] in *. simpl list_sum in Hlen.
    assert (Hrow : length (nth i (rows B) []) = ncols B).
    { rewrite Forall_forall in HBw. apply HBw, nth_In. lia. }
    rewrite vdot_Qc_app by (rewrite Hrow, length_skipn; lia).
    rewrite vsum_Qc_cons, Hrow, skipn_skipn.
    rewrite (Nat.add_comm (ncols B) total), IH by lia.
    rewrite matvec_nth by lia.
    unfold slice. replace (total + ncols B - total)%nat with (ncols B) by lia.
    reflexivity.
Qed.

Lemma block_products_length (blocks : list (mat Qc)) (total : nat)
  (b : list Qc) :
  length (block_products blocks total b) = length blocks.
Proof.
  revert total; induction blocks as [|B blocks IH]; intros total;
    cbn [block_products length]; [reflexivity|now rewrite IH].
Qed.

(** X19.  partial_dependence and log_odds_: for a fitted model with 1-D
    coefficients, on samples with a column for every fitted feature,
    partial_dependence returns one row per sample and one column per
    feature, and the log-odds of a sample is the intercept coefficient
    plus the sum of its partial dependences (exact arithmetic). *)
Theorem partial_dependence_adds_up
  (X B : mat Qc) (s s' : LogisticGAM Qc) (ks : list (list Qc))
  (b : list Qc) :
  knots_ s = Some ks -> ks <> [] -> (length ks <= ncols X)%nat ->
  length (rows X) = nrows X ->
  b_ s = Some (Flat b) ->
  n_bases_ s = (1 :: map (basis_width (spline_order s)) ks)%nat ->
  length b = list_sum (n_bases_ s) ->
  bases_ X s = (Ok B, s') ->
  exists D,
    partial_dependence X s = Ok D
    /\ nrows D = nrows X /\ ncols D = length ks
    /\ log_odds_ X None None s = (Ok (matvec B b), s')
    /\ forall i, (i < nrows X)%nat ->
         nth i (matvec B b) 0 = nth 0 b 0 + vsum (nth i (rows D) []).
Proof.
  intros Hk Hne Hcols HX Hb Hn Hlen HB.
  destruct (bases_value X B s s' ks Hk HB) as (blocks & Hbl & -> & Hn' & Hs).
  pose proof (blocks_of_bases X ks _ blocks Hbl) as Hshape.
  rewrite HX in Hshape.
  assert (Hw : map (@ncols Qc) blocks
               = map (basis_width (spline_order s)) ks).
  { assert (Hlk : length (combine (columns X) ks) = length ks).
    { rewrite length_combine. unfold columns.
      rewrite length_map, length_seq. lia. }
    clear -Hbl Hlk. revert Hbl Hlk.
    generalize (columns X). intros cols.
    revert cols blocks. induction ks as [|k ks IH]; intros cols blocks Hbl Hlk.
    - destruct cols; cbn in Hbl; inversion Hbl; reflexivity.
    - destruct cols as [|c cols]; [discriminate Hlk|].
      cbn [combine] in Hbl. inversion Hbl as [|? B0 ? blocks0 HB0 Hrest];
        subst. cbn [map fst snd] in *.
      apply b_spline_basis_shape in HB0. destruct HB0 as (_ & -> & _).
      f_equal. apply (IH cols); [exact Hrest|].
      cbn [combine length] in Hlk. lia. }
  assert (Hsum : (1 + list_sum (map (@ncols Qc) blocks) <= length b)%nat).
  { rewrite Hlen, Hn, Hw. simpl list_sum. lia. }
  assert (Htl : tl (n_bases_ s) = map (@ncols Qc) blocks).
  { rewrite Hn, Hw. reflexivity. }
  assert (Hloop : partial_dependence_loop s
                    (combine (combine (columns X) ks) (tl (n_bases_ s)))
                    1 []
                  = Ok (block_products blocks 1 b)).
  { rewrite Htl.
    exact (partial_dependence_loop_value s b _ blocks Hb Hbl 1 [] Hsum). }
  assert (Hblocks : blocks <> []).
  { intros ->. inversion Hbl as [Hc|]; subst.
    assert (Hl : length (combine (columns X) ks) = length ks).
    { rewrite length_combine. unfold columns.
      rewrite length_map, length_seq. lia. }
    rewrite <- Hc in Hl. destruct ks; [contradiction|discriminate]. }
  assert (Hpds : block_products blocks 1 b <> []).
  { intros E. apply (f_equal (@length _)) in E.
    rewrite block_products_length in E.
    destruct blocks; [contradiction|discriminate]. }
  exists (transpose (Mat (length (block_products blocks 1 b)) (nrows X)
                        (block_products blocks 1 b))).
  split.
  { unfold partial_dependence. rewrite Hk, Hloop. cbn [rbind].
    unfold vstack_T. destruct (block_products blocks 1 b);
      [contradiction|reflexivity]. }
  split; [reflexivity|]. split.
  { cbn [transpose nrows ncols]. rewrite block_products_length.
    apply Forall2_length in Hbl. rewrite <- Hbl, length_combine.
    unfold columns. rewrite length_map, length_seq. lia. }
  assert (Hones : length (rows (ones_column (F:=Qc) (nrows X))) = nrows X)
    by (unfold ones_column; cbn [rows]; apply repeat_length).
  assert (Hones_r : Forall (fun r => length r = ncols (ones_column (nrows X)))
                           (rows (ones_column (F:=Qc) (nrows X)))).
  { unfold ones_column; cbn [rows ncols]. apply Forall_forall.
    intros r Hr. apply repeat_spec in Hr. now subst r. }
  destruct (hstack_shape (nrows X) blocks (ones_column (nrows X)) Hones)
    as (Hrows & Hcols' & Hnrows).
  { eapply Forall_impl; [|exact Hshape]. now intros B0 [HBn _]. }
  destruct (hstack_rows (nrows X) blocks (ones_column (nrows X))
              Hones Hones_r Hshape) as [_ Hrow].
  split.
  { unfold log_odds_, bind. rewrite HB. unfold get, need, ret.
    assert (Hb' : b_ s' = Some (Flat b)).
    { rewrite <- Hb. change (b_ s') with (b_ (set_n_bases_ [] s')).
      now rewrite (Hs []). }
    rewrite Hb'. unfold lift, dot_coef. cbn [coef_values].
    rewrite Hcols'. unfold ones_column at 1. cbn [ncols].
    rewrite Hlen, Hn, Hw. simpl list_sum. rewrite Nat.eqb_refl.
    reflexivity. }
  intros i Hi.
  rewrite matvec_nth by (rewrite Hrows; exact Hi).
  rewrite (Hrow i Hi). unfold ones_column; cbn [rows].
  rewrite nth_repeat_lt by exact Hi.
  destruct b as [|b0 b']; [simpl in Hsum; lia|].
  change ([fone] ++ ?l) with (fone :: l).
  unfold vdot at 1. cbn [zipWith]. rewrite vsum_Qc_cons.
  change (vsum (zipWith fmul ?l b')) with (vdot l b').
  change b' with (skipn 1 (b0 :: b')) at 1.
  rewrite (blocks_row_product (nrows X) i (b0 :: b') blocks Hi Hshape 1 Hsum).
  cbn [nth transpose rows]. unfold columns. cbn [rows ncols].
  rewrite (nth_indep _ [] (column 0 (block_products blocks 1 (b0 :: b'))))
    by (now rewrite length_map, length_seq).
  rewrite (map_nth (fun j => column j (block_products blocks 1 (b0 :: b')))).
  rewrite seq_nth by exact Hi. cbn [Nat.add]. unfold column.
  cbn [fmul fone Scalar_Qc].
  change (@fzero Qc _) with 0. ring.
Qed.
End PartialDependenceSum.

Lemma partial_dependence_adds_up_witness :
  exists B s' D,
    bases_ two_rows dependent_model = (Ok B, s')
    /\ partial_dependence two_rows dependent_model = Ok D
    /\ nrows D = 2 /\ ncols D = 1
    /\ forall i, i < 2 ->
         nth i (matvec B [qc 1 1; qc 2 1; qc 3 1; qc 5 1]) 0%Qc
         = (qc 1 1 + vsum (nth i (rows D) []))%Qc.
Proof.
  destruct (bases_ two_rows dependent_model) as [[B|e] s'] eqn:E;
    [|vm_compute in E; discriminate].
  destruct (partial_dependence_adds_up two_rows B dependent_model s'
              [[qc 0 1; qc 1 1; qc 2 1]] [qc 1 1; qc 2 1; qc 3 1; qc 5 1])
    as (D & HD & Hr & Hc & _ & Hsum);
    try reflexivity; try discriminate; try (simpl; lia); try exact E.
  exists B, s', D. repeat (split; [assumption || reflexivity|]).
  exact Hsum.
Defined.
